(** * pi-carplay: the PCM ring reader, the audio worklet, the session
      service, the render worker and the touch hooks, embedded in Rocq.

    Every definition below is transcribed from the TypeScript / JavaScript
    source it names.  JavaScript numbers that hold counters, indices and
    lengths are integers far below 2^53, where double arithmetic is exact;
    they are modelled in [Z].  Touch coordinates, where NaN and the
    infinities matter, are IEEE binary64 values ([PrimFloat.float]). *)

From Stdlib Require Import ZArith QArith Lia Floats.
From stdpp Require Import base option list gmap.

Local Open Scope Z_scope.

(** ** JavaScript helpers shared by the modules *)

(** [arr.length] as a number. *)
Definition len {A} (l : list A) : Z := Z.of_nat (length l).

(** [arr.subarray(b, e)] (also [slice]) for [0 <= b]: the end is clamped
    to the length, an empty range gives an empty view. *)
Definition subarray {A} (l : list A) (b e : Z) : list A :=
  take (Z.to_nat (e - b)) (drop (Z.to_nat b) l).

(** [target.set(src, off)]: overwrite [target] from index [off] on. *)
Definition typed_set {A} (target src : list A) (off : Z) : list A :=
  take (Z.to_nat off) target ++ src
    ++ drop (Z.to_nat off + length src) target.

(** ToUint32, applied by a store into a [Uint32Array]. *)
Definition to_u32 (v : Z) : Z := v mod 2 ^ 32.

(** ToInt32, the conversion behind [x | 0]. *)
Definition to_i32 (v : Z) : Z := (v + 2 ^ 31) mod 2 ^ 32 - 2 ^ 31.

(** ** src/renderer/public/audio.worklet.js: RingBuffReader *)
Module RingBuffReader.

(** The view the reader has of the shared buffer: the Int16 storage and
    the two Uint32 indices in front of it. *)
Record ring := Ring {
  storage : list Z;
  writePointer : Z;
  readPointer : Z
}.

Record read_info := ReadInfo {
  readPos : Z;
  writePos : Z;
  available : Z
}.

(** [getReadInfo]; JavaScript's [%] is the truncated remainder. *)
Definition getReadInfo (r : ring) : read_info :=
  let readPos := readPointer r in
  let writePos := writePointer r in
  {| readPos := readPos;
     writePos := writePos;
     available := Z.rem (writePos + len (storage r) - readPos) (len (storage r)) |}.

Definition store_readPointer (r : ring) (v : Z) : ring :=
  {| storage := storage r; writePointer := writePointer r;
     readPointer := to_u32 v |}.

(** [readTo(target)]: the ring after the call, the target after the call,
    and the returned count. *)
Definition readTo (r : ring) (target : list Z) : ring * list Z * Z :=
  let info := getReadInfo r in
  if available info =? 0 then (r, target, 0) else
  let readLength := Z.min (available info) (len target) in
  let first := Z.min (len (storage r) - readPos info) readLength in
  let second := readLength - first in
  let target1 :=
    typed_set target
      (subarray (storage r) (readPos info) (readPos info + first)) 0 in
  let target2 :=
    if 0 <? second
    then typed_set target1 (subarray (storage r) 0 second) first
    else target1 in
  (store_readPointer r (Z.rem (readPos info + readLength) (len (storage r))),
   target2, readLength).

(** Both indices stay inside the storage (the ring's "modulo N" invariant),
    and the storage fits the Uint32 indices. *)
Definition wf (r : ring) : Prop :=
  0 < len (storage r) < 2 ^ 32 /\
  0 <= readPointer r < len (storage r) /\
  0 <= writePointer r < len (storage r).

(** The [n] samples that follow index [pos], going round the storage. *)
Fixpoint slice (st : list Z) (pos n : nat) : list Z :=
  match n with
  | O => []
  | S n' => nth pos st 0 :: slice st (S pos mod length st) n'
  end.

(** Modelled from the spec: the producer side of the ring, which is the
    imported pcm-ringbuf-player writer and not part of the sources.  Section
    4.6: "the writer never overwrites unread data (if it would, samples are
    dropped at the writer ...)", section 3: "(writer - reader) mod N <= N-1".
    [store_at st pos xs] stores [xs] from index [pos] on, going round. *)
Fixpoint store_at (st : list Z) (pos : nat) (xs : list Z) : list Z :=
  match xs with
  | [] => st
  | x :: xs' => store_at (<[pos := x]> st) (S pos mod length st) xs'
  end.

(** Modelled from the spec: one push of the writer.  It accepts the first
    [k] samples of [xs], never more than the free space [N - 1 - available],
    and advances the write index by that count modulo N; the rest is
    dropped at the writer. *)
Definition accepted (r : ring) (xs : list Z) (k : Z) : Z :=
  Z.max 0 (Z.min k (Z.min (len xs)
    (len (storage r) - 1 - available (getReadInfo r)))).

Definition push (r : ring) (xs : list Z) (k : Z) : ring :=
  let a := accepted r xs k in
  {| storage := store_at (storage r) (Z.to_nat (writePointer r))
                  (take (Z.to_nat a) xs);
     writePointer := to_u32 (Z.rem (writePointer r + a) (len (storage r)));
     readPointer := readPointer r |}.

(** A history of the ring: pushes by the writer and [readTo] calls on a
    target of a given length, in the order they happen. *)
Inductive event :=
| Push (xs : list Z) (k : Z)
| Read (target : list Z).

(** The ring together with everything written and everything read so far. *)
Record system := System {
  sys_ring : ring;
  written : list Z;
  consumed : list Z
}.

Definition step (s : system) (e : event) : system :=
  match e with
  | Push xs k =>
      {| sys_ring := push (sys_ring s) xs k;
         written := written s ++ take (Z.to_nat (accepted (sys_ring s) xs k)) xs;
         consumed := consumed s |}
  | Read target =>
      let '(r', target', n) := readTo (sys_ring s) target in
      {| sys_ring := r';
         written := written s;
         consumed := consumed s ++ take (Z.to_nat n) target' |}
  end.

Definition run (s : system) (es : list event) : system := foldl step s es.

(** A fresh ring: [n] zeroed samples, both indices 0. *)
Definition fresh (n : nat) : system :=
  {| sys_ring := {| storage := replicate n 0; writePointer := 0; readPointer := 0 |};
     written := []; consumed := [] |}.

(** What ties the two histories to the ring: everything written is what
    was consumed followed by the unread samples still in the storage. *)
Definition unread (r : ring) : list Z :=
  slice (storage r) (Z.to_nat (readPointer r))
        (Z.to_nat (available (getReadInfo r))).

Definition inv (s : system) : Prop :=
  wf (sys_ring s) /\ written s = consumed s ++ unread (sys_ring s).

(** *** The storage seen as a circle *)

Lemma length_slice st pos n : length (slice st pos n) = n.
Proof. revert pos; induction n as [|n IH]; intros pos; simpl; [done|by rewrite IH]. Qed.

Lemma slice_app st pos a b :
  (pos < length st)%nat ->
  slice st pos (a + b) = slice st pos a ++ slice st ((pos + a) mod length st) b.
Proof.
  revert pos; induction a as [|a IH]; intros pos Hpos; simpl.
  - by rewrite Nat.add_0_r, Nat.mod_small.
  - rewrite IH by (apply Nat.mod_upper_bound; lia).
    do 3 f_equal.
    rewrite Nat.Div0.add_mod_idemp_l. f_equal; lia.
Qed.

Lemma slice_linear st pos n :
  (pos + n <= length st)%nat -> slice st pos n = take n (drop pos st).
Proof.
  revert pos; induction n as [|n IH]; intros pos Hle; simpl; [done|].
  destruct (lookup_lt_is_Some_2 st pos) as [x Hx]; [lia|].
  rewrite (drop_S _ _ _ Hx), nth_lookup, Hx; simpl. f_equal.
  destruct n as [|n]; [done|].
  rewrite Nat.mod_small by lia. apply IH; lia.
Qed.

Lemma slice_insert_outside st w y pos n :
  (pos < length st)%nat ->
  (forall i, (i < n)%nat -> ((pos + i) mod length st)%nat <> w) ->
  slice (<[w := y]> st) pos n = slice st pos n.
Proof.
  revert pos; induction n as [|n IH]; intros pos Hpos Hw; simpl; [done|].
  rewrite length_insert. f_equal.
  - rewrite !nth_lookup, list_lookup_insert_ne; [done|].
    specialize (Hw 0%nat). rewrite Nat.add_0_r, Nat.mod_small in Hw by lia.
    intros ->. apply Hw; [lia|done].
  - apply IH; [apply Nat.mod_upper_bound; lia|].
    intros i Hi. rewrite Nat.Div0.add_mod_idemp_l.
    replace (S pos + i)%nat with (pos + S i)%nat by lia. apply Hw; lia.
Qed.

Lemma mod_shift_ne n m i d :
  (0 < d < n)%nat -> (m = i mod n)%nat -> ((i + d) mod n)%nat <> m.
Proof.
  intros Hd -> E.
  assert (Hn : n <> 0%nat) by lia.
  pose proof (Nat.div_mod_eq i n) as H1.
  pose proof (Nat.div_mod_eq (i + d) n) as H2.
  pose proof (Nat.mod_upper_bound i n Hn) as H3.
  rewrite E in H2.
  set (q1 := (i / n)%nat) in *. set (q2 := ((i + d) / n)%nat) in *.
  destruct (le_lt_dec q2 q1) as [L|L].
  - assert (n * q2 <= n * q1)%nat by (apply Nat.mul_le_mono_l; lia). lia.
  - assert (n * (q1 + 1) <= n * q2)%nat by (apply Nat.mul_le_mono_l; lia). lia.
Qed.

Lemma length_store_at st pos xs : length (store_at st pos xs) = length st.
Proof.
  revert st pos; induction xs as [|x xs IH]; intros st pos; simpl; [done|].
  by rewrite IH, length_insert.
Qed.

(** Storing [ys] right behind the unread region leaves that region as it
    was and extends it by [ys]. *)
Lemma slice_store_at ys : forall st rp avail,
  (rp < length st)%nat -> (avail + length ys < length st)%nat ->
  slice (store_at st ((rp + avail) mod length st) ys) rp (avail + length ys)
  = slice st rp avail ++ ys.
Proof.
  induction ys as [|y ys IH]; intros st rp avail Hrp Hlt; simpl in *.
  - by rewrite Nat.add_0_r, app_nil_r.
  - set (w := ((rp + avail) mod length st)%nat).
    assert (Hw : (w < length st)%nat) by (apply Nat.mod_upper_bound; lia).
    replace (S w mod length st)%nat
      with ((rp + S avail) mod length (<[w:=y]> st))%nat.
    2:{ rewrite length_insert. unfold w.
        replace (S ((rp + avail) mod length st))
          with ((rp + avail) mod length st + 1)%nat by lia.
        rewrite Nat.Div0.add_mod_idemp_l. f_equal; lia. }
    replace (avail + S (length ys))%nat with (S avail + length ys)%nat by lia.
    rewrite IH by (rewrite ?length_insert; lia).
    replace (S avail) with (avail + 1)%nat by lia.
    rewrite slice_app by (rewrite length_insert; lia).
    rewrite length_insert. fold w. simpl.
    rewrite nth_lookup, list_lookup_insert_eq by done. simpl.
    rewrite slice_insert_outside; [by rewrite <- app_assoc|done|].
    intros i Hi E. 
    apply (mod_shift_ne (length st) ((rp + i) mod length st) (rp + i) (avail - i));
      [lia|done|].
    rewrite E. unfold w. f_equal. lia.
Qed.

(** *** [getReadInfo] and [readTo] on a well-formed ring *)

Lemma available_spec r :
  wf r ->
  available (getReadInfo r)
    = (writePointer r - readPointer r) mod len (storage r)
  /\ 0 <= available (getReadInfo r) < len (storage r).
Proof.
  intros (HN & Hr & Hw). unfold getReadInfo; simpl.
  rewrite Z.rem_mod_nonneg by lia.
  replace (writePointer r + len (storage r) - readPointer r)
    with (writePointer r - readPointer r + 1 * len (storage r)) by lia.
  rewrite Z_mod_plus_full. split; [done|]. apply Z.mod_pos_bound; lia.
Qed.

Lemma to_u32_small v : 0 <= v < 2 ^ 32 -> to_u32 v = v.
Proof. intros H. unfold to_u32. by apply Z.mod_small. Qed.

Lemma subarray_slice st b e :
  0 <= b -> b <= e <= len st ->
  subarray st b e = slice st (Z.to_nat b) (Z.to_nat (e - b)).
Proof.
  intros Hb He. unfold subarray, len in *. symmetry. apply slice_linear. lia.
Qed.

Lemma typed_set_head {A} (target src : list A) :
  typed_set target src 0 = src ++ drop (length src) target.
Proof. done. Qed.

Lemma readTo_spec r target r' target' k :
  wf r -> readTo r target = (r', target', k) ->
  k = Z.min (available (getReadInfo r)) (len target) /\
  target' = slice (storage r) (Z.to_nat (readPointer r)) (Z.to_nat k)
              ++ drop (Z.to_nat k) target /\
  storage r' = storage r /\ writePointer r' = writePointer r /\
  readPointer r' = (readPointer r + k) mod len (storage r).
Proof.
  intros Hwf. destruct (available_spec r Hwf) as [_ Hav].
  destruct Hwf as (HN & Hr & Hw).
  unfold readTo.
  destruct (Z.eqb_spec (available (getReadInfo r)) 0) as [E0|E0].
  - intros [= <- <- <-]. rewrite E0.
    assert (0 <= len target) by (unfold len; lia).
    rewrite Z.min_l by done. simpl. rewrite drop_0, Z.add_0_r.
    by rewrite Z.mod_small.
  - set (N := len (storage r)) in *.
    set (rp := readPointer r) in *.
    change (readPos (getReadInfo r)) with rp.
    set (n := Z.min (available (getReadInfo r)) (len target)).
    set (first := Z.min (N - rp) n).
    assert (Hn : 0 <= n < N) by (unfold n, len in *; lia).
    assert (Hf : 0 <= first <= n) by (unfold first; lia).
    assert (Hlt : (Z.to_nat n <= length target)%nat) by (unfold n, len; lia).
    intros [= <- <- <-]. split; [done|]. split; [|split; [done|split; [done|]]].
    + rewrite subarray_slice by (fold N; lia).
      replace (rp + first - rp) with first by lia.
      rewrite !typed_set_head, length_slice.
      destruct (Z.ltb_spec 0 (n - first)) as [Hs|Hs].
      * assert (first = N - rp) by (unfold first; lia).
        rewrite subarray_slice by (fold N; lia).
        unfold typed_set. rewrite length_slice.
        rewrite take_app_length' by (by rewrite length_slice).
        rewrite drop_app_ge by (rewrite length_slice; lia).
        rewrite length_slice, drop_drop, app_assoc.
        replace (Z.to_nat n) with (Z.to_nat first + Z.to_nat (n - first - 0))%nat at 1 by lia.
        rewrite slice_app by (unfold N, len in *; lia).
        replace ((Z.to_nat rp + Z.to_nat first) mod length (storage r))%nat with 0%nat.
        2:{ replace (Z.to_nat rp + Z.to_nat first)%nat with (length (storage r))
              by (unfold N, len in *; lia).
            by rewrite Nat.Div0.mod_same. }
        do 2 f_equal. lia.
      * by replace first with n by lia.
    + simpl. rewrite Z.rem_mod_nonneg by lia.
      apply to_u32_small.
      pose proof (Z.mod_pos_bound (rp + n) N). lia.
Qed.

(** *** Reader and writer together *)

Lemma inv_fresh n : 0 < Z.of_nat n < 2 ^ 32 -> inv (fresh n).
Proof.
  intros Hn. split.
  - unfold wf, fresh, len; simpl. rewrite length_replicate. lia.
  - unfold unread, getReadInfo, fresh, len; simpl. rewrite length_replicate.
    rewrite Z.sub_0_r, Z.rem_same by lia. done.
Qed.

Lemma to_nat_mod a b :
  0 <= a -> 0 < b -> Z.to_nat (a mod b) = (Z.to_nat a mod Z.to_nat b)%nat.
Proof.
  intros Ha Hb. apply Nat2Z.inj.
  rewrite Nat2Z.inj_mod, !Z2Nat.id; try lia.
  pose proof (Z.mod_pos_bound a b); lia.
Qed.

Lemma inv_read s target : inv s -> inv (step s (Read target)).
Proof.
  intros [Hwf Hhist]. simpl.
  destruct (readTo (sys_ring s) target) as [[r' target'] k] eqn:E.
  destruct (readTo_spec _ _ _ _ _ Hwf E) as (Hk & Ht & Hst & Hwp & Hrp).
  destruct (available_spec _ Hwf) as [Hav Hbound].
  set (r := sys_ring s) in *. set (N := len (storage r)) in *.
  assert (HN : 0 < N < 2 ^ 32) by apply Hwf.
  assert (Hr : 0 <= readPointer r < N) by apply Hwf.
  assert (Hk0 : 0 <= k <= available (getReadInfo r)) by (unfold len in *; lia).
  assert (Hwf' : wf r').
  { unfold wf. rewrite Hst, Hwp, Hrp. fold N.
    pose proof (Z.mod_pos_bound (readPointer r + k) N).
    destruct Hwf as (? & ? & ?). lia. }
  split; [done|]. simpl.
  destruct (available_spec _ Hwf') as [Hav' _].
  unfold unread. rewrite Hav', Hst, Hwp, Hrp. fold N.
  rewrite Zminus_mod_idemp_r.
  replace (writePointer r - (readPointer r + k))
    with (writePointer r - readPointer r - k) by lia.
  rewrite <- Zminus_mod_idemp_l, <- Hav, (Z.mod_small (_ - k)) by lia.
  rewrite Hhist, <- app_assoc. f_equal.
  rewrite Ht, take_app_length' by (by rewrite length_slice).
  unfold unread. fold r.
  replace (Z.to_nat (available (getReadInfo r)))
    with (Z.to_nat k + Z.to_nat (available (getReadInfo r) - k))%nat by lia.
  rewrite slice_app by (unfold N, len in *; lia).
  do 2 f_equal.
  rewrite to_nat_mod by lia. unfold N, len.
  rewrite Nat2Z.id. f_equal. lia.
Qed.

Lemma accepted_bound r xs k :
  wf r ->
  0 <= accepted r xs k <= len xs /\
  available (getReadInfo r) + accepted r xs k < len (storage r).
Proof.
  intros Hwf. destruct (available_spec _ Hwf) as [_ Hb].
  unfold accepted, len in *. lia.
Qed.

Lemma inv_push s xs k : inv s -> inv (step s (Push xs k)).
Proof.
  intros [Hwf Hhist]. simpl.
  destruct (available_spec _ Hwf) as [Hav Hbound].
  destruct (accepted_bound _ xs k Hwf) as [Ha Hroom].
  set (r := sys_ring s) in *. set (N := len (storage r)) in *.
  set (a := accepted r xs k) in *.
  assert (HN : 0 < N < 2 ^ 32) by apply Hwf.
  assert (Hr : 0 <= readPointer r < N) by apply Hwf.
  assert (Hw : 0 <= writePointer r < N) by apply Hwf.
  assert (Hlen : length (take (Z.to_nat a) xs) = Z.to_nat a)
    by (rewrite length_take; unfold len in *; lia).
  assert (Hwp' : writePointer (push r xs k) = (writePointer r + a) mod N).
  { unfold push; simpl. fold a N. rewrite Z.rem_mod_nonneg by lia.
    apply to_u32_small. pose proof (Z.mod_pos_bound (writePointer r + a) N). lia. }
  assert (Hwf' : wf (push r xs k)).
  { unfold wf. rewrite Hwp'. unfold push at 1 2 3 4; simpl. unfold len.
    rewrite length_store_at. fold (len (storage r)). fold N.
    pose proof (Z.mod_pos_bound (writePointer r + a) N). lia. }
  split; [done|]. simpl.
  destruct (available_spec _ Hwf') as [Hav' _].
  unfold unread. rewrite Hav', Hwp'.
  assert (HN' : len (storage (push r xs k)) = N).
  { unfold push; simpl. unfold len. by rewrite length_store_at. }
  rewrite HN'. change (readPointer (push r xs k)) with (readPointer r).
  rewrite Zminus_mod_idemp_l.
  replace (writePointer r + a - readPointer r)
    with (writePointer r - readPointer r + a) by lia.
  rewrite <- Zplus_mod_idemp_l, <- Hav, (Z.mod_small (_ + a)) by lia.
  rewrite Hhist, <- app_assoc. f_equal. fold r.
  assert (Hw_eq : Z.to_nat (writePointer r)
    = ((Z.to_nat (readPointer r) + Z.to_nat (available (getReadInfo r)))
         mod length (storage r))%nat).
  { apply Nat2Z.inj. rewrite Nat2Z.inj_mod, Nat2Z.inj_add, !Z2Nat.id by lia.
    fold (len (storage r)). fold N. rewrite Hav, Zplus_mod_idemp_r.
    replace (readPointer r + (writePointer r - readPointer r))
      with (writePointer r) by lia.
    by rewrite Z.mod_small. }
  unfold unread.
  remember (available (getReadInfo r)) as av eqn:Eav.
  change (storage (push r xs k))
    with (store_at (storage r) (Z.to_nat (writePointer r)) (take (Z.to_nat a) xs)).
  rewrite Hw_eq.
  replace (Z.to_nat (av + a))
    with (Z.to_nat av + length (take (Z.to_nat a) xs))%nat by lia.
  symmetry. apply slice_store_at; unfold N, len in *; lia.
Qed.

Lemma inv_run es : forall s, inv s -> inv (run s es).
Proof.
  induction es as [|e es IH]; intros s Hs; simpl; [done|].
  apply IH. destruct e; [by apply inv_push|by apply inv_read].
Qed.

(** C5.  On any ring reached from a consistent state by pushes of the
    writer and reads of the reader, a [readTo] call copies exactly
    min(available, target.length) samples, where available is
    (write - read) mod N; the copied samples are the ones that follow the
    read index in the storage; the read index advances by that count
    modulo N and so never passes the write index; the number of samples
    read never exceeds the number written, and the samples read so far are
    a prefix of the samples written so far. *)
Theorem readTo_discipline (s0 : system) (es : list event) (target : list Z)
    (r' : ring) (target' : list Z) (k : Z) :
  inv s0 ->
  let s := run s0 es in
  let r := sys_ring s in
  let N := len (storage r) in
  let avail := (writePointer r - readPointer r) mod N in
  let s' := step s (Read target) in
  readTo r target = (r', target', k) ->
  available (getReadInfo r) = avail /\
  k = Z.min avail (len target) /\
  take (Z.to_nat k) target'
    = slice (storage r) (Z.to_nat (readPointer r)) (Z.to_nat k) /\
  drop (Z.to_nat k) target' = drop (Z.to_nat k) target /\
  readPointer r' = (readPointer r + k) mod N /\
  writePointer r' = writePointer r /\
  (writePointer r' - readPointer r') mod N = avail - k /\
  0 <= avail - k /\
  consumed s' = consumed s ++ take (Z.to_nat k) target' /\
  (length (consumed s') <= length (written s'))%nat /\
  consumed s' `prefix_of` written s'.
Proof.
  intros H0 s r N avail s' E.
  pose proof (inv_run es s0 H0) as Hs. fold s in Hs.
  pose proof (inv_read s target Hs) as [Hwf' Hs']. fold s' in Hwf', Hs'.
  destruct Hs as [Hwf _].
  destruct (available_spec _ Hwf) as [Hav Hb].
  destruct (readTo_spec _ _ _ _ _ Hwf E) as (Hk & Ht & Hst & Hwp & Hrp).
  fold r N in Hav, Hb, Hk, Hrp. fold avail in Hav.
  rewrite Hav in Hb, Hk.
  assert (Hlt : 0 <= len target) by (unfold len; lia).
  assert (Hk0 : 0 <= k <= avail) by lia.
  assert (HN : 0 < N) by apply Hwf.
  assert (Hlen : (Z.to_nat k <= length target)%nat).
  { apply Nat2Z.inj_le. fold (len target). lia. }
  split; [done|]. split; [done|].
  split; [rewrite Ht; apply take_app_length'; by rewrite length_slice|].
  split; [rewrite Ht; apply drop_app_length'; by rewrite length_slice|].
  split; [done|]. split; [done|].
  split.
  { rewrite Hwp, Hrp. fold r.
    rewrite (Zminus_mod_idemp_r (writePointer r) (readPointer r + k) N).
    replace (writePointer r - (readPointer r + k))
      with (writePointer r - readPointer r - k) by lia.
    rewrite <- (Zminus_mod_idemp_l (writePointer r - readPointer r) k N).
    fold avail. apply Z.mod_small. lia. }
  split; [lia|].
  assert (Hc : consumed s' = consumed s ++ take (Z.to_nat k) target').
  { unfold s'. simpl. fold r. by rewrite E. }
  split; [done|].
  rewrite Hs'. split; [rewrite length_app; lia|by apply prefix_app_r].
Qed.

Definition sample_history : list event :=
  [Push [10; 20; 30] 3; Read [0; 0]; Push [40; 50; 60] 3].

Lemma readTo_discipline_witness :
  inv (fresh 4) /\
  readTo (sys_ring (run (fresh 4) sample_history)) [0; 0; 0; 0; 0]
    = ({| storage := [50; 20; 30; 40]; writePointer := 1; readPointer := 1 |},
       [30; 40; 50; 0; 0], 3) /\
  consumed (step (run (fresh 4) sample_history) (Read [0; 0; 0; 0; 0]))
    `prefix_of`
  written (step (run (fresh 4) sample_history) (Read [0; 0; 0; 0; 0])).
Proof.
  assert (H4 : 0 < Z.of_nat 4 < 2 ^ 32) by (split; reflexivity).
  split; [exact (inv_fresh 4 H4)|]. split; [reflexivity|].
  exact (proj2 (proj2 (proj2 (proj2 (proj2 (proj2 (proj2 (proj2 (proj2 (proj2
    (readTo_discipline (fresh 4) sample_history [0; 0; 0; 0; 0] _ _ 3
       (inv_fresh 4 H4) eq_refl))))))))))).
Defined.

End RingBuffReader.

(** ** src/renderer/public/audio.worklet.js: PCMWorkletProcessor *)
Module PCMWorkletProcessor.
Import RingBuffReader.

Definition RENDER_QUANTUM_FRAMES : Z := 128.

(** [Math.ceil(a / b)] for [0 < b]. *)
Definition ceil_div (a b : Z) : Z := - ((- a) / b).

(** [quantaFromMs(ms, sr)] is [Math.max(1, Math.ceil((ms / 1000) * sr / 128))].
    Durations and rates are whole numbers here and the quotient is taken
    exactly, as [ms * sr / 128000]; for the built-in durations 8 and 40 the
    double product [(ms / 1000) * sr] is the exact one at every whole rate. *)
Definition quantaFromMs (ms sr : Z) : Z :=
  Z.max 1 (ceil_div (ms * sr) (1000 * RENDER_QUANTUM_FRAMES)).

(** The fields of the processor.  The ring behind [reader] is shared with
    the writer, so it is passed to [process] at each call.  Output samples
    are exact rationals: the rounding of the Float32 stores is not
    modelled. *)
Record state := State {
  channels : Z;
  readerOutput : list Z;
  (* priming / preroll *)
  streamSR : Z;
  basePrerollQ : Z;
  targetPrerollQ : Z;
  maxPrerollQ : Z;
  primed : bool;
  stableBlocks : Z;
  softUnderruns : Z;
  hardUnderruns : Z;
  (* ramp *)
  rampMs : Z;
  rampLen : Z;
  rampLeft : Z;
  needRamp : bool;
  xfFromL : Q;
  xfFromR : Q;
  xfFromM : Q;
  (* last samples for clickless padding *)
  lastL : Q;
  lastR : Q;
  lastM : Q;
  reportedUnderrun : bool
}.

(** What [port.postMessage] sends: [{ t: 'underrun' }], [{ t: 'recovered' }]. *)
Inductive message := underrun | recovered.

(** What [port.onmessage] receives; [ms] is [None] when [msg.ms] is not a
    number. *)
Inductive port_message :=
| setPrerollMs (ms : option Z)
| setRampMs (ms : option Z)
| other_message.

Record processorOptions := Options {
  opt_channels : option Z;
  opt_streamSampleRate : option Z;
  opt_prerollMs : option Z;
  opt_maxPrerollMs : option Z;
  opt_rampMs : option Z
}.

(** The constructor; [sampleRate] is the global of the worklet scope. *)
Definition constructor (sampleRate : Z) (o : processorOptions) : state :=
  let channels :=
    Z.max 1 (let c := to_i32 (default 0 (opt_channels o)) in
             if c =? 0 then 1 else c) in
  let streamSR :=
    match opt_streamSampleRate o with
    | Some v => if 0 <? v then v else sampleRate
    | None => sampleRate
    end in
  let rampMs :=
    match opt_rampMs o with
    | Some v => if 0 <=? v then v else 8
    | None => 8
    end in
  let baseMs :=
    match opt_prerollMs o with
    | Some v => if 0 <? v then v else 8
    | None => 8
    end in
  let maxMs :=
    match opt_maxPrerollMs o with
    | Some v => if baseMs <? v then v else 40
    | None => 40
    end in
  {| channels := channels;
     readerOutput := replicate (Z.to_nat (RENDER_QUANTUM_FRAMES * channels)) 0;
     streamSR := streamSR;
     basePrerollQ := quantaFromMs baseMs streamSR;
     targetPrerollQ := quantaFromMs baseMs streamSR;
     maxPrerollQ := quantaFromMs maxMs streamSR;
     primed := false; stableBlocks := 0; softUnderruns := 0; hardUnderruns := 0;
     rampMs := rampMs; rampLen := 0; rampLeft := 0; needRamp := true;
     xfFromL := 0; xfFromR := 0; xfFromM := 0;
     lastL := 0; lastR := 0; lastM := 0;
     reportedUnderrun := false |}.

(** [port.onmessage]: optional runtime tuning. *)
Definition onmessage (st : state) (msg : port_message) : state :=
  match msg with
  | setPrerollMs (Some ms) =>
      if 0 <? ms then
        let base := quantaFromMs ms (streamSR st) in
      {| channels := channels st; readerOutput := readerOutput st;
         streamSR := streamSR st; basePrerollQ := base;
         targetPrerollQ := Z.max (targetPrerollQ st) base;
         maxPrerollQ := maxPrerollQ st; primed := primed st;
         stableBlocks := stableBlocks st; softUnderruns := softUnderruns st;
         hardUnderruns := hardUnderruns st; rampMs := rampMs st;
         rampLen := rampLen st; rampLeft := rampLeft st;
         needRamp := needRamp st; xfFromL := xfFromL st;
         xfFromR := xfFromR st; xfFromM := xfFromM st; lastL := lastL st;
         lastR := lastR st; lastM := lastM st;
         reportedUnderrun := reportedUnderrun st |}
      else st
  | setRampMs (Some ms) =>
      if 0 <=? ms then
      {| channels := channels st; readerOutput := readerOutput st;
         streamSR := streamSR st; basePrerollQ := basePrerollQ st;
         targetPrerollQ := targetPrerollQ st; maxPrerollQ := maxPrerollQ st;
         primed := primed st; stableBlocks := stableBlocks st;
         softUnderruns := softUnderruns st;
         hardUnderruns := hardUnderruns st; rampMs := ms;
         rampLen := rampLen st; rampLeft := 0; needRamp := true;
         xfFromL := xfFromL st; xfFromR := xfFromR st; xfFromM := xfFromM st;
         lastL := lastL st; lastR := lastR st; lastM := lastM st;
         reportedUnderrun := reportedUnderrun st |}
      else st
  | _ => st
  end.

Definition toF32 (s16 : Z) : Q := inject_Z s16 / 32768.

Definition beginRamp (st : state) : state :=
  let len := Z.max 1 (streamSR st * rampMs st / 1000) in
  {| channels := channels st; readerOutput := readerOutput st;
     streamSR := streamSR st; basePrerollQ := basePrerollQ st;
     targetPrerollQ := targetPrerollQ st; maxPrerollQ := maxPrerollQ st;
     primed := primed st; stableBlocks := stableBlocks st;
     softUnderruns := softUnderruns st; hardUnderruns := hardUnderruns st;
     rampMs := rampMs st; rampLen := len; rampLeft := len; needRamp := false;
     xfFromL := lastL st; xfFromR := lastR st; xfFromM := lastM st;
     lastL := lastL st; lastR := lastR st; lastM := lastM st;
     reportedUnderrun := reportedUnderrun st |}.

(** The output of one render quantum: one array of frames per channel.
    Typed arrays ignore a store past their end, as [<[f:=v]>] does. *)
Definition buffers := list (list Q).

Definition wr (out : buffers) (c f : nat) (v : Q) : buffers :=
  alter (fun a => <[f := v]> a) c out.

Definition rd (out : buffers) (c f : nat) : Q :=
  default 0%Q (out !! c ≫= fun a => a !! f).

(** [a.fill(v)]. *)
Definition fill (v : Q) (a : list Q) : list Q := replicate (length a) v.

(** [for (f = 0; f < frames; f++) a[f] = v]. *)
Definition fill_frames (frames : Z) (v : Q) (a : list Q) : list Q :=
  replicate (Nat.min (Z.to_nat frames) (length a)) v ++ drop (Z.to_nat frames) a.

(** [fillWithLast(out, frames)]; a node has at least one output channel. *)
Definition fillWithLast (st : state) (out : buffers) (frames : Z) : buffers :=
  if (2 <=? len out) && (channels st =? 2) then
    imap (fun c a =>
            match c with
            | O => fill_frames frames (lastL st) a
            | S O => fill_frames frames (lastR st) a
            | _ => fill 0 a
            end) out
  else
    imap (fun c a =>
            match c with
            | O => fill_frames frames (lastM st) a
            | _ => fill (lastM st) a
            end) out.

Definition set_rampLeft (st : state) (v : Z) : state :=
  {| channels := channels st; readerOutput := readerOutput st;
     streamSR := streamSR st; basePrerollQ := basePrerollQ st;
     targetPrerollQ := targetPrerollQ st; maxPrerollQ := maxPrerollQ st;
     primed := primed st; stableBlocks := stableBlocks st;
     softUnderruns := softUnderruns st; hardUnderruns := hardUnderruns st;
     rampMs := rampMs st; rampLen := rampLen st; rampLeft := v;
     needRamp := needRamp st; xfFromL := xfFromL st; xfFromR := xfFromR st;
     xfFromM := xfFromM st; lastL := lastL st; lastR := lastR st;
     lastM := lastM st; reportedUnderrun := reportedUnderrun st |}.

(** The weight [a = (start + k + 1) / rampLen] of the new stream. *)
Definition ramp_weight (st : state) (k : nat) : Q :=
  inject_Z (rampLen st - rampLeft st + Z.of_nat k + 1) / inject_Z (rampLen st).

(** [applyRampStereo(L, R, written)]; [Lc] and [Rc] are the channels that
    [L] and [R] name (the same one when the node has a single output). *)
Definition applyRampStereo (st : state) (out : buffers) (Lc Rc : nat)
    (written : Z) : state * buffers :=
  let n := Z.min written (rampLeft st) in
  let out' :=
    foldl (fun o k =>
             let a := ramp_weight st k in
             let b := (1 - a)%Q in
             let o1 := wr o Lc k (b * xfFromL st + a * rd o Lc k)%Q in
             wr o1 Rc k (b * xfFromR st + a * rd o1 Rc k)%Q)
          out (seq 0 (Z.to_nat n)) in
  let left := rampLeft st - n in
  (set_rampLeft st (if left <? 0 then 0 else left), out').

Definition applyRampMono (st : state) (out : buffers) (Mc : nat)
    (written : Z) : state * buffers :=
  let n := Z.min written (rampLeft st) in
  let out' :=
    foldl (fun o k =>
             let a := ramp_weight st k in
             let b := (1 - a)%Q in
             wr o Mc k (b * xfFromM st + a * rd o Mc k)%Q)
          out (seq 0 (Z.to_nat n)) in
  let left := rampLeft st - n in
  (set_rampLeft st (if left <? 0 then 0 else left), out').

Definition set_lastLR (st : state) (l r : Q) : state :=
  {| channels := channels st; readerOutput := readerOutput st;
     streamSR := streamSR st; basePrerollQ := basePrerollQ st;
     targetPrerollQ := targetPrerollQ st; maxPrerollQ := maxPrerollQ st;
     primed := primed st; stableBlocks := stableBlocks st;
     softUnderruns := softUnderruns st; hardUnderruns := hardUnderruns st;
     rampMs := rampMs st; rampLen := rampLen st; rampLeft := rampLeft st;
     needRamp := needRamp st; xfFromL := xfFromL st; xfFromR := xfFromR st;
     xfFromM := xfFromM st; lastL := l; lastR := r; lastM := lastM st;
     reportedUnderrun := reportedUnderrun st |}.

Definition set_lastM (st : state) (m : Q) : state :=
  {| channels := channels st; readerOutput := readerOutput st;
     streamSR := streamSR st; basePrerollQ := basePrerollQ st;
     targetPrerollQ := targetPrerollQ st; maxPrerollQ := maxPrerollQ st;
     primed := primed st; stableBlocks := stableBlocks st;
     softUnderruns := softUnderruns st; hardUnderruns := hardUnderruns st;
     rampMs := rampMs st; rampLen := rampLen st; rampLeft := rampLeft st;
     needRamp := needRamp st; xfFromL := xfFromL st; xfFromR := xfFromR st;
     xfFromM := xfFromM st; lastL := lastL st; lastR := lastR st; lastM := m;
     reportedUnderrun := reportedUnderrun st |}.

(** The [ch === 2] branch of [process]. *)
Definition renderStereo (st : state) (out : buffers) (framesGot : Z)
    : state * buffers :=
  let frames := RENDER_QUANTUM_FRAMES in
  let Lc := 0%nat in
  let Rc := if out !! 1%nat is Some _ then 1%nat else 0%nat in
  let ro := readerOutput st in
  let o1 :=
    foldl (fun o f =>
             wr (wr o Lc f (toF32 (nth (2 * f) ro 0)))
                Rc f (toF32 (nth (2 * f + 1) ro 0)))
          out (seq 0 (Z.to_nat framesGot)) in
  let f := Z.max 0 framesGot in
  let '(st1, o2) :=
    if 0 <? rampLeft st then applyRampStereo st o1 Lc Rc f else (st, o1) in
  let padL := if f =? 0 then lastL st1 else rd o2 Lc (Z.to_nat (f - 1)) in
  let padR := if f =? 0 then lastR st1 else rd o2 Rc (Z.to_nat (f - 1)) in
  let o3 :=
    foldl (fun o f' => wr (wr o Lc f' padL) Rc f' padR)
          o2 (seq (Z.to_nat f) (Z.to_nat (frames - f))) in
  let o4 := imap (fun c a => if (2 <=? c)%nat then fill 0 a else a) o3 in
  (set_lastLR st1 (rd o4 Lc (Z.to_nat (frames - 1)))
                  (rd o4 Rc (Z.to_nat (frames - 1))), o4).

(** The other branch of [process]. *)
Definition renderMono (st : state) (out : buffers) (framesGot : Z)
    : state * buffers :=
  let frames := RENDER_QUANTUM_FRAMES in
  let Mc := 0%nat in
  let ro := readerOutput st in
  let o1 :=
    foldl (fun o f => wr o Mc f (toF32 (nth f ro 0)))
          out (seq 0 (Z.to_nat framesGot)) in
  let f := Z.max 0 framesGot in
  let '(st1, o2) :=
    if 0 <? rampLeft st then applyRampMono st o1 Mc f else (st, o1) in
  let pad := if f =? 0 then lastM st1 else rd o2 Mc (Z.to_nat (f - 1)) in
  let o3 :=
    foldl (fun o f' => wr o Mc f' pad)
          o2 (seq (Z.to_nat f) (Z.to_nat (frames - f))) in
  let o4 := imap (fun c a => if (1 <=? c)%nat then fill 0 a else a) o3 in
  (set_lastM st1 (rd o4 Mc (Z.to_nat (frames - 1))), o4).

(** The end of priming: [available >= targetPrerollQ * needSamples]. *)
Definition prime (st : state) : state :=
  {| channels := channels st; readerOutput := readerOutput st;
     streamSR := streamSR st; basePrerollQ := basePrerollQ st;
     targetPrerollQ := targetPrerollQ st; maxPrerollQ := maxPrerollQ st;
     primed := true; stableBlocks := 0; softUnderruns := 0;
     hardUnderruns := 0; rampMs := rampMs st; rampLen := rampLen st;
     rampLeft := rampLeft st; needRamp := true; xfFromL := xfFromL st;
     xfFromR := xfFromR st; xfFromM := xfFromM st; lastL := lastL st;
     lastR := lastR st; lastM := lastM st;
     reportedUnderrun := reportedUnderrun st |}.

(** The hard underrun: no channel-aligned sample to read. *)
Definition hardUnderrun (st : state) : state * list message :=
  (
   {| channels := channels st; readerOutput := readerOutput st;
      streamSR := streamSR st; basePrerollQ := basePrerollQ st;
      targetPrerollQ := (if targetPrerollQ st <? maxPrerollQ st
                        then targetPrerollQ st + 1 else targetPrerollQ st);
      maxPrerollQ := maxPrerollQ st; primed := false; stableBlocks := 0;
      softUnderruns := 0; hardUnderruns := hardUnderruns st + 1;
      rampMs := rampMs st; rampLen := rampLen st; rampLeft := rampLeft st;
      needRamp := true; xfFromL := xfFromL st; xfFromR := xfFromR st;
      xfFromM := xfFromM st; lastL := lastL st; lastR := lastR st;
      lastM := lastM st; reportedUnderrun := true |},
   if reportedUnderrun st then [] else [underrun]).

Definition set_readerOutput (st : state) (ro : list Z) : state :=
  {| channels := channels st; readerOutput := ro; streamSR := streamSR st;
     basePrerollQ := basePrerollQ st; targetPrerollQ := targetPrerollQ st;
     maxPrerollQ := maxPrerollQ st; primed := primed st;
     stableBlocks := stableBlocks st; softUnderruns := softUnderruns st;
     hardUnderruns := hardUnderruns st; rampMs := rampMs st;
     rampLen := rampLen st; rampLeft := rampLeft st; needRamp := needRamp st;
     xfFromL := xfFromL st; xfFromR := xfFromR st; xfFromM := xfFromM st;
     lastL := lastL st; lastR := lastR st; lastM := lastM st;
     reportedUnderrun := reportedUnderrun st |}.

(** The bookkeeping after a full quantum, [framesGot === frames]. *)
Definition fullQuantum (st : state) : state * list message :=
  let stable := stableBlocks st + 1 in
  let lower := (128 <=? stable) && (basePrerollQ st <? targetPrerollQ st) in
  (
   {| channels := channels st; readerOutput := readerOutput st;
      streamSR := streamSR st; basePrerollQ := basePrerollQ st;
      targetPrerollQ := (if lower then targetPrerollQ st - 1
                        else targetPrerollQ st);
      maxPrerollQ := maxPrerollQ st; primed := primed st;
      stableBlocks := (if lower then 0 else stable); softUnderruns := 0;
      hardUnderruns := hardUnderruns st; rampMs := rampMs st;
      rampLen := rampLen st; rampLeft := rampLeft st;
      needRamp := needRamp st; xfFromL := xfFromL st; xfFromR := xfFromR st;
      xfFromM := xfFromM st; lastL := lastL st; lastR := lastR st;
      lastM := lastM st; reportedUnderrun := false |},
   if reportedUnderrun st then [recovered] else []).

(** The bookkeeping after a short quantum. *)
Definition shortQuantum (st : state) : state :=
  let soft := softUnderruns st + 1 in
  let raise := (4 <=? soft) && (targetPrerollQ st <? maxPrerollQ st) in
  {| channels := channels st; readerOutput := readerOutput st;
     streamSR := streamSR st; basePrerollQ := basePrerollQ st;
     targetPrerollQ := (if raise then targetPrerollQ st + 1
                      else targetPrerollQ st);
     maxPrerollQ := maxPrerollQ st; primed := primed st; stableBlocks := 0;
     softUnderruns := (if raise then 0 else soft);
     hardUnderruns := hardUnderruns st; rampMs := rampMs st;
     rampLen := rampLen st; rampLeft := rampLeft st; needRamp := true;
     xfFromL := xfFromL st; xfFromR := xfFromR st; xfFromM := xfFromM st;
     lastL := lastL st; lastR := lastR st; lastM := lastM st;
     reportedUnderrun := reportedUnderrun st |}.

(** The priming block at the head of [process]: the processor goes on as
    it is when primed, goes on primed when the preroll is there, and stops
    at silence otherwise. *)
Definition priming (st : state) (info : read_info) : option state :=
  let needSamples := RENDER_QUANTUM_FRAMES * channels st in
  if primed st then Some st
  else if targetPrerollQ st * needSamples <=? available info
       then Some (prime st) else None.

(** [aligned]: what can be read now, cut down to whole frames. *)
Definition alignedSamples (st : state) (info : read_info) : Z :=
  let want := Z.min (len (readerOutput st)) (available info) in
  want - Z.rem want (channels st).

(** [process(_inputs, outputs)] with [out = outputs[0]]: the processor, the
    ring and the output buffers after the call, and the messages posted.
    The call always returns [true].  The ring is read as one snapshot. *)
Definition process (st : state) (rg : ring) (out : buffers)
    : state * ring * buffers * list message :=
  let ch := channels st in
  let frames := RENDER_QUANTUM_FRAMES in
  let info := getReadInfo rg in
  match priming st info with
  | None => (st, rg, fill 0 <$> out, [])
  | Some st1 =>
      let aligned := alignedSamples st1 info in
      if aligned =? 0 then
        let '(st2, msgs) := hardUnderrun st1 in
        (st2, rg, fillWithLast st1 out frames, msgs)
      else
        let '(rg', target', got) :=
          readTo rg (subarray (readerOutput st1) 0 aligned) in
        let st2 :=
          set_readerOutput st1
            (target' ++ drop (Z.to_nat aligned) (readerOutput st1)) in
        let framesGot := to_i32 (Z.quot got ch) in
        let st3 :=
          if needRamp st2 && (rampLeft st2 =? 0) then beginRamp st2 else st2 in
        let '(st4, out') :=
          if ch =? 2 then renderStereo st3 out framesGot
          else renderMono st3 out framesGot in
        let '(st5, msgs) :=
          if framesGot =? frames then fullQuantum st4
          else (shortQuantum st4, []) in
        (st5, rg', out', msgs)
  end.

(** A run of the processor: each call comes with the ring as the writer
    left it, except for the read index, which only the reader moves, and
    with the output buffers of that quantum. *)
Record call := Call {
  call_storage : list Z;
  call_writePointer : Z;
  call_out : buffers
}.

Definition ring_at (readPtr : Z) (c : call) : ring :=
  {| storage := call_storage c; writePointer := call_writePointer c;
     readPointer := readPtr |}.

(** The state, the read index, and the messages posted so far. *)
Fixpoint run (st : state) (readPtr : Z) (cs : list call)
    : state * Z * list message :=
  match cs with
  | [] => (st, readPtr, [])
  | c :: cs' =>
      let '(st', rg', _, msgs) := process st (ring_at readPtr c) (call_out c) in
      let '(st'', readPtr', msgs') := run st' (readPointer rg') cs' in
      (st'', readPtr', msgs ++ msgs')
  end.

(** What the adaptive preroll works on: the fields that neither the ramp
    nor the rendering of samples touches. *)
Definition ctrl (st : state)
    : Z * list Z * Z * Z * Z * Z * (Z * Z * bool * bool) :=
  (channels st, readerOutput st, streamSR st, basePrerollQ st,
   targetPrerollQ st, maxPrerollQ st,
   (stableBlocks st, softUnderruns st, primed st, reportedUnderrun st)).

(** The state invariant of the processor. *)
Definition wf_state (st : state) : Prop :=
  1 <= channels st /\
  len (readerOutput st) = RENDER_QUANTUM_FRAMES * channels st /\
  1 <= basePrerollQ st <= targetPrerollQ st /\
  0 <= stableBlocks st /\
  (primed st = true -> reportedUnderrun st = false).

(** Between an ['underrun'] and the next one there is a ['recovered']:
    [alternates b ms] reads the messages [ms] with [b] telling whether an
    underrun is on report. *)
Fixpoint alternates (reported : bool) (ms : list message) : Prop :=
  match ms with
  | [] => True
  | underrun :: ms' => reported = false /\ alternates true ms'
  | recovered :: ms' => reported = true /\ alternates false ms'
  end.

(** [wf] of the ring, as a test. *)
Definition wf_ring (r : ring) : bool :=
  (0 <? len (storage r)) && (len (storage r) <? 2 ^ 32)
  && (0 <=? readPointer r) && (readPointer r <? len (storage r))
  && (0 <=? writePointer r) && (writePointer r <? len (storage r)).

(** The call finds a well-formed ring from which a whole quantum comes
    out: the preroll is there if the processor is priming, and there are
    128 frames to read. *)
Definition delivers_full (st : state) (rg : ring) : bool :=
  wf_ring rg
  && (primed st
      || (targetPrerollQ st * (RENDER_QUANTUM_FRAMES * channels st)
            <=? available (getReadInfo rg)))
  && (RENDER_QUANTUM_FRAMES * channels st <=? available (getReadInfo rg)).

(** Every call of the run delivers a full quantum. *)
Fixpoint full_quanta (st : state) (readPtr : Z) (cs : list call) : bool :=
  match cs with
  | [] => true
  | c :: cs' =>
      delivers_full st (ring_at readPtr c)
      && let '(st', rg', _, _) := process st (ring_at readPtr c) (call_out c) in
         full_quanta st' (readPointer rg') cs'
  end.

(** The report flag after the messages [ms]. *)
Definition report_after (reported : bool) (ms : list message) : bool :=
  foldl (fun _ m => match m with underrun => true | recovered => false end)
        reported ms.

(** The stable-block counter and the target over full quanta: one [tick]
    per quantum, [base] being [basePrerollQ]. *)
Definition tick (base : Z) (ts : Z * Z) : Z * Z :=
  let '(target, stable) := ts in
  if (128 <=? stable + 1) && (base <? target) then (target - 1, 0)
  else (target, stable + 1).

Fixpoint ticks (base : Z) (n : nat) (ts : Z * Z) : Z * Z :=
  match n with
  | O => ts
  | S n' => ticks base n' (tick base ts)
  end.

(** *** Preroll arithmetic *)

Lemma quantaFromMs_pos ms sr : 1 <= quantaFromMs ms sr.
Proof. unfold quantaFromMs. lia. Qed.


Lemma wf_constructor sampleRate o : wf_state (constructor sampleRate o).
Proof.
  unfold wf_state, constructor, len; simpl.
  rewrite length_replicate.
  pose proof (quantaFromMs_pos).
  repeat split; try done; try lia.
  unfold RENDER_QUANTUM_FRAMES. lia.
Qed.


(** *** The three ways through [process] *)

Lemma priming_Some st info st1 :
  priming st info = Some st1 ->
  primed st1 = true /\
  (primed st = false ->
     targetPrerollQ st * (RENDER_QUANTUM_FRAMES * channels st) <= available info) /\
  st1 = (if primed st then st else prime st).
Proof.
  unfold priming. destruct (primed st) eqn:Ep.
  - intros [= <-]. done.
  - destruct (Z.leb_spec (targetPrerollQ st * (RENDER_QUANTUM_FRAMES * channels st))
                (available info)); [|done].
    intros [= <-]. done.
Qed.


Lemma process_silent st rg out :
  priming st (getReadInfo rg) = None ->
  process st rg out = (st, rg, fill 0 <$> out, []).
Proof. intros E. unfold process. by rewrite E. Qed.

Lemma process_hard st rg out st1 :
  priming st (getReadInfo rg) = Some st1 ->
  alignedSamples st1 (getReadInfo rg) = 0 ->
  process st rg out
  = ((hardUnderrun st1).1, rg, fillWithLast st1 out RENDER_QUANTUM_FRAMES,
     (hardUnderrun st1).2).
Proof. intros E Ha. unfold process. by rewrite E, Ha. Qed.

Lemma alignedSamples_bound st info :
  1 <= channels st -> 0 <= available info ->
  0 <= alignedSamples st info <= available info /\
  alignedSamples st info <= len (readerOutput st) /\
  (channels st <= Z.min (len (readerOutput st)) (available info) ->
   alignedSamples st info <> 0).
Proof.
  intros Hc Ha. unfold alignedSamples.
  set (want := Z.min (len (readerOutput st)) (available info)).
  assert (Hw : 0 <= want) by (unfold want, len; lia).
  pose proof (Z.rem_bound_pos want (channels st) Hw ltac:(lia)) as Hr.
  pose proof (Z.rem_le want (channels st) Hw ltac:(lia)) as Hle.
  repeat split; try lia.
Qed.

Ltac split_ifs :=
  repeat match goal with
         | |- context [if ?b then _ else _] => destruct b
         end.

Lemma ctrl_renderStereo st out fg : ctrl (renderStereo st out fg).1 = ctrl st.
Proof. unfold renderStereo, applyRampStereo. by destruct (0 <? rampLeft st). Qed.

Lemma ctrl_renderMono st out fg : ctrl (renderMono st out fg).1 = ctrl st.
Proof. unfold renderMono, applyRampMono. by destruct (0 <? rampLeft st). Qed.

Lemma ctrl_fullQuantum st st' :
  ctrl st = ctrl st' ->
  ctrl (fullQuantum st).1 = ctrl (fullQuantum st').1 /\
  (fullQuantum st).2 = (fullQuantum st').2.
Proof.
  unfold ctrl, fullQuantum; simpl. intros [= H1 H2 H3 H4 H5 H6 H7 H8 H9 H10].
  by rewrite ?H1, ?H2, ?H3, ?H4, ?H5, ?H6, ?H7, ?H8, ?H9, ?H10.
Qed.

Lemma ctrl_shortQuantum st st' :
  ctrl st = ctrl st' -> ctrl (shortQuantum st) = ctrl (shortQuantum st').
Proof.
  unfold ctrl, shortQuantum; simpl. intros [= H1 H2 H3 H4 H5 H6 H7 H8 H9 H10].
  by rewrite ?H1, ?H2, ?H3, ?H4, ?H5, ?H6, ?H7, ?H8, ?H9, ?H10.
Qed.

Lemma ctrl_beginRamp st : ctrl (beginRamp st) = ctrl st.
Proof. done. Qed.

Lemma to_i32_small v : - 2 ^ 31 <= v < 2 ^ 31 -> to_i32 v = v.
Proof. intros H. unfold to_i32. rewrite Z.mod_small; lia. Qed.

(** The path that reads: on a well-formed ring the read returns all the
    aligned samples, and what remains is the bookkeeping of a full or a
    short quantum. *)
Lemma process_read st rg out st1 :
  wf_state st -> wf rg ->
  priming st (getReadInfo rg) = Some st1 ->
  alignedSamples st1 (getReadInfo rg) <> 0 ->
  let aligned := alignedSamples st1 (getReadInfo rg) in
  let fg := Z.quot aligned (channels st) in
  let st2 :=
    set_readerOutput st1
      (slice (storage rg) (Z.to_nat (readPointer rg)) (Z.to_nat aligned)
         ++ drop (Z.to_nat aligned) (readerOutput st)) in
  exists st' rg' out',
    process st rg out
      = (st', rg', out', if fg =? 128 then (fullQuantum st2).2 else []) /\
    ctrl st'
      = ctrl (if fg =? 128 then (fullQuantum st2).1 else shortQuantum st2) /\
    storage rg' = storage rg /\ writePointer rg' = writePointer rg /\
    readPointer rg' = (readPointer rg + aligned) mod len (storage rg).
Proof.
  intros Hst Hrg Hp Hne aligned fg st2.
  destruct Hst as (Hc & Hl & _).
  destruct (priming_Some _ _ _ Hp) as (_ & _ & E1).
  assert (Hch : channels st1 = channels st) by (rewrite E1; by destruct (primed st)).
  assert (Hro : readerOutput st1 = readerOutput st) by (rewrite E1; by destruct (primed st)).
  destruct (available_spec _ Hrg) as [_ Hav].
  destruct (alignedSamples_bound st1 (getReadInfo rg)) as (Ha1 & Ha2 & _);
    [lia|lia|]. fold aligned in Ha1, Ha2, Hne. rewrite Hro in Ha2.
  unfold process. rewrite Hp. fold aligned.
  destruct (Z.eqb_spec aligned 0) as [|_]; [done|].
  rewrite Hro.
  assert (Hsub : len (subarray (readerOutput st) 0 aligned) = aligned).
  { unfold subarray, len in *. rewrite length_take, drop_0. lia. }
  destruct (readTo rg (subarray (readerOutput st) 0 aligned))
    as [[rg' target'] got] eqn:Er.
  destruct (readTo_spec _ _ _ _ _ Hrg Er) as (Hk & Ht & Hs & Hw & Hr).
  rewrite Hsub in Hk. assert (got = aligned) as -> by lia.
  assert (Htarget : target'
    = slice (storage rg) (Z.to_nat (readPointer rg)) (Z.to_nat aligned)).
  { rewrite Ht, drop_ge, app_nil_r; [done|]. unfold len in Hsub. lia. }
  rewrite Htarget. fold st2.
  assert (Hfg : to_i32 (Z.quot aligned (channels st)) = fg).
  { apply to_i32_small. unfold fg.
    pose proof (Z.quot_pos aligned (channels st) ltac:(lia) ltac:(lia)).
    unfold RENDER_QUANTUM_FRAMES in Hl.
    pose proof (Z.quot_le_upper_bound aligned (channels st) 128
                  ltac:(lia) ltac:(lia)).
    lia. }
  rewrite Hfg.
  set (st3 := if needRamp st2 && (rampLeft st2 =? 0) then beginRamp st2 else st2).
  assert (H3 : ctrl st3 = ctrl st2) by (unfold st3; by destruct (_ && _)).
  destruct (if channels st =? 2 then renderStereo st3 out fg
            else renderMono st3 out fg) as [st4 out'] eqn:E4.
  assert (H4 : ctrl st4 = ctrl st2).
  { rewrite <- H3. destruct (channels st =? 2).
    - rewrite <- (ctrl_renderStereo st3 out fg). by rewrite E4.
    - rewrite <- (ctrl_renderMono st3 out fg). by rewrite E4. }
  change RENDER_QUANTUM_FRAMES with 128.
  destruct (ctrl_fullQuantum _ _ H4) as [H5 H6].
  pose proof (ctrl_shortQuantum _ _ H4) as H7.
  destruct (fg =? 128).
  - destruct (fullQuantum st4) as [st5 msgs] eqn:E5. simpl in H5, H6.
    exists st5, rg', out'. rewrite H6. done.
  - by exists (shortQuantum st4), rg', out'.
Qed.

Lemma wf_ring_spec r : wf_ring r = true <-> wf r.
Proof.
  unfold wf_ring, wf. rewrite !andb_true_iff.
  rewrite !Z.ltb_lt, !Z.leb_le. tauto.
Qed.

Lemma aligned_full st info :
  1 <= channels st ->
  len (readerOutput st) = RENDER_QUANTUM_FRAMES * channels st ->
  RENDER_QUANTUM_FRAMES * channels st <= available info ->
  alignedSamples st info = 128 * channels st.
Proof.
  intros Hc Hl Ha. unfold alignedSamples. rewrite Hl, Z.min_l by done.
  unfold RENDER_QUANTUM_FRAMES. rewrite Z.rem_mul by lia. lia.
Qed.

Lemma wf_state_ctrl st st' : ctrl st = ctrl st' -> wf_state st -> wf_state st'.
Proof.
  unfold ctrl, wf_state. intros [= H1 H2 H3 H4 H5 H6 H7 H8 H9 H10].
  by rewrite H1, H2, H4, H5, H7, H9, H10.
Qed.

Lemma priming_keeps st info st1 :
  priming st info = Some st1 ->
  channels st1 = channels st /\ readerOutput st1 = readerOutput st /\
  basePrerollQ st1 = basePrerollQ st /\ targetPrerollQ st1 = targetPrerollQ st /\
  maxPrerollQ st1 = maxPrerollQ st /\
  reportedUnderrun st1 = reportedUnderrun st /\
  stableBlocks st1 = (if primed st then stableBlocks st else 0).
Proof.
  intros H. destruct (priming_Some _ _ _ H) as (_ & _ & ->).
  by destruct (primed st).
Qed.

(** A call that delivers a full quantum: the whole quantum is read, and
    the bookkeeping is that of [fullQuantum]. *)
Lemma process_full st rg out :
  wf_state st -> delivers_full st rg = true ->
  exists st1 st' rg' out',
    priming st (getReadInfo rg) = Some st1 /\
    let st2 :=
      set_readerOutput st1
        (slice (storage rg) (Z.to_nat (readPointer rg))
           (Z.to_nat (128 * channels st))) in
    process st rg out = (st', rg', out', (fullQuantum st2).2) /\
    ctrl st' = ctrl (fullQuantum st2).1 /\
    storage rg' = storage rg /\ writePointer rg' = writePointer rg /\
    readPointer rg' = (readPointer rg + 128 * channels st) mod len (storage rg).
Proof.
  intros Hst Hd. unfold delivers_full in Hd.
  apply andb_true_iff in Hd as [Hd Hfull]. apply andb_true_iff in Hd as [Hrg Hpre].
  apply wf_ring_spec in Hrg. apply Z.leb_le in Hfull.
  assert (Hp : exists st1, priming st (getReadInfo rg) = Some st1).
  { unfold priming. destruct (primed st); [by eexists|].
    rewrite orb_false_l in Hpre. rewrite Hpre. by eexists. }
  destruct Hp as [st1 Hp]. exists st1.
  destruct (priming_keeps _ _ _ Hp) as (Hc1 & Hr1 & _).
  pose proof Hst as (Hc & Hl & _).
  assert (Ha : alignedSamples st1 (getReadInfo rg) = 128 * channels st).
  { rewrite <- Hc1. apply aligned_full; rewrite ?Hc1, ?Hr1; done. }
  destruct (process_read st rg out st1 Hst Hrg Hp) as (st' & rg' & out' & H).
  { rewrite Ha. lia. }
  rewrite Ha in H.
  replace (drop (Z.to_nat (128 * channels st)) (readerOutput st))
    with (@nil Z) in H.
  2:{ symmetry. apply drop_ge. unfold len, RENDER_QUANTUM_FRAMES in Hl. lia. }
  rewrite app_nil_r in H.
  replace (Z.quot (128 * channels st) (channels st)) with 128 in H
    by (rewrite Z.quot_mul; lia).
  simpl in H. by exists st', rg', out'.
Qed.

Lemma wf_fullQuantum st :
  1 <= channels st ->
  len (readerOutput st) = RENDER_QUANTUM_FRAMES * channels st ->
  1 <= basePrerollQ st <= targetPrerollQ st -> 0 <= stableBlocks st ->
  wf_state (fullQuantum st).1.
Proof.
  intros Hc Hl Hb Hs. unfold wf_state, fullQuantum; simpl.
  repeat split; try done; try lia.
  - destruct (_ && _) eqn:E; [|lia].
    apply andb_true_iff in E as [_ E]. apply Z.ltb_lt in E. lia.
  - destruct (_ && _); lia.
Qed.

Lemma wf_shortQuantum st :
  1 <= channels st ->
  len (readerOutput st) = RENDER_QUANTUM_FRAMES * channels st ->
  1 <= basePrerollQ st <= targetPrerollQ st ->
  reportedUnderrun st = false ->
  wf_state (shortQuantum st).
Proof.
  intros Hc Hl Hb Hu. unfold wf_state, shortQuantum; simpl.
  repeat split; try done; try lia.
  destruct (_ && _); lia.
Qed.

Lemma wf_process st rg out :
  wf_state st -> wf rg -> wf_state (process st rg out).1.1.1.
Proof.
  intros Hst Hrg.
  destruct (priming st (getReadInfo rg)) as [st1|] eqn:Hp.
  2:{ by rewrite process_silent. }
  destruct (priming_Some _ _ _ Hp) as (Hprimed & Hthr & _).
  destruct (priming_keeps _ _ _ Hp) as (Hc1 & Hr1 & Hb1 & Ht1 & Hm1 & Hu1 & Hs1).
  pose proof Hst as (Hc & Hl & Hb & Hs & Hu).
  destruct (Z.eq_dec (alignedSamples st1 (getReadInfo rg)) 0) as [Ha|Ha].
  - rewrite (process_hard _ _ _ _ Hp Ha).
    unfold wf_state, hardUnderrun; simpl.
    rewrite Hc1, Hr1, Hb1, Ht1.
    repeat split; try done; try lia.
    destruct (targetPrerollQ st <? maxPrerollQ st1); lia.
  - destruct (process_read st rg out st1 Hst Hrg Hp Ha)
      as (st' & rg' & out' & -> & Hctrl & _). simpl.
    destruct (available_spec _ Hrg) as [_ Hav].
    destruct (alignedSamples_bound st1 (getReadInfo rg)) as (Ha1 & Ha2 & _);
      [lia|lia|].
    set (aligned := alignedSamples st1 (getReadInfo rg)) in *.
    set (st2 := set_readerOutput st1 _) in Hctrl.
    assert (Hc2 : channels st2 = channels st) by done.
    assert (Hl2 : len (readerOutput st2) = RENDER_QUANTUM_FRAMES * channels st).
    { unfold st2, len in *; simpl.
      rewrite length_app, length_slice, length_drop. rewrite Hr1 in Ha2. lia. }
    assert (Hb2 : basePrerollQ st2 = basePrerollQ st) by done.
    assert (Ht2 : targetPrerollQ st2 = targetPrerollQ st) by done.
    assert (Hs2 : 0 <= stableBlocks st2).
    { unfold st2; simpl. rewrite Hs1. destruct (primed st); lia. }
    assert (Hu2 : reportedUnderrun st2 = reportedUnderrun st) by done.
    apply (wf_state_ctrl _ _ (eq_sym Hctrl)).
    destruct (Z.eqb_spec (Z.quot aligned (channels st)) 128) as [Efg|Efg].
    + apply wf_fullQuantum; rewrite ?Hc2, ?Hb2, ?Ht2; done.
    + apply wf_shortQuantum; rewrite ?Hc2, ?Hb2, ?Ht2, ?Hu2; try done.
      destruct (primed st) eqn:Ep; [by apply Hu|].
      exfalso. apply Efg. specialize (Hthr eq_refl).
      unfold aligned. rewrite <- Hc1 at 1.
      rewrite aligned_full; rewrite ?Hc1, ?Hr1; try done.
      * rewrite Z.quot_mul; lia.
      * unfold RENDER_QUANTUM_FRAMES in *. nia.
Qed.

(** *** The messages posted *)

Lemma render_ctrl ch st out fg st4 out' :
  (if ch =? 2 then renderStereo st out fg else renderMono st out fg)
    = (st4, out') ->
  ctrl st4 = ctrl st.
Proof.
  destruct (ch =? 2); intros E.
  - rewrite <- (ctrl_renderStereo st out fg). by rewrite E.
  - rewrite <- (ctrl_renderMono st out fg). by rewrite E.
Qed.

Lemma process_report st rg out :
  alternates (reportedUnderrun st) (process st rg out).2 /\
  reportedUnderrun (process st rg out).1.1.1
    = report_after (reportedUnderrun st) (process st rg out).2.
Proof.
  unfold process.
  destruct (priming st (getReadInfo rg)) as [st1|] eqn:Hp; [|done].
  destruct (priming_keeps _ _ _ Hp) as (_ & _ & _ & _ & _ & Hu1 & _).
  destruct (alignedSamples st1 (getReadInfo rg) =? 0).
  - simpl. rewrite Hu1. by destruct (reportedUnderrun st).
  - destruct (readTo rg _) as [[rg' target'] got].
    set (st2 := set_readerOutput st1 _).
    set (st3 := if needRamp st2 && (rampLeft st2 =? 0) then beginRamp st2 else st2).
    assert (H3 : ctrl st3 = ctrl st2) by (unfold st3; by destruct (_ && _)).
    destruct (if channels st =? 2 then _ else _) as [st4 out'] eqn:E4.
    apply render_ctrl in E4. rewrite H3 in E4.
    assert (Hu4 : reportedUnderrun st4 = reportedUnderrun st).
    { rewrite <- Hu1. unfold ctrl in E4. by injection E4. }
    destruct (_ =? RENDER_QUANTUM_FRAMES); simpl; [|done].
    rewrite Hu4. by destruct (reportedUnderrun st).
Qed.

Lemma alternates_app b ms ms' :
  alternates b ms -> alternates (report_after b ms) ms' ->
  alternates b (ms ++ ms').
Proof.
  revert b; induction ms as [|m ms IH]; intros b; simpl; [done|].
  destruct m; intros [-> H] H'; (split; [done|]); by apply IH.
Qed.

Lemma report_after_app b ms ms' :
  report_after b (ms ++ ms') = report_after (report_after b ms) ms'.
Proof. unfold report_after. by rewrite foldl_app. Qed.

Lemma run_report cs : forall st rp,
  alternates (reportedUnderrun st) (run st rp cs).2 /\
  reportedUnderrun (run st rp cs).1.1
    = report_after (reportedUnderrun st) (run st rp cs).2.
Proof.
  induction cs as [|c cs IH]; intros st rp; simpl; [done|].
  destruct (process_report st (ring_at rp c) (call_out c)) as [Ha Hr].
  destruct (process st (ring_at rp c) (call_out c)) as [[[st' rg'] out'] ms].
  simpl in Ha, Hr.
  destruct (IH st' (readPointer rg')) as [Ha' Hr'].
  destruct (run st' (readPointer rg') cs) as [[st'' rp'] ms']. simpl in *.
  rewrite report_after_app, <- Hr. split; [|done].
  apply alternates_app; [done|]. by rewrite <- Hr.
Qed.

(** *** Full quanta and the lowering of the target *)

Lemma ticks_below base n : forall t s,
  s + Z.of_nat n < 128 -> ticks base n (t, s) = (t, s + Z.of_nat n).
Proof.
  induction n as [|n IH]; intros t s Hlt; simpl.
  - f_equal; lia.
  - destruct (Z.leb_spec 128 (s + 1)) as [|_]; [lia|]. simpl.
    rewrite IH by lia. f_equal; lia.
Qed.

Lemma ticks_lower base n : forall t s,
  0 <= s -> base < t -> (1 <= n <= 128)%nat -> 128 <= s + Z.of_nat n ->
  (ticks base n (t, s)).1 = t - 1.
Proof.
  induction n as [|n IH]; intros t s Hs Hb Hn Hge; [lia|].
  simpl. destruct (Z.leb_spec 128 (s + 1)) as [Hhit|Hnot].
  - destruct (Z.ltb_spec base t) as [_|]; [|lia]. simpl.
    by rewrite ticks_below by lia.
  - simpl. apply IH; lia.
Qed.

Lemma process_full_tick st rg out :
  wf_state st -> delivers_full st rg = true ->
  let st' := (process st rg out).1.1.1 in
  wf_state st' /\ primed st' = true /\
  basePrerollQ st' = basePrerollQ st /\
  channels st' = channels st /\
  (targetPrerollQ st', stableBlocks st')
    = tick (basePrerollQ st)
        (targetPrerollQ st, if primed st then stableBlocks st else 0).
Proof.
  intros Hst Hd.
  destruct (process_full st rg out Hst Hd)
    as (st1 & st' & rg' & out' & Hp & Hproc & Hctrl & _).
  rewrite Hproc. simpl.
  destruct (priming_Some _ _ _ Hp) as (Hprimed & _ & _).
  destruct (priming_keeps _ _ _ Hp) as (Hc1 & Hr1 & Hb1 & Ht1 & Hm1 & Hu1 & Hs1).
  split.
  { apply Is_true_true, andb_prop_elim in Hd as [Hd _].
    apply andb_prop_elim in Hd as [Hrg _]. apply Is_true_true, wf_ring_spec in Hrg.
    pose proof (wf_process st rg out Hst Hrg) as H. by rewrite Hproc in H. }
  unfold ctrl in Hctrl. simpl in Hctrl.
  injection Hctrl as E1 _ _ E4 E5 _ E7 _ E9 _.
  rewrite E9, E4, E1, E5, E7, Hprimed, Hb1, Ht1, Hs1, Hc1. unfold tick.
  do 3 (split; [done|]).
  set (b := _ && _). by destruct b.
Qed.

Lemma run_full_ticks cs : forall st rp,
  wf_state st -> primed st = true -> full_quanta st rp cs = true ->
  let st' := (run st rp cs).1.1 in
  wf_state st' /\ primed st' = true /\
  basePrerollQ st' = basePrerollQ st /\
  (targetPrerollQ st', stableBlocks st')
    = ticks (basePrerollQ st) (length cs) (targetPrerollQ st, stableBlocks st).
Proof.
  induction cs as [|c cs IH]; intros st rp Hst Hp Hf; simpl in *; [done|].
  apply andb_true_iff in Hf as [Hd Hf].
  destruct (process_full_tick st (ring_at rp c) (call_out c) Hst Hd)
    as (Hst' & Hp' & Hb' & _ & Ht').
  destruct (process st (ring_at rp c) (call_out c)) as [[[st' rg'] out'] ms].
  simpl in *. rewrite Hp in Ht'.
  destruct (IH st' (readPointer rg') Hst' Hp' Hf) as (H1 & H2 & H3 & H4).
  destruct (run st' (readPointer rg') cs) as [[st'' rp'] ms']. simpl in *.
  rewrite H4, H3, Hb', Ht'. done.
Qed.

Lemma run_cons_state st rp c cs :
  (run st rp (c :: cs)).1.1
  = (run (process st (ring_at rp c) (call_out c)).1.1.1
         (readPointer (process st (ring_at rp c) (call_out c)).1.1.2) cs).1.1.
Proof.
  simpl. destruct (process _ _ _) as [[[st' rg'] out'] ms]. simpl.
  by destruct (run _ _ _) as [[st'' rp'] ms'].
Qed.

Lemma full_quanta_cons st rp c cs :
  full_quanta st rp (c :: cs)
  = delivers_full st (ring_at rp c)
    && full_quanta (process st (ring_at rp c) (call_out c)).1.1.1
         (readPointer (process st (ring_at rp c) (call_out c)).1.1.2) cs.
Proof. simpl. by destruct (process _ _ _) as [[[st' rg'] out'] ms]. Qed.

(** 128 full quanta in a row lower a target that is above the base by
    exactly one, whatever the stable-block count was before. *)
Lemma full_quanta_lower sb rpb csb :
  wf_state sb -> basePrerollQ sb < targetPrerollQ sb ->
  length csb = 128%nat -> full_quanta sb rpb csb = true ->
  targetPrerollQ (run sb rpb csb).1.1 = targetPrerollQ sb - 1.
Proof.
  intros Hsb Hlt Hl Hf. destruct csb as [|c csb]; [done|].
  rewrite full_quanta_cons in Hf. apply andb_true_iff in Hf as [Hd Hf].
  rewrite run_cons_state.
  destruct (process_full_tick sb (ring_at rpb c) (call_out c) Hsb Hd)
    as (Hsb' & Hp' & Hb' & _ & Ht').
  set (sb' := (process sb (ring_at rpb c) (call_out c)).1.1.1) in *.
  set (rp' := readPointer (process sb (ring_at rpb c) (call_out c)).1.1.2) in *.
  destruct (run_full_ticks csb sb' rp' Hsb' Hp' Hf) as (_ & _ & _ & Ht'').
  rewrite Ht', Hb' in Ht''.
  pose proof (ticks_lower (basePrerollQ sb) (S (length csb))
                (targetPrerollQ sb)
                (if primed sb then stableBlocks sb else 0)) as Hlow.
  change (ticks (basePrerollQ sb) (S (length csb)) ?x)
    with (ticks (basePrerollQ sb) (length csb) (tick (basePrerollQ sb) x)) in Hlow.
  rewrite <- Ht'' in Hlow.
  destruct Hsb as (_ & _ & _ & ? & _). simpl in Hl.
  apply Hlow; destruct (primed sb); lia.
Qed.

(** *** The claims on the worklet *)


Definition default_options : processorOptions :=
  {| opt_channels := Some 1; opt_streamSampleRate := None;
     opt_prerollMs := None; opt_maxPrerollMs := None; opt_rampMs := None |}.

Definition sample_storage : list Z := Z.of_nat <$> seq 0 1000.


(** C2, as amended.  In a primed processor, a call that finds no
    channel-aligned sample raises targetPrerollQ by exactly 1 when it is
    below maxPrerollQ and leaves it as it is otherwise, puts the processor
    back to priming and posts one 'underrun'; from then on no second
    'underrun' is posted before a 'recovered'.  From any state with
    target > base, 128 calls in a row that each deliver a full quantum
    lower the target by exactly 1.  So from base = target = 3 below the
    maximum, the underrun gives 4 and the 128 full quanta give 3 again. *)
Theorem adaptive_preroll (st : state) (rg : ring) (out : buffers)
    (rp : Z) (cs : list call) :
  wf_state st -> wf rg -> primed st = true ->
  alignedSamples st (getReadInfo rg) = 0 ->
  length cs = 128%nat ->
  let st1 := (process st rg out).1.1.1 in
  full_quanta st1 rp cs = true ->
  process st rg out = (st1, rg, fillWithLast st out 128, [underrun]) /\
  targetPrerollQ st1
    = (if targetPrerollQ st <? maxPrerollQ st
       then targetPrerollQ st + 1 else targetPrerollQ st) /\
  primed st1 = false /\
  (forall rp' cs', alternates true (run st1 rp' cs').2) /\
  (forall sb rpb csb,
     wf_state sb -> basePrerollQ sb < targetPrerollQ sb ->
     length csb = 128%nat -> full_quanta sb rpb csb = true ->
     targetPrerollQ (run sb rpb csb).1.1 = targetPrerollQ sb - 1) /\
  (basePrerollQ st = 3 -> targetPrerollQ st = 3 -> 3 < maxPrerollQ st ->
     targetPrerollQ st1 = 4 /\ targetPrerollQ (run st1 rp cs).1.1 = 3).
Proof.
  intros Hst Hrg Hp Ha Hlen st1 Hfull.
  assert (Hprim : priming st (getReadInfo rg) = Some st)
    by (unfold priming; by rewrite Hp).
  pose proof (process_hard st rg out st Hprim Ha) as Hproc.
  assert (Hu : reportedUnderrun st = false) by (by apply Hst).
  assert (E1 : st1 = (hardUnderrun st).1) by (unfold st1; by rewrite Hproc).
  pose proof full_quanta_lower as Hb.
  split; [|split; [|split; [|split; [|split]]]].
  - rewrite Hproc, E1. unfold hardUnderrun; simpl. by rewrite Hu.
  - by rewrite E1.
  - by rewrite E1.
  - intros rp' cs'. destruct (run_report cs' st1 rp') as [H _].
    assert (Hr1 : reportedUnderrun st1 = true) by (by rewrite E1).
    by rewrite Hr1 in H.
  - exact Hb.
  - intros H3 Ht Hm.
    assert (Ht1 : targetPrerollQ st1 = 4).
    { rewrite E1; simpl. rewrite Ht.
      destruct (Z.ltb_spec 3 (maxPrerollQ st)); lia. }
    split; [done|].
    rewrite (Hb st1 rp cs); try done; [lia| |].
    + pose proof (wf_process st rg out Hst Hrg) as H. by fold st1 in H.
    + rewrite Ht1, E1; simpl. lia.
Qed.

(** The processor of the examples: mono at 48 kHz with the built-in
    durations, primed by a first call that finds 600 samples. *)
Definition primed_example : state :=
  (process (constructor 48000 default_options)
     {| storage := sample_storage; writePointer := 600; readPointer := 0 |}
     [replicate 128 0%Q]).1.1.1.

(** 128 calls, the writer staying 600 samples ahead of the reader. *)
Definition full_calls (readPtr : Z) : list call :=
  (fun i => {| call_storage := sample_storage;
               call_writePointer := (readPtr + 600 + 128 * Z.of_nat i) mod 1000;
               call_out := [replicate 128 0%Q] |}) <$> seq 0 128.

Lemma adaptive_preroll_witness :
  targetPrerollQ primed_example = 3 /\
  targetPrerollQ
    (process primed_example
       {| storage := sample_storage; writePointer := 128; readPointer := 128 |}
       [replicate 128 0%Q]).1.1.1 = 4 /\
  targetPrerollQ
    (run (process primed_example
            {| storage := sample_storage; writePointer := 128; readPointer := 128 |}
            [replicate 128 0%Q]).1.1.1 128 (full_calls 128)).1.1 = 3.
Proof.
  assert (Hrg0 : wf {| storage := sample_storage; writePointer := 600;
                       readPointer := 0 |}) by (by apply wf_ring_spec).
  assert (Hrg : wf {| storage := sample_storage; writePointer := 128;
                      readPointer := 128 |}) by (by apply wf_ring_spec).
  assert (Hst : wf_state primed_example)
    by (apply wf_process; [apply wf_constructor|exact Hrg0]).
  assert (Hfull : full_quanta
            (process primed_example
               {| storage := sample_storage; writePointer := 128;
                  readPointer := 128 |} [replicate 128 0%Q]).1.1.1
            128 (full_calls 128) = true) by (vm_compute; reflexivity).
  destruct (adaptive_preroll primed_example _ [replicate 128 0%Q] 128
              (full_calls 128) Hst Hrg eq_refl eq_refl eq_refl Hfull)
    as (_ & _ & _ & _ & _ & Hscenario).
  split; [reflexivity|].
  apply Hscenario; reflexivity.
Defined.

(** C2 as it was stated fails where the target is above the maximum: with
    prerollMs = 100 and the built-in maxPrerollMs = 40 at 16 kHz the target
    is 13 and the maximum 5, and a hard underrun leaves the target at 13. *)
Lemma hard_underrun_above_max :
  let st :=
    (process
       (constructor 16000
          {| opt_channels := Some 1; opt_streamSampleRate := None;
             opt_prerollMs := Some 100; opt_maxPrerollMs := None;
             opt_rampMs := None |})
       {| storage := replicate 2000 0; writePointer := 1700; readPointer := 0 |}
       [replicate 128 0%Q]).1.1.1 in
  let rg := {| storage := replicate 2000 0; writePointer := 128;
               readPointer := 128 |} in
  let st1 := (process st rg [replicate 128 0%Q]).1.1.1 in
  primed st = true /\ alignedSamples st (getReadInfo rg) = 0 /\
  maxPrerollQ st = 5 /\ targetPrerollQ st = 13 /\
  ~ (targetPrerollQ st <> maxPrerollQ st ->
     targetPrerollQ st1 = targetPrerollQ st + 1).
Proof.
  vm_compute. repeat split; try reflexivity.
  intros H. discriminate H. discriminate.
Qed.

(** C9.  Without a rampMs option the ramp lasts 8 ms, not 5: the length
    set by [beginRamp] is max(1, floor(streamSR * 8 / 1000)), which is 384
    samples at 48 kHz where 5 ms would be 240. *)
Theorem default_ramp_length (sampleRate : Z) (o : processorOptions) :
  opt_rampMs o = None ->
  let st := constructor sampleRate o in
  rampMs st = 8 /\
  rampLen (beginRamp st) = Z.max 1 (streamSR st * 8 / 1000).
Proof. intros Ho. unfold constructor, beginRamp; simpl. by rewrite Ho. Qed.

Lemma default_ramp_length_48k :
  opt_rampMs default_options = None /\
  rampLen (beginRamp (constructor 48000 default_options)) = 384 /\
  rampLen (beginRamp (constructor 48000 default_options))
    <> Z.max 1 (48000 * 5 / 1000).
Proof.
  split; [reflexivity|].
  destruct (default_ramp_length 48000 default_options eq_refl) as [_ H].
  split; [exact H|]. rewrite H. discriminate.
Defined.

End PCMWorkletProcessor.

(** ** The dongle messages the session handlers look at

    The message classes live in main/carplay/messages, which is not among
    the sources; what the handlers read of them is kept. *)
Module Messages.

(** [AudioCommand]: the four commands the handlers name, the navigation
    start, and the rest of the enum by value. *)
Inductive AudioCommand :=
| AudioSiriStart
| AudioSiriStop
| AudioPhonecallStart
| AudioPhonecallStop
| AudioNaviStart
| AudioCommandOther (value : Z).

(** [AudioData]: [command] and [data] are optional fields; [data] stands
    for the bytes of [msg.data.buffer]. *)
Record AudioData := {
  decodeType : Z;
  audioType : Z;
  command : option AudioCommand;
  data : option (list Byte.byte)
}.

Inductive Message :=
| Plugged (phoneType : Z)
| Unplugged
| VideoData (width height : Z) (data : option (list Byte.byte))
| Audio (a : AudioData)
| MediaData (payload : bool)
| Command (value : Z)
| OtherMessage.

(** The values of [SendCommand] the session sends by itself. *)
Inductive CommandValue := wifiPair | frame.

End Messages.

(** ** src/main/carplay/node/Microphone.ts *)
Module Microphone.

(** [os.platform()], with whether SoX's [rec] is found on macOS. *)
Inductive platform := linux | darwin (recPath : bool) | unsupported.

(** [process] is the recorder child process, [true] when not null. *)
Record t := { process : bool }.

Definition create : t := {| process := false |}.

Definition stop (m : t) : t := {| process := false |}.

(** [start]: stop what runs, then spawn the recorder of the platform. *)
Definition start (os : platform) (m : t) : t :=
  let m := stop m in
  match os with
  | linux => {| process := true |}
  | darwin true => {| process := true |}
  | darwin false => m
  | unsupported => m
  end.


End Microphone.

(** ** The timers of the host: [setTimeout], [setInterval], [clearTimeout] *)
Module Timers.
Import Messages.

(** A pending timer: its handle, its delay, whether it repeats, and the
    command its callback sends to the driver. *)
Record timer := {
  handle : nat;
  delay : Z;
  repeats : bool;
  sends : CommandValue
}.

Record queue := { pending : list timer; next_handle : nat }.

Definition empty : queue := {| pending := []; next_handle := 1 |}.

Definition set (q : queue) (d : Z) (rep : bool) (c : CommandValue) : queue * nat :=
  ({| pending := pending q ++
        [{| handle := next_handle q; delay := d; repeats := rep; sends := c |}];
      next_handle := S (next_handle q) |}, next_handle q).

(** [clearTimeout(h)] and [clearInterval(h)]. *)
Definition clear (q : queue) (h : nat) : queue :=
  {| pending := filter (fun t => handle t <> h) (pending q);
     next_handle := next_handle q |}.

(** The timer [h] comes due: its callback runs if it is still pending, and
    a one-shot timer is gone after that. *)
Definition fire (q : queue) (h : nat) : queue * list CommandValue :=
  match filter (fun t => handle t = h) (pending q) with
  | [] => (q, [])
  | t :: _ =>
      (if repeats t then q else clear q h, [sends t])
  end.

End Timers.

(** ** The session service of the main process (CarplayService) *)
Module CarplayService.
Import Messages.

(** What the service finds around it when it starts: the platform, the
    [audioTransferMode] of config.json if the file gives one, and whether
    a dongle is on the bus. *)
Record host := {
  os : Microphone.platform;
  userConfig : option bool;
  device_present : bool
}.

Inductive channel := carplay_video_chunk | carplay_audio_chunk.

(** The envelope [sendChunked] sends; the random [id] is left out.
    [extra] is the spread message of the audio chunks. *)
Record envelope := {
  offset : Z;
  total : Z;
  isLast : bool;
  chunk : list Byte.byte;
  extra : option AudioData
}.

Section Service.

(** [decodeTypeMap] of the messages module: the audio format of a decode
    type, if it is known. *)
Context {meta : Type} (decodeTypeMap : Z -> option meta).

Inductive carplay_event :=
| ev_plugged
| ev_unplugged
| ev_resolution (width height : Z)
| ev_audioInfo (m : meta)
| ev_media
| ev_command (value : Z).

(** What a handler does to the world outside the service. *)
Inductive effect :=
| web_send (e : carplay_event)
| web_chunk (c : channel) (env : envelope)
| driver_send (c : CommandValue)
| driver_close
| mic_start
| mic_stop
| open_device
| write_media_file.

Record service := {
  webContents : bool;
  audioTransferMode : bool;
  webUsbDevice : bool;
  pairTimeout : option nat;
  frameInterval : option nat;
  _mic : option Microphone.t;
  started : bool;
  stopping : bool;
  shuttingDown : bool;
  audioInfoSent : bool;
  isStarting : bool;
  isStopping : bool;
  firstFrameLogged : bool;
  timers : Timers.queue
}.

(** The service as constructed: [DEFAULT_CONFIG] has audio enabled. *)
Definition create : service :=
  {| webContents := false; audioTransferMode := false; webUsbDevice := false;
     pairTimeout := None; frameInterval := None; _mic := None;
     started := false; stopping := false; shuttingDown := false;
     audioInfoSent := false; isStarting := false; isStopping := false;
     firstFrameLogged := false; timers := Timers.empty |}.

Definition attachRenderer (s : service) : service :=
  {| webContents := true; audioTransferMode := audioTransferMode s;
     webUsbDevice := webUsbDevice s; pairTimeout := pairTimeout s;
     frameInterval := frameInterval s; _mic := _mic s; started := started s;
     stopping := stopping s; shuttingDown := shuttingDown s;
     audioInfoSent := audioInfoSent s; isStarting := isStarting s;
     isStopping := isStopping s; firstFrameLogged := firstFrameLogged s;
     timers := timers s |}.

Definition clearTimeouts (s : service) : service :=
  let q1 := match pairTimeout s with
            | Some h => Timers.clear (timers s) h
            | None => timers s
            end in
  let q2 := match frameInterval s with
            | Some h => Timers.clear q1 h
            | None => q1
            end in
  {| webContents := webContents s; audioTransferMode := audioTransferMode s;
     webUsbDevice := webUsbDevice s; pairTimeout := None;
     frameInterval := None; _mic := _mic s; started := started s;
     stopping := stopping s; shuttingDown := shuttingDown s;
     audioInfoSent := audioInfoSent s; isStarting := isStarting s;
     isStopping := isStopping s; firstFrameLogged := firstFrameLogged s;
     timers := q2 |}.

(** The loop of [sendChunked]; [fuel] bounds the number of rounds. *)
Fixpoint sendChunked_loop (fuel : nat) (c : channel) (data : list Byte.byte)
    (off tot chunkSize : Z) (ex : option AudioData) : list effect :=
  match fuel with
  | O => []
  | S fuel' =>
      if off <? tot then
        let e := Z.min (off + chunkSize) tot in
        web_chunk c {| offset := off; total := tot; isLast := tot <=? e;
                       chunk := subarray data off e; extra := ex |}
          :: sendChunked_loop fuel' c data e tot chunkSize ex
      else []
  end.

(** [sendChunked(channel, data, chunkSize, extra)]; every round moves on by
    at least one byte when [chunkSize] is positive, so [byteLength] rounds
    are enough. *)
Definition sendChunked (s : service) (c : channel) (data : option (list Byte.byte))
    (chunkSize : Z) (ex : option AudioData) : list effect :=
  match data with
  | Some d =>
      if webContents s
      then sendChunked_loop (length d) c d 0 (len d) chunkSize ex
      else []
  | None => []
  end.

(** [start()] up to its first [await]. *)
Definition start_begin (h : host) (s : service) : service * list effect :=
  if started s then (s, [])
  else if isStarting s then (s, [])
  else
    let cfg := default (audioTransferMode s) (userConfig h) in
    if device_present h then
      (
       {| webContents := webContents s; audioTransferMode := cfg;
          webUsbDevice := webUsbDevice s; pairTimeout := pairTimeout s;
          frameInterval := frameInterval s; _mic := _mic s;
          started := started s; stopping := stopping s;
          shuttingDown := shuttingDown s; audioInfoSent := audioInfoSent s;
          isStarting := true; isStopping := isStopping s;
          firstFrameLogged := firstFrameLogged s; timers := timers s |},
       [open_device])
    else
      (
       {| webContents := webContents s; audioTransferMode := cfg;
          webUsbDevice := webUsbDevice s; pairTimeout := pairTimeout s;
          frameInterval := frameInterval s; _mic := _mic s;
          started := started s; stopping := stopping s;
          shuttingDown := shuttingDown s; audioInfoSent := audioInfoSent s;
          isStarting := false; isStopping := isStopping s;
          firstFrameLogged := firstFrameLogged s; timers := timers s |},
       []).

(** The rest of [start()]: [ok] tells whether opening the device and
    [driver.initialise] and [driver.start] went through. *)
Definition start_finish (ok : bool) (s : service) : service :=
  if ok then
    let '(q, h) := Timers.set (timers s) 15000 false wifiPair in
    {| webContents := webContents s;
       audioTransferMode := audioTransferMode s; webUsbDevice := true;
       pairTimeout := Some h; frameInterval := frameInterval s;
       _mic := _mic s; started := true; stopping := stopping s;
       shuttingDown := shuttingDown s; audioInfoSent := false;
       isStarting := false; isStopping := isStopping s;
       firstFrameLogged := false; timers := q |}
  else
    {| webContents := webContents s;
       audioTransferMode := audioTransferMode s; webUsbDevice := false;
       pairTimeout := pairTimeout s; frameInterval := frameInterval s;
       _mic := _mic s; started := false; stopping := stopping s;
       shuttingDown := shuttingDown s; audioInfoSent := audioInfoSent s;
       isStarting := false; isStopping := isStopping s;
       firstFrameLogged := firstFrameLogged s; timers := timers s |}.

(** [stop()] up to its first [await]. *)
Definition stop_begin (s : service) : service * list effect :=
  if isStopping s then (s, [])
  else if negb (started s) || stopping s then (s, [])
  else
    let s1 := clearTimeouts s in
    (
     {| webContents := webContents s1;
        audioTransferMode := audioTransferMode s1;
        webUsbDevice := webUsbDevice s1; pairTimeout := pairTimeout s1;
        frameInterval := frameInterval s1; _mic := _mic s1;
        started := started s1; stopping := true;
        shuttingDown := shuttingDown s1; audioInfoSent := audioInfoSent s1;
        isStarting := isStarting s1; isStopping := true;
        firstFrameLogged := firstFrameLogged s1; timers := timers s1 |},
     [driver_close]).

(** The rest of [stop()]. *)
Definition stop_finish (s : service) : service * list effect :=
  (
   {| webContents := webContents s; audioTransferMode := audioTransferMode s;
      webUsbDevice := false; pairTimeout := pairTimeout s;
      frameInterval := frameInterval s; _mic := Microphone.stop <$> _mic s;
      started := false; stopping := false; shuttingDown := shuttingDown s;
      audioInfoSent := false; isStarting := isStarting s;
      isStopping := false; firstFrameLogged := false; timers := timers s |},
   if _mic s is Some _ then [mic_stop] else []).

Definition set_audioInfoSent (s : service) : service :=
  {| webContents := webContents s; audioTransferMode := audioTransferMode s;
     webUsbDevice := webUsbDevice s; pairTimeout := pairTimeout s;
     frameInterval := frameInterval s; _mic := _mic s; started := started s;
     stopping := stopping s; shuttingDown := shuttingDown s;
     audioInfoSent := true; isStarting := isStarting s;
     isStopping := isStopping s; firstFrameLogged := firstFrameLogged s;
     timers := timers s |}.

Definition set_firstFrameLogged (s : service) : service :=
  {| webContents := webContents s; audioTransferMode := audioTransferMode s;
     webUsbDevice := webUsbDevice s; pairTimeout := pairTimeout s;
     frameInterval := frameInterval s; _mic := _mic s; started := started s;
     stopping := stopping s; shuttingDown := shuttingDown s;
     audioInfoSent := audioInfoSent s; isStarting := isStarting s;
     isStopping := isStopping s; firstFrameLogged := true;
     timers := timers s |}.

Definition set_mic (s : service) (m : Microphone.t) : service :=
  {| webContents := webContents s; audioTransferMode := audioTransferMode s;
     webUsbDevice := webUsbDevice s; pairTimeout := pairTimeout s;
     frameInterval := frameInterval s; _mic := Some m; started := started s;
     stopping := stopping s; shuttingDown := shuttingDown s;
     audioInfoSent := audioInfoSent s; isStarting := isStarting s;
     isStopping := isStopping s; firstFrameLogged := firstFrameLogged s;
     timers := timers s |}.

(** The command branch of the AudioData handler. *)
Definition on_audio_command (h : host) (s : service) (c : AudioCommand)
    : service * list effect :=
  match c with
  | AudioSiriStart | AudioPhonecallStart =>
      if audioTransferMode s then (s, [])
      else
        let m := default Microphone.create (_mic s) in
        (set_mic s (Microphone.start (os h) m), [mic_start])
  | AudioSiriStop | AudioPhonecallStop =>
      match _mic s with
      | Some m => (set_mic s (Microphone.stop m), [mic_stop])
      | None => (s, [])
      end
  | _ => (s, [])
  end.

(** The handler of the driver's ['message'] event. *)
Definition on_message (h : host) (s : service) (msg : Message)
    : service * list effect :=
  if negb (webContents s) then (s, []) else
  match msg with
  | Plugged _ =>
      let s1 := clearTimeouts s in
      if negb (started s1) && negb (isStarting s1) then
        let '(s2, effs) := start_begin h s1 in
        (s2, web_send ev_plugged :: effs)
      else (s1, [web_send ev_plugged])
  | Unplugged =>
      if negb (shuttingDown s) && negb (stopping s) then
        let '(s1, effs) := stop_begin s in
        (s1, web_send ev_unplugged :: effs)
      else (s, [web_send ev_unplugged])
  | VideoData w ht d =>
      (set_firstFrameLogged s,
       web_send (ev_resolution w ht)
         :: sendChunked s carplay_video_chunk d (512 * 1024) None)
  | Audio a =>
      match data a with
      | Some d =>
          let chunks :=
            sendChunked s carplay_audio_chunk (Some d) (64 * 1024) (Some a) in
          if audioInfoSent s then (s, chunks)
          else
            match decodeTypeMap (decodeType a) with
            | Some m => (set_audioInfoSent s, chunks ++ [web_send (ev_audioInfo m)])
            | None => (s, chunks)
            end
      | None =>
          match command a with
          | Some c => on_audio_command h s c
          | None => (s, [])
          end
      end
  | MediaData payload =>
      if payload then (s, [web_send ev_media; write_media_file]) else (s, [])
  | Command v => (s, [web_send (ev_command v)])
  | OtherMessage => (s, [])
  end.

(** The pair timeout, or any timer, comes due. *)
Definition on_timer (s : service) (handle : nat) : service * list effect :=
  let '(q, cmds) := Timers.fire (timers s) handle in
  (
   {| webContents := webContents s; audioTransferMode := audioTransferMode s;
      webUsbDevice := webUsbDevice s; pairTimeout := pairTimeout s;
      frameInterval := frameInterval s; _mic := _mic s; started := started s;
      stopping := stopping s; shuttingDown := shuttingDown s;
      audioInfoSent := audioInfoSent s; isStarting := isStarting s;
      isStopping := isStopping s; firstFrameLogged := firstFrameLogged s;
      timers := q |},
   driver_send <$> cmds).

(** What happens to the service, one event at a time. *)
Inductive event :=
| Message_ (msg : Message)
| StartCalled
| StartDone (ok : bool)
| StopCalled
| StopDone
| TimerDue (handle : nat).

Definition step (h : host) (s : service) (e : event) : service * list effect :=
  match e with
  | Message_ msg => on_message h s msg
  | StartCalled => start_begin h s
  | StartDone ok => (start_finish ok s, [])
  | StopCalled => stop_begin s
  | StopDone => stop_finish s
  | TimerDue handle => on_timer s handle
  end.

Fixpoint run (h : host) (s : service) (es : list event) : service * list effect :=
  match es with
  | [] => (s, [])
  | e :: es' =>
      let '(s1, effs) := step h s e in
      let '(s2, effs') := run h s1 es' in
      (s2, effs ++ effs')
  end.


End Service.

End CarplayService.

(** ** The Carplay class of the node package (main/carplay/node) *)
Module Carplay.
Import Messages.

(** What the class hands to its [onmessage] callback. *)
Inductive CarplayMessage :=
| plugged | unplugged | failure | audio | video | media | command.

Inductive effect :=
| emit (m : CarplayMessage)
| driver_send (c : CommandValue)
| driver_close
| mic_start
| mic_stop.

(** The fields of the class; of [_config] the two entries the handlers
    could look at: [audioTransferMode] and, per phone type, the
    [frameInterval] of [phoneConfig]. *)
Record carplay := {
  audioTransferMode : bool;
  phoneConfig : Z -> option Z;
  _pairTimeout : option nat;
  _frameInterval : option nat;
  mic : Microphone.t;
  onmessage : bool;
  timers : Timers.queue
}.

Definition create (audioTransferMode : bool) (phoneConfig : Z -> option Z)
    : carplay :=
  {| audioTransferMode := audioTransferMode; phoneConfig := phoneConfig;
     _pairTimeout := None; _frameInterval := None;
     mic := Microphone.create; onmessage := false; timers := Timers.empty |}.

Definition clearPairTimeout (c : carplay) : carplay :=
  match _pairTimeout c with
  | Some h =>
    {| audioTransferMode := audioTransferMode c;
       phoneConfig := phoneConfig c; _pairTimeout := None;
       _frameInterval := _frameInterval c; mic := mic c;
       onmessage := onmessage c; timers := Timers.clear (timers c) h |}
  | None => c
  end.

Definition clearFrameInterval (c : carplay) : carplay :=
  match _frameInterval c with
  | Some h =>
    {| audioTransferMode := audioTransferMode c;
       phoneConfig := phoneConfig c; _pairTimeout := _pairTimeout c;
       _frameInterval := None; mic := mic c; onmessage := onmessage c;
       timers := Timers.clear (timers c) h |}
  | None => c
  end.

Definition setFrameInterval (c : carplay) (period : Z) : carplay :=
  let '(q, h) := Timers.set (timers c) period true frame in
  {| audioTransferMode := audioTransferMode c; phoneConfig := phoneConfig c;
     _pairTimeout := _pairTimeout c; _frameInterval := Some h; mic := mic c;
     onmessage := onmessage c; timers := q |}.

Definition set_mic (c : carplay) (m : Microphone.t) : carplay :=
  {| audioTransferMode := audioTransferMode c; phoneConfig := phoneConfig c;
     _pairTimeout := _pairTimeout c; _frameInterval := _frameInterval c;
     mic := m; onmessage := onmessage c; timers := timers c |}.

(** [this.onmessage?.(ev)]. *)
Definition notify (c : carplay) (m : CarplayMessage) : list effect :=
  if onmessage c then [emit m] else [].

(** The handler of the driver's ['message'] event: the dispatch on the
    class of the message, then the audio commands. *)
Definition on_message (os : Microphone.platform) (c : carplay) (msg : Message)
    : carplay * list effect :=
  let '(c1, effs) :=
    match msg with
    | Plugged phoneType =>
        let c1 := clearFrameInterval (clearPairTimeout c) in
        let c2 :=
          match phoneConfig c1 phoneType with
          | Some period => if period =? 0 then c1 else setFrameInterval c1 period
          | None => c1
          end in
        (c2, notify c2 plugged)
    | Unplugged => (c, notify c unplugged)
    | VideoData _ _ _ => let c1 := clearPairTimeout c in (c1, notify c1 video)
    | Audio _ => let c1 := clearPairTimeout c in (c1, notify c1 audio)
    | MediaData _ => let c1 := clearPairTimeout c in (c1, notify c1 media)
    | Command _ => (c, notify c command)
    | OtherMessage => (c, [])
    end in
  match msg with
  | Audio a =>
      match Messages.command a with
      | Some AudioSiriStart | Some AudioPhonecallStart =>
          (set_mic c1 (Microphone.start os (mic c1)), effs ++ [mic_start])
      | Some AudioSiriStop | Some AudioPhonecallStop =>
          (set_mic c1 (Microphone.stop (mic c1)), effs ++ [mic_stop])
      | _ => (c1, effs)
      end
  | _ => (c1, effs)
  end.

(** [initialiseAfterReconnect] once the device is open and the driver
    initialised and started. *)
Definition started (c : carplay) : carplay :=
  let '(q, h) := Timers.set (timers c) 15000 false wifiPair in
  {| audioTransferMode := audioTransferMode c; phoneConfig := phoneConfig c;
     _pairTimeout := Some h; _frameInterval := _frameInterval c;
     mic := mic c; onmessage := onmessage c; timers := q |}.

Definition stop (c : carplay) : carplay * list effect :=
  (clearFrameInterval (clearPairTimeout c), [driver_close]).

Definition on_timer (c : carplay) (handle : nat) : carplay * list effect :=
  let '(q, cmds) := Timers.fire (timers c) handle in
  (
   {| audioTransferMode := audioTransferMode c; phoneConfig := phoneConfig c;
      _pairTimeout := _pairTimeout c; _frameInterval := _frameInterval c;
      mic := mic c; onmessage := onmessage c; timers := q |},
   driver_send <$> cmds).

Inductive event :=
| Message_ (msg : Message)
| Started
| Stop
| TimerDue (handle : nat).

Definition step (os : Microphone.platform) (c : carplay) (e : event)
    : carplay * list effect :=
  match e with
  | Message_ msg => on_message os c msg
  | Started => (started c, [])
  | Stop => stop c
  | TimerDue handle => on_timer c handle
  end.

Fixpoint run (os : Microphone.platform) (c : carplay) (es : list event)
    : carplay * list effect :=
  match es with
  | [] => (c, [])
  | e :: es' =>
      let '(c1, effs) := step os c e in
      let '(c2, effs') := run os c1 es' in
      (c2, effs ++ effs')
  end.

End Carplay.

(** ** Lemmas on the timers *)
Module TimersFacts.
Import Messages Timers.

(** Handles are handed out once: the pending ones are below the next. *)
Definition wf (q : queue) : Prop :=
  Forall (fun t => (handle t < next_handle q)%nat) (pending q).

(** No timer with handle [h] is pending. *)
Definition idle (q : queue) (h : nat) : Prop :=
  Forall (fun t => handle t <> h) (pending q).




Lemma filter_idle q h :
  idle q h -> filter (fun t => handle t = h) (pending q) = [].
Proof.
  unfold idle. induction (pending q) as [|t l IH]; [done|].
  intros Hall. apply Forall_cons in Hall as [Ht Hl].
  rewrite filter_cons_False by done. by apply IH.
Qed.


Lemma fire_idle q h : idle q h -> fire q h = (q, []).
Proof. intros Hi. unfold fire. by rewrite filter_idle. Qed.


Lemma idle_clear_other q h h' : idle q h -> idle (clear q h') h.
Proof.
  unfold idle, clear; simpl. intros Hi. apply Forall_forall. intros t Ht.
  apply list_elem_of_filter in Ht as [_ Ht].
  by apply (proj1 (Forall_forall _ _) Hi).
Qed.





End TimersFacts.

(** ** The claims on the session *)
Module Session.
Import Messages CarplayService.



Section Claims.
Context {meta : Type} (decodeTypeMap : Z -> option meta).

(** [sendChunked] covers the whole buffer, in order, in chunks of at most
    [chunkSize] bytes, and the given number of rounds is enough for it. *)
Lemma sendChunked_loop_covers (c : channel) (d : list Byte.byte)
    (chunkSize : Z) (ex : option AudioData) :
  0 < chunkSize ->
  forall (fuel : nat) (off : Z),
  0 <= off <= len d -> (Z.to_nat (len d - off) <= fuel)%nat ->
  exists envs : list envelope,
    sendChunked_loop (meta := meta) fuel c d off (len d) chunkSize ex
      = web_chunk c <$> envs /\
    concat (chunk <$> envs) = drop (Z.to_nat off) d /\
    Forall (fun e => len (chunk e) <= chunkSize /\ total e = len d /\
                     extra e = ex) envs.
Proof.
  intros Hcs. induction fuel as [|fuel IH]; intros off Hoff Hfuel.
  - exists []. split; [done|]. split; [|done].
    simpl. symmetry. apply drop_ge. unfold len in *. lia.
  - simpl. destruct (Z.ltb_spec off (len d)) as [Hlt|Hge].
    + set (e := Z.min (off + chunkSize) (len d)).
      destruct (IH e) as (envs & Hloop & Hcat & Hall); [lia|lia|].
      exists ({| offset := off; total := len d; isLast := len d <=? e;
                 chunk := subarray d off e; extra := ex |} :: envs).
      split; [by rewrite Hloop|]. split.
      * csimpl. rewrite Hcat. unfold subarray.
        replace (Z.to_nat e) with (Z.to_nat off + Z.to_nat (e - off))%nat by lia.
        by rewrite <- drop_drop, take_drop.
      * constructor; [|done]. simpl. split; [|done].
        unfold subarray, len in *. rewrite length_take, length_drop. lia.
    + exists []. split; [done|]. split; [|done].
      simpl. symmetry. apply drop_ge. unfold len in *. lia.
Qed.

(** C10.  For an AudioData message that carries data, the handler only
    forwards the data, in chunks that together are the buffer, followed by
    at most one audioInfo event: the command of the message is not acted
    upon, so no microphone call is made and the microphone is left as it
    is.  A microphone call is made only for a message with a command and
    no data. *)
Theorem audio_branches_exclusive (h : host) (s : service) (a : AudioData) :
  let s' := (on_message decodeTypeMap h s (Audio a)).1 in
  let effs := (on_message decodeTypeMap h s (Audio a)).2 in
  (forall d, data a = Some d ->
     _mic s' = _mic s /\ (mic_start ∉ effs) /\ (mic_stop ∉ effs) /\
     (webContents s = true ->
        exists envs info,
          effs = (web_chunk carplay_audio_chunk <$> envs) ++ info /\
          concat (chunk <$> envs) = d /\
          Forall (fun e => len (chunk e) <= 64 * 1024 /\ total e = len d /\
                           extra e = Some a) envs /\
          (info = [] \/ exists m, info = [web_send (ev_audioInfo m)]))) /\
  ((mic_start ∈ effs \/ mic_stop ∈ effs \/ _mic s' <> _mic s) ->
     data a = None /\ command a <> None).
Proof.
  intros s' effs. unfold s', effs, on_message.
  destruct (webContents s) eqn:Hw; cbn [negb fst snd].
  2:{ split.
      - intros d _. repeat split; try apply not_elem_of_nil. done.
      - intros [H|[H|H]]; [by apply not_elem_of_nil in H..|done]. }
  destruct (data a) as [d|] eqn:Hd.
  - destruct (sendChunked_loop_covers carplay_audio_chunk d (64 * 1024) (Some a)
                ltac:(lia) (length d) 0) as (envs & Hloop & Hcat & Hall);
      [unfold len; lia|unfold len; lia|].
    rewrite drop_0 in Hcat.
    assert (Hchunks : sendChunked s carplay_audio_chunk (Some d) (64 * 1024) (Some a)
                      = web_chunk carplay_audio_chunk <$> envs)
      by (unfold sendChunked; by rewrite Hw).
    rewrite Hchunks.
    assert (Hno : forall e : @effect meta, (e = mic_start \/ e = mic_stop) ->
              e ∉ web_chunk carplay_audio_chunk <$> envs).
    { intros e He Hin. apply list_elem_of_fmap in Hin as (env & -> & _).
      by destruct He. }
    assert (Hcase :
      (if audioInfoSent s then (s, web_chunk carplay_audio_chunk <$> envs)
       else match decodeTypeMap (decodeType a) with
            | Some m => (set_audioInfoSent s,
                         (web_chunk carplay_audio_chunk <$> envs)
                           ++ [web_send (ev_audioInfo m)])
            | None => (s, web_chunk carplay_audio_chunk <$> envs)
            end)
      = (if audioInfoSent s then s
         else match decodeTypeMap (decodeType a) with
              | Some m => set_audioInfoSent s | None => s end,
         (web_chunk carplay_audio_chunk <$> envs)
           ++ (if audioInfoSent s then []
               else match decodeTypeMap (decodeType a) with
                    | Some m => [web_send (ev_audioInfo m)] | None => [] end))).
    { destruct (audioInfoSent s); [by rewrite app_nil_r|].
      destruct (decodeTypeMap (decodeType a)); [done|by rewrite app_nil_r]. }
    rewrite Hcase. simpl.
    set (info := if audioInfoSent s then [] else _).
    assert (Hinfo : info = [] \/ exists m, info = [web_send (ev_audioInfo m)]).
    { unfold info. destruct (audioInfoSent s); [by left|].
      destruct (decodeTypeMap (decodeType a)) as [m|]; [right; by exists m|by left]. }
    assert (Hmic : forall e : @effect meta, (e = mic_start \/ e = mic_stop) ->
              e ∉ (web_chunk carplay_audio_chunk <$> envs) ++ info).
    { intros e He. apply not_elem_of_app. split; [by apply Hno|].
      destruct Hinfo as [->|[m ->]]; [apply not_elem_of_nil|].
      intros Hin. apply list_elem_of_singleton in Hin. by destruct He as [->| ->]. }
    split.
    + intros d' [= <-]. split; [|split; [|split]].
      * destruct (audioInfoSent s); [done|].
        by destruct (decodeTypeMap (decodeType a)).
      * apply Hmic. by left.
      * apply Hmic. by right.
      * intros _. by exists envs, info.
    + intros [H|[H|H]].
      * exfalso. revert H. apply Hmic. by left.
      * exfalso. revert H. apply Hmic. by right.
      * exfalso. apply H. destruct (audioInfoSent s); [done|].
        by destruct (decodeTypeMap (decodeType a)).
  - split; [done|]. intros H. split; [done|].
    destruct (command a) as [c|]; [done|]. exfalso.
    destruct H as [H|[H|H]]; [by apply not_elem_of_nil in H..|done].
Qed.


(** *** The pair timeout *)






Lemma sendChunked_loop_chunks fuel c d off tot cs ex :
  forall e : @effect meta,
  e ∈ sendChunked_loop fuel c d off tot cs ex -> exists env, e = web_chunk c env.
Proof.
  revert off. induction fuel as [|fuel IH]; intros off e; simpl.
  - intros H. by apply not_elem_of_nil in H.
  - destruct (off <? tot); [|intros H; by apply not_elem_of_nil in H].
    intros H. apply elem_of_cons in H as [->|H]; [by eexists|by eapply IH].
Qed.


















End Claims.









End Session.

(** ** src/renderer/src/components/worker/render/Render.worker.ts *)
Module RendererWorker.

Section Worker.

(** The helpers of ./lib/utils, which is not among the sources:
    [getNaluFromStream(videoData, NaluTypes.SPS)] gives the raw SPS if the
    buffer holds one, [isKeyFrame] tells whether it holds an IDR, and
    [getDecoderConfig] derives the decoder configuration from an SPS. *)
Context {config : Type}.
Variable getNaluFromStream_SPS : list Byte.byte -> option (list Byte.byte).
Variable isKeyFrame : list Byte.byte -> bool.
Variable getDecoderConfig : list Byte.byte -> option config.

Definition vendorHeaderSize : Z := 20.

Inductive chunk_type := key | delta.

Inductive acceleration := prefer_hardware | prefer_software.

(** The calls made on the [VideoDecoder]. *)
Inductive effect :=
| configure (c : config) (a : acceleration)
| decode (t : chunk_type) (data : list Byte.byte).

(** How the decoder of the browser answers during one [processRaw]:
    whether [configure] goes through in either mode, and whether [decode]
    does. *)
Record decoder := {
  configures_hw : bool;
  configures_sw : bool;
  decodes : bool
}.

(** The fields of the worker that [processRaw] reads or writes. *)
Record worker := {
  isConfigured : bool;
  lastSPS : option (list Byte.byte);
  awaitingValidKeyframe : bool;
  rendererHwSupported : bool;
  rendererSwSupported : bool
}.

Definition create : worker :=
  {| isConfigured := false; lastSPS := None; awaitingValidKeyframe := true;
     rendererHwSupported := false; rendererSwSupported := false |}.

(** [evaluateRendererCapabilities] picks a renderer and records what it
    supports. *)
Definition set_capabilities (w : worker) (hw sw : bool) : worker :=
  {| isConfigured := isConfigured w; lastSPS := lastSPS w;
     awaitingValidKeyframe := awaitingValidKeyframe w;
     rendererHwSupported := hw; rendererSwSupported := sw |}.

Definition set_lastSPS (w : worker) (sps : list Byte.byte) : worker :=
  {| isConfigured := isConfigured w; lastSPS := Some sps;
     awaitingValidKeyframe := awaitingValidKeyframe w;
     rendererHwSupported := rendererHwSupported w;
     rendererSwSupported := rendererSwSupported w |}.

Definition set_isConfigured (w : worker) : worker :=
  {| isConfigured := true; lastSPS := lastSPS w;
     awaitingValidKeyframe := awaitingValidKeyframe w;
     rendererHwSupported := rendererHwSupported w;
     rendererSwSupported := rendererSwSupported w |}.

Definition clear_awaiting (w : worker) : worker :=
  {| isConfigured := isConfigured w; lastSPS := lastSPS w;
     awaitingValidKeyframe := false;
     rendererHwSupported := rendererHwSupported w;
     rendererSwSupported := rendererSwSupported w |}.

(** [configureDecoder(config)]: hardware first when the renderer supports
    it, then software; the worker after the call, the calls made, and the
    result. *)
Definition configureDecoder (dec : decoder) (w : worker) (c : config)
    : worker * list effect * bool :=
  let hw :=
    if rendererHwSupported w then [configure c prefer_hardware] else [] in
  if rendererHwSupported w && configures_hw dec then
    (set_isConfigured w, hw, true)
  else if rendererSwSupported w then
    if configures_sw dec then
      (set_isConfigured w, hw ++ [configure c prefer_software], true)
    else (w, hw ++ [configure c prefer_software], false)
  else (w, hw, false).

(** The bytes after the vendor header. *)
Definition videoDataOf (buffer : list Byte.byte) : list Byte.byte :=
  if vendorHeaderSize <? len buffer
  then drop (Z.to_nat vendorHeaderSize) buffer else buffer.

(** [processRaw(buffer)]. *)
Definition processRaw (dec : decoder) (w : worker) (buffer : list Byte.byte)
    : worker * list effect :=
  if len buffer =? 0 then (w, []) else
  let videoData := videoDataOf buffer in
  let sps := getNaluFromStream_SPS videoData in
  let isKey := isKeyFrame videoData in
  let w1 :=
    match sps with
    | Some raw => if isConfigured w then w else set_lastSPS w raw
    | None => w
    end in
  if awaitingValidKeyframe w1 && negb isKey then (w1, []) else
  let later (w2 : worker) (effs : list effect) :=
    if negb (isConfigured w2) || awaitingValidKeyframe w2 then (w2, effs)
    else (w2, effs ++ [decode (if isKey then key else delta) videoData]) in
  match lastSPS w1 with
  | Some raw =>
      if isKey && negb (isConfigured w1) then
        match getDecoderConfig raw with
        | Some c =>
            let '(w2, effs, ok) := configureDecoder dec w1 c in
            if ok then
              if decodes dec
              then (clear_awaiting w2, effs ++ [decode key videoData])
              else (w2, effs ++ [decode key videoData])
            else later w2 effs
        | None => later w1 []
        end
      else later w1 []
  | None => later w1 []
  end.

(** What reaches the worker: a video buffer on the port, with the answers
    of the decoder for that call, or the end of the capability tests. *)
Inductive event :=
| Frame (buffer : list Byte.byte) (dec : decoder)
| Capabilities (hw sw : bool).

Definition step (w : worker) (e : event) : worker * list effect :=
  match e with
  | Frame buffer dec => processRaw dec w buffer
  | Capabilities hw sw => (set_capabilities w hw sw, [])
  end.

Fixpoint run (w : worker) (es : list event) : worker * list effect :=
  match es with
  | [] => (w, [])
  | e :: es' =>
      let '(w1, effs) := step w e in
      let '(w2, effs') := run w1 es' in
      (w2, effs ++ effs')
  end.

Definition is_decode (e : effect) : bool :=
  match e with decode _ _ => true | configure _ _ => false end.

(** What a buffer shows to the gate. *)
Definition shows_sps (e : event) : bool :=
  match e with
  | Frame buffer _ =>
      negb (len buffer =? 0)
      && bool_decide (is_Some (getNaluFromStream_SPS (videoDataOf buffer)))
  | Capabilities _ _ => false
  end.

Definition shows_key (e : event) : bool :=
  match e with
  | Frame buffer _ => negb (len buffer =? 0) && isKeyFrame (videoDataOf buffer)
  | Capabilities _ _ => false
  end.

(** An SPS has been observed and a keyframe has arrived with it or after
    it; [seen] tells whether an SPS was observed before [es]. *)
Fixpoint gate_open (seen : bool) (es : list event) : bool :=
  match es with
  | [] => false
  | e :: es' =>
      let seen' := seen || shows_sps e in
      (seen' && shows_key e) || gate_open seen' es'
  end.

(** What the worker has seen so far, against its fields: the SPS it holds
    was observed, and it is configured, or past the wait for a keyframe,
    only once the gate is open. *)
Definition consistent (seen opened : bool) (w : worker) : Prop :=
  (is_Some (lastSPS w) -> seen = true) /\
  (isConfigured w = true -> opened = true) /\
  (awaitingValidKeyframe w = false -> opened = true).

Lemma gate_open_app seen p q :
  gate_open seen (p ++ q)
  = gate_open seen p || gate_open (seen || existsb shows_sps p) q.
Proof.
  revert seen; induction p as [|e p IH]; intros seen; simpl.
  - by rewrite orb_false_r.
  - rewrite IH. by rewrite !orb_assoc.
Qed.

Lemma configureDecoder_spec dec w c w2 effs ok :
  configureDecoder dec w c = (w2, effs, ok) ->
  Forall (fun x => is_decode x = false) effs /\
  lastSPS w2 = lastSPS w /\
  awaitingValidKeyframe w2 = awaitingValidKeyframe w /\
  rendererHwSupported w2 = rendererHwSupported w /\
  rendererSwSupported w2 = rendererSwSupported w /\
  isConfigured w2 = (if ok then true else isConfigured w) /\
  ok = (rendererHwSupported w && configures_hw dec)
       || (rendererSwSupported w && configures_sw dec).
Proof.
  unfold configureDecoder.
  destruct (rendererHwSupported w) eqn:E1, (configures_hw dec) eqn:E2,
    (rendererSwSupported w) eqn:E3, (configures_sw dec) eqn:E4; simpl;
    intros [= <- <- <-]; simpl; rewrite ?E1, ?E3;
    repeat split; repeat constructor.
Qed.

(** One event keeps the worker consistent; a decode call is made only
    with the gate open, and the call that opens it is that of a keyframe. *)
Lemma step_gate seen opened w e :
  consistent seen opened w ->
  let seen' := seen || shows_sps e in
  let opened' := opened || (seen' && shows_key e) in
  consistent seen' opened' (step w e).1 /\
  (forall x, x ∈ (step w e).2 -> is_decode x = true -> opened' = true) /\
  (opened = false -> forall t d, decode t d ∈ (step w e).2 ->
     t = key /\ shows_key e = true /\
     exists buffer dec, e = Frame buffer dec /\ d = videoDataOf buffer).
Proof.
  intros (Hsps & Hcfg & Haw) seen' opened'.
  destruct e as [buffer dec|hw sw]; simpl in *.
  2:{ unfold seen', opened'. rewrite !orb_false_r, andb_false_r, orb_false_r.
      split; [done|]. split.
      - intros x Hx. by apply not_elem_of_nil in Hx.
      - intros _ t d Hx. by apply not_elem_of_nil in Hx. }
  unfold processRaw.
  destruct (Z.eqb_spec (len buffer) 0) as [E0|E0]; simpl in *.
  { subst seen' opened'. rewrite ?andb_false_r, ?orb_false_r.
    split; [done|]. split.
    - intros x Hx. by apply not_elem_of_nil in Hx.
    - intros _ t d Hx. by apply not_elem_of_nil in Hx. }
  set (vd := videoDataOf buffer) in *.
  set (w1 := match getNaluFromStream_SPS vd with
             | Some raw => if isConfigured w then w else set_lastSPS w raw
             | None => w
             end).
  assert (H1 : awaitingValidKeyframe w1 = awaitingValidKeyframe w /\
               isConfigured w1 = isConfigured w /\
               (is_Some (lastSPS w1) -> seen' = true)).
  { unfold w1, seen'. destruct (getNaluFromStream_SPS vd) as [raw|]; simpl.
    - rewrite ?orb_true_r. by destruct (isConfigured w) eqn:E; simpl; rewrite ?E.
    - by rewrite ?orb_false_r. }
  destruct H1 as (Haw1 & Hcfg1 & Hsps1).
  clearbody w1.
  assert (Hlater : forall w2 effs,
    awaitingValidKeyframe w2 = awaitingValidKeyframe w ->
    isConfigured w2 = isConfigured w ->
    (is_Some (lastSPS w2) -> seen' = true) ->
    Forall (fun x => is_decode x = false) effs ->
    let r := if negb (isConfigured w2) || awaitingValidKeyframe w2
             then (w2, effs)
             else (w2, effs ++ [decode (if isKeyFrame vd then key else delta) vd]) in
    consistent seen' opened' r.1 /\
    (forall x, x ∈ r.2 -> is_decode x = true -> opened' = true) /\
    (opened = false -> forall t d, decode t d ∈ r.2 ->
       t = key /\ isKeyFrame vd = true /\
       exists buffer0 dec0, Frame buffer dec = Frame buffer0 dec0 /\
                            d = videoDataOf buffer0)).
  { intros w2 effs Ha2 Hc2 Hs2 Heffs.
    assert (Hnone : forall x, x ∈ effs -> is_decode x = true -> False).
    { intros x Hx Hd. apply (proj1 (Forall_forall _ _) Heffs) in Hx. congruence. }
    intros r. unfold r, consistent, opened'. rewrite Hc2, Ha2.
    destruct (isConfigured w) eqn:Ec, (awaitingValidKeyframe w) eqn:Ea;
      cbn [negb orb fst snd]; rewrite ?Hc2, ?Ha2;
      rewrite ?(Hcfg eq_refl), ?(Haw eq_refl); cbn [orb].
    - split; [done|]. split; [done|]. done.
    - split; [done|]. split; done.
    - split; [done|]. split.
      + intros x Hx Hd. by destruct (Hnone x Hx Hd).
      + intros _ t d Hx. exfalso. eapply (Hnone _ Hx). done.
    - split; [done|]. split; done. }
  destruct (awaitingValidKeyframe w1 && negb (isKeyFrame vd)) eqn:Edrop.
  { simpl. split; [|split].
    - split; [done|]. split.
      + rewrite Hcfg1. intros H. unfold opened'. by rewrite (Hcfg H).
      + rewrite Haw1. intros H. unfold opened'. by rewrite (Haw H).
    - intros x Hx. by apply not_elem_of_nil in Hx.
    - intros _ t d Hx. by apply not_elem_of_nil in Hx. }
  destruct (lastSPS w1) as [raw|] eqn:Elast; [|by apply Hlater; rewrite ?Elast].
  destruct (isKeyFrame vd && negb (isConfigured w1)) eqn:Efirst;
    [|by apply Hlater; rewrite ?Elast].
  apply andb_true_iff in Efirst as [Ekey Encfg].
  destruct (getDecoderConfig raw) as [c|]; [|by apply Hlater; rewrite ?Elast].
  destruct (configureDecoder dec w1 c) as [[w2 effs] ok] eqn:Econf.
  destruct (configureDecoder_spec _ _ _ _ _ _ Econf)
    as (Hnd & Hl2 & Ha2 & _ & _ & Hc2 & _).
  assert (Hopen : opened' = true).
  { unfold opened'. rewrite Hsps1 by (rewrite ?Elast; by eexists).
    rewrite Ekey. apply orb_true_r. }
  assert (Hnone : forall x, x ∈ effs -> is_decode x = true -> False).
  { intros x Hx Hd. apply (proj1 (Forall_forall _ _) Hnd) in Hx. congruence. }
  destruct ok.
  - assert (Hdec : forall (w3 : worker) t d,
        decode t d ∈ effs ++ [decode key vd] ->
        t = key /\ isKeyFrame vd = true /\
        exists buffer0 dec0, Frame buffer dec = Frame buffer0 dec0 /\
                             d = videoDataOf buffer0).
    { intros _ t d Hx. apply elem_of_app in Hx as [Hx|Hx].
      - exfalso. eapply (Hnone _ Hx). done.
      - apply list_elem_of_singleton in Hx as [= -> ->].
        split; [done|]. split; [done|]. by exists buffer, dec. }
    destruct (decodes dec); simpl; (split; [|split]); try done.
    + split; [|by rewrite Hopen]. simpl. rewrite Hl2, Elast. done.
    + intros _. by apply (Hdec w2).
    + split; [|by rewrite Hopen]. rewrite Hl2, Elast. done.
    + intros _. by apply (Hdec w2).
  - apply Hlater; try done.
    + by rewrite Ha2.
    + by rewrite Hc2.
    + by rewrite Hl2, Elast.
Qed.

Lemma run_gate es : forall seen opened w,
  consistent seen opened w ->
  consistent (seen || existsb shows_sps es) (opened || gate_open seen es)
    (run w es).1 /\
  (forall x, x ∈ (run w es).2 -> is_decode x = true ->
     opened || gate_open seen es = true).
Proof.
  induction es as [|e es IH]; intros seen opened w Hc; simpl.
  - rewrite !orb_false_r. split; [done|].
    intros x Hx. by apply not_elem_of_nil in Hx.
  - destruct (step_gate seen opened w e Hc) as (Hc1 & Hd1 & _).
    destruct (step w e) as [w1 effs]. cbn [fst snd] in *.
    destruct (IH _ _ _ Hc1) as [Hc2 Hd2].
    destruct (run w1 es) as [w2 effs']. cbn [fst snd] in *.
    rewrite !orb_assoc in *. split; [done|].
    intros x Hx Hdec. apply elem_of_app in Hx as [Hx|Hx].
    + rewrite (Hd1 x Hx Hdec). done.
    + by apply (Hd2 x).
Qed.

Lemma run_app w p q :
  run w (p ++ q)
  = ((run (run w p).1 q).1, (run w p).2 ++ (run (run w p).1 q).2).
Proof.
  revert w; induction p as [|e p IH]; intros w; simpl.
  - by destruct (run w q).
  - destruct (step w e) as [w1 effs]. rewrite IH.
    destruct (run w1 p) as [w2 effs']. simpl. by rewrite app_assoc.
Qed.

(** A stream without SPS and without keyframe leaves the worker waiting,
    unconfigured, and makes no call on the decoder. *)
Lemma run_mid_gop p : forall w,
  Forall (fun e => shows_sps e = false /\ shows_key e = false) p ->
  isConfigured w = false -> lastSPS w = None ->
  awaitingValidKeyframe w = true ->
  (run w p).2 = [] /\ isConfigured (run w p).1 = false /\
  lastSPS (run w p).1 = None /\ awaitingValidKeyframe (run w p).1 = true.
Proof.
  induction p as [|e p IH]; intros w Hp Hc Hl Ha; simpl; [done|].
  apply Forall_cons in Hp as [[Hs Hk] Hp].
  assert (Hstep : (step w e).2 = [] /\ isConfigured (step w e).1 = false /\
                  lastSPS (step w e).1 = None /\
                  awaitingValidKeyframe (step w e).1 = true).
  { destruct e as [buffer dec|hw sw]; simpl in *; [|done].
    unfold processRaw.
    destruct (len buffer =? 0); simpl in *; [done|].
    destruct (getNaluFromStream_SPS (videoDataOf buffer)) as [raw|];
      [by rewrite bool_decide_eq_true_2 in Hs|].
    by rewrite Ha, Hk. }
  destruct Hstep as (H1 & H2 & H3 & H4).
  destruct (step w e) as [w1 effs]. simpl in *. subst effs.
  destruct (IH w1 Hp H2 H3 H4) as (H5 & H6).
  destruct (run w1 p) as [w2 effs']. simpl in *. done.
Qed.

(** C6.  Taking any history of the worker from its creation: a call of
    [decode] is made only once an SPS has been observed and a keyframe has
    arrived with it or after it; until then no call was made, and the
    first call is of type key, on the buffer of a keyframe.  While the
    worker awaits a valid keyframe, a buffer without keyframe is dropped
    with no call on the decoder.  After a stream of buffers with neither
    SPS nor keyframe nothing was decoded, and a buffer with SPS and IDR
    that the decoder accepts is then decoded, as the one decode call of
    that buffer, of type key. *)
Theorem keyframe_gate (p : list event) (e : event) :
  let w := (run create p).1 in
  (forall x, x ∈ (step w e).2 -> is_decode x = true ->
     gate_open false (p ++ [e]) = true) /\
  (gate_open false p = false ->
     Forall (fun x => is_decode x = false) (run create p).2 /\
     forall t d, decode t d ∈ (step w e).2 ->
       t = key /\ shows_key e = true /\
       exists buffer dec, e = Frame buffer dec /\ d = videoDataOf buffer) /\
  (awaitingValidKeyframe w = true -> shows_key e = false ->
     (step w e).2 = []) /\
  (Forall (fun e' => shows_sps e' = false /\ shows_key e' = false) p ->
     (run create p).2 = [] /\
     forall buffer dec raw c,
       e = Frame buffer dec -> len buffer <> 0 ->
       getNaluFromStream_SPS (videoDataOf buffer) = Some raw ->
       isKeyFrame (videoDataOf buffer) = true ->
       getDecoderConfig raw = Some c ->
       (rendererHwSupported w && configures_hw dec)
         || (rendererSwSupported w && configures_sw dec) = true ->
       decodes dec = true ->
       filter (fun x => is_decode x = true) (step w e).2
         = [decode key (videoDataOf buffer)] /\
       awaitingValidKeyframe (step w e).1 = false /\
       isConfigured (step w e).1 = true).
Proof.
  intros w.
  assert (Hinit : consistent false false create).
  { split; [by intros [x Hx]|by split]. }
  destruct (run_gate p false false create Hinit) as [Hc Hd].
  fold w in Hc. cbn [orb] in Hc, Hd.
  destruct (step_gate _ _ w e Hc) as (_ & Hd1 & Hk1).
  split; [|split; [|split]].
  - intros x Hx Hdec. rewrite gate_open_app. cbn [orb gate_open].
    rewrite orb_false_r. by apply (Hd1 x).
  - intros Hclosed. split.
    + apply Forall_forall. intros x Hx.
      destruct (is_decode x) eqn:E; [|done].
      rewrite <- Hclosed. symmetry. by apply (Hd x).
    + by apply Hk1.
  - intros Ha Hk. destruct e as [buffer dec|hw sw]; simpl in *; [|done].
    unfold processRaw. destruct (len buffer =? 0); simpl in *; [done|].
    rewrite Hk.
    destruct (getNaluFromStream_SPS (videoDataOf buffer)) as [raw|].
    + destruct (isConfigured w); simpl; by rewrite Ha.
    + by rewrite Ha.
  - intros Hp.
    destruct (run_mid_gop p create Hp eq_refl eq_refl eq_refl)
      as (Hnone & Hcfg & Hlast & Haw).
    fold w in Hcfg, Hlast, Haw. split; [done|].
    intros buffer dec raw c -> Hlen Hsps Hkey Hconf Hok Hdec.
    cbn [step]. unfold processRaw.
    destruct (Z.eqb_spec (len buffer) 0) as [|_]; [done|].
    rewrite Hsps, Hkey, Hcfg. cbn [negb andb lastSPS set_lastSPS].
    rewrite andb_false_r. cbn [isConfigured set_lastSPS]. rewrite Hcfg.
    cbn [negb]. rewrite Hconf.
    destruct (configureDecoder dec (set_lastSPS w raw) c)
      as [[w2 effs] ok] eqn:Econf.
    destruct (configureDecoder_spec _ _ _ _ _ _ Econf)
      as (Hnd & _ & _ & _ & _ & Hc2 & Hokeq).
    cbn [rendererHwSupported rendererSwSupported set_lastSPS] in Hokeq.
    rewrite Hok in Hokeq. subst ok. rewrite Hdec. cbn [fst snd].
    split; [|split; [done|by rewrite <- Hc2]].
    rewrite filter_app, filter_cons_True, filter_nil by done.
    replace (filter (fun x => is_decode x = true) effs) with (@nil effect); [done|].
    symmetry. clear -Hnd. induction effs as [|x effs IH]; [done|].
    apply Forall_cons in Hnd as [Hx Hnd].
    rewrite filter_cons_False by congruence. by apply IH.
Qed.

End Worker.

(** A toy reading of buffers for the example: a buffer holds an SPS when
    it starts with the byte 0x67, and an IDR when 0x65 follows. *)
Definition toy_sps (b : list Byte.byte) : option (list Byte.byte) :=
  match b with
  | Byte.x67 :: _ => Some [Byte.x67]
  | _ => None
  end.

Definition toy_key (b : list Byte.byte) : bool :=
  match b with
  | _ :: Byte.x65 :: _ => true
  | _ => false
  end.

Definition toy_config (sps : list Byte.byte) : option unit := Some tt.

Definition willing : decoder :=
  {| configures_hw := true; configures_sw := true; decodes := true |}.

Lemma keyframe_gate_witness :
  (run toy_sps toy_key toy_config create
     [Capabilities false true; Frame [Byte.x41] willing;
      Frame [Byte.x41; Byte.x41] willing]).2 = [] /\
  filter (fun x => is_decode x = true)
    (step toy_sps toy_key toy_config
       (run toy_sps toy_key toy_config create
          [Capabilities false true; Frame [Byte.x41] willing;
           Frame [Byte.x41; Byte.x41] willing]).1
       (Frame [Byte.x67; Byte.x65] willing)).2
  = [decode key [Byte.x67; Byte.x65]].
Proof.
  destruct (keyframe_gate toy_sps toy_key toy_config
              [Capabilities false true; Frame [Byte.x41] willing;
               Frame [Byte.x41; Byte.x41] willing]
              (Frame [Byte.x67; Byte.x65] willing))
    as (_ & _ & _ & Hmid).
  destruct Hmid as [Hnone Hone].
  { repeat constructor. }
  split; [exact Hnone|].
  by destruct (Hone [Byte.x67; Byte.x65] willing [Byte.x67] tt
                 eq_refl ltac:(done) eq_refl eq_refl eq_refl eq_refl eq_refl).
Defined.

End RendererWorker.

(** ** Touch coordinates: useCarplayTouch.ts and the multi-touch handler
       of the session service *)
Module TouchCoordinates.

Local Open Scope float_scope.

(** [clamp01] of the renderer hook. *)
Definition clamp01 (v : float) : float :=
  if v <? 0 then 0 else if 1 <? v then 1 else v.

(** [el.getBoundingClientRect()]. *)
Record DOMRect := { left : float; top : float; width : float; height : float }.

(** [norm(el, cx, cy)], [r] being the rectangle of the element. *)
Definition norm (r : DOMRect) (cx cy : float) : float * float :=
  (clamp01 ((cx - left r) / width r), clamp01 ((cy - top r) / height r)).

(** [to01] of the 'carplay-multi-touch' handler of the main process. *)
Definition to01 (v : float) : float :=
  let n := if is_finite v then v else 0 in
  if n <? 0 then 0 else if 1 <? n then 1 else n.

(** The closed interval from 0 to 1. *)
Definition in01 (v : float) : Prop := (0 <=? v) = true /\ (v <=? 1) = true.

(** *** Comparisons of doubles *)

Lemma Prim2SF_0 : Prim2SF 0 = S754_zero false.
Proof. reflexivity. Qed.

Lemma Prim2SF_1 : Prim2SF 1 = S754_finite false 4503599627370496 (-52).
Proof. reflexivity. Qed.

Lemma in01_0 : in01 0.
Proof. split; reflexivity. Qed.

Lemma in01_1 : in01 1.
Proof. split; reflexivity. Qed.

Lemma is_nan_spec v : is_nan v = true <-> Prim2SF v = S754_nan.
Proof.
  unfold is_nan. rewrite FloatAxioms.eqb_spec.
  destruct (Prim2SF v) as [s|s| |s m e]; simpl.
  - by split.
  - destruct s; by split.
  - by split.
  - unfold SFeqb, SFcompare.
    rewrite Z.compare_refl, Pos.compare_cont_refl.
    destruct s; by split.
Qed.

(** A double that is not NaN, not below 0 and not above 1 lies between
    0 and 1. *)
Lemma between_in01 v :
  is_nan v = false -> (v <? 0) = false -> (1 <? v) = false -> in01 v.
Proof.
  intros Hnan Hlo Hhi. unfold in01.
  assert (Hn : Prim2SF v <> S754_nan).
  { intros H. apply is_nan_spec in H. congruence. }
  rewrite ltb_spec in Hlo, Hhi.
  rewrite Prim2SF_0 in Hlo. rewrite Prim2SF_1 in Hhi.
  rewrite !leb_spec, Prim2SF_0, Prim2SF_1.
  destruct (Prim2SF v) as [s|s| |s m e]; try done.
  - destruct s; simpl in *; done.
  - destruct s; [done|]. split; [done|].
    unfold SFltb, SFleb, SFcompare in *.
    rewrite Pos.compare_cont_spec in Hhi. rewrite Pos.compare_cont_spec.
    rewrite (Z.compare_antisym e (-52)) in Hhi.
    rewrite (Pos.compare_antisym m 4503599627370496%positive) in Hhi.
    set (cm := Pos.compare m 4503599627370496%positive) in *. clearbody cm.
    set (ce := (e ?= -52)%Z) in *. clearbody ce.
    by destruct ce, cm.
Qed.

Lemma to01_in01 v : in01 (to01 v).
Proof.
  unfold to01. destruct (is_finite v) eqn:Hf.
  - destruct (v <? 0) eqn:Hlo; [apply in01_0|].
    destruct (1 <? v) eqn:Hhi; [apply in01_1|].
    apply between_in01; try done.
    unfold is_finite in Hf. by destruct (is_nan v).
  - apply in01_0.
Qed.

Lemma clamp01_in01 v : is_nan v = false -> in01 (clamp01 v).
Proof.
  intros Hnan. unfold clamp01.
  destruct (v <? 0) eqn:Hlo; [apply in01_0|].
  destruct (1 <? v) eqn:Hhi; [apply in01_1|].
  by apply between_in01.
Qed.

(** C8.  [to01] of the main process sends every double, NaN and the
    infinities included, into the interval from 0 to 1, and [clamp01] of
    the renderer does so for every double but NaN; NaN goes through
    [clamp01] unchanged.  On an element of width 0 with the pointer on its
    left edge, [norm] divides 0 by 0 and returns NaN as x. *)
Theorem clamp01_passes_nan :
  (forall v, in01 (to01 v)) /\
  (forall v, is_nan v = false -> in01 (clamp01 v)) /\
  clamp01 nan = nan /\
  ~ in01 (clamp01 nan) /\
  (norm {| left := 10; top := 0; width := 0; height := 100 |} 10 50).1 = nan /\
  in01 (clamp01 infinity) /\ in01 (clamp01 neg_infinity).
Proof.
  split; [exact to01_in01|]. split; [exact clamp01_in01|].
  split; [reflexivity|]. split; [by intros [H _]|].
  split; [reflexivity|]. split; split; reflexivity.
Qed.

End TouchCoordinates.

(** ** src/renderer/src/components/tabs/carplay/hooks/useCarplayTouch.ts:
       useCarplayMultiTouch *)
Module MultiTouch.
Import TouchCoordinates.

(** [TouchAction] and [MultiTouchAction] of messages/sendable. *)
Inductive action := Down | Move | Up.

Inductive pointer_type := mouse | touch | pen.

Inductive event_kind :=
| pointerdown | pointermove | pointerup | pointercancel | lostpointercapture
| pointerout.

Record PointerEvent := {
  kind : event_kind;
  pointerType : pointer_type;
  pointerId : Z;
  clientX : float;
  clientY : float;
  rect : DOMRect
}.

Record MTPoint := { id : nat; x : float; y : float; act : action }.

(** What the hook sends over [window.carplay.ipc]. *)
Inductive effect :=
| sendTouch (x y : float) (a : action)
| sendMultiTouch (pts : list MTPoint).

(** The refs of the hook.  [active] is a [Map], which keeps its keys in
    the order they were first set; [freeSlots] is the array used as a
    stack, its top first here. *)
Record refs := {
  slotByPointerId : gmap Z nat;
  active : list (nat * (float * float));
  freeSlots : list nat;
  nextSlot : nat;
  mouseDown : bool
}.

Definition init : refs :=
  {| slotByPointerId := ∅; active := []; freeSlots := []; nextSlot := 0;
     mouseDown := false |}.

(** [Map.set]: a key that is there keeps its place. *)
Fixpoint map_set {V} (m : list (nat * V)) (k : nat) (v : V) : list (nat * V) :=
  match m with
  | [] => [(k, v)]
  | (k', v') :: m' =>
      if decide (k' = k) then (k, v) :: m' else (k', v') :: map_set m' k v
  end.

(** [Map.delete]. *)
Definition map_delete {V} (m : list (nat * V)) (k : nat) : list (nat * V) :=
  filter (fun kv => kv.1 <> k) m.

(** [alloc(pid)]: the refs after the call and the slot returned. *)
Definition alloc (r : refs) (pid : Z) : refs * nat :=
  match slotByPointerId r !! pid with
  | Some old => (r, old)
  | None =>
      match freeSlots r with
      | reuse :: rest =>
          ({| slotByPointerId := <[pid := reuse]> (slotByPointerId r);
              active := active r; freeSlots := rest; nextSlot := nextSlot r;
              mouseDown := mouseDown r |}, reuse)
      | [] =>
          ({| slotByPointerId := <[pid := nextSlot r]> (slotByPointerId r);
              active := active r; freeSlots := [];
              nextSlot := S (nextSlot r); mouseDown := mouseDown r |},
           nextSlot r)
      end
  end.

(** [free(pid)]. *)
Definition free (r : refs) (pid : Z) : refs :=
  match slotByPointerId r !! pid with
  | Some slot =>
      {| slotByPointerId := delete pid (slotByPointerId r);
         active := map_delete (active r) slot;
         freeSlots := slot :: freeSlots r; nextSlot := nextSlot r;
         mouseDown := mouseDown r |}
  | None => r
  end.

Definition set_active (r : refs) (slot : nat) (pos : float * float) : refs :=
  {| slotByPointerId := slotByPointerId r;
     active := map_set (active r) slot pos; freeSlots := freeSlots r;
     nextSlot := nextSlot r; mouseDown := mouseDown r |}.

Definition set_mouseDown (r : refs) (b : bool) : refs :=
  {| slotByPointerId := slotByPointerId r; active := active r;
     freeSlots := freeSlots r; nextSlot := nextSlot r; mouseDown := b |}.

(** [sendFullFrame(overrides)]; the handlers pass no map or a map with a
    single entry.  With no active pointer nothing is sent. *)
Definition sendFullFrame (r : refs) (overrides : option (nat * action))
    : list effect :=
  let pts :=
    (fun kv : nat * (float * float) =>
       {| id := kv.1; x := kv.2.1; y := kv.2.2;
          act := match overrides with
                 | Some (k, a) => if decide (k = kv.1) then a else Move
                 | None => Move
                 end |}) <$> active r in
  match pts with
  | [] => []
  | _ => [sendMultiTouch pts]
  end.

Definition onPointerDown (r : refs) (e : PointerEvent) : refs * list effect :=
  let pos := norm (rect e) (clientX e) (clientY e) in
  match pointerType e with
  | mouse => (set_mouseDown r true, [sendTouch pos.1 pos.2 Down])
  | _ =>
      let '(r1, slot) := alloc r (pointerId e) in
      let r2 := set_active r1 slot pos in
      (r2, sendFullFrame r2 (Some (slot, Down)))
  end.

Definition onPointerMove (r : refs) (e : PointerEvent) : refs * list effect :=
  let pos := norm (rect e) (clientX e) (clientY e) in
  match pointerType e with
  | mouse =>
      if mouseDown r then (r, [sendTouch pos.1 pos.2 Move]) else (r, [])
  | _ =>
      match slotByPointerId r !! pointerId e with
      | Some slot =>
          let r1 := set_active r slot pos in
          (r1, sendFullFrame r1 None)
      | None => (r, [])
      end
  end.

Definition finishPointer (r : refs) (e : PointerEvent) : refs * list effect :=
  let pos := norm (rect e) (clientX e) (clientY e) in
  match pointerType e with
  | mouse =>
      if mouseDown r
      then (set_mouseDown r false, [sendTouch pos.1 pos.2 Up])
      else (r, [])
  | _ =>
      match slotByPointerId r !! pointerId e with
      | Some slot =>
          let r1 := set_active r slot pos in
          (free r1 (pointerId e), sendFullFrame r1 (Some (slot, Up)))
      | None => (r, [])
      end
  end.

(** The handlers the hook returns, by kind of event. *)
Definition handle (r : refs) (e : PointerEvent) : refs * list effect :=
  match kind e with
  | pointerdown => onPointerDown r e
  | pointermove => onPointerMove r e
  | pointerup | pointercancel | lostpointercapture => finishPointer r e
  | pointerout => (r, [])
  end.

Definition run (r : refs) (es : list PointerEvent) : refs :=
  foldl (fun r e => (handle r e).1) r es.

(** The slots in use: those of the pointers that are down. *)
Definition live_slots (r : refs) : gset nat := map_img (slotByPointerId r).

(** The slots shown in the frames. *)
Definition active_slots (r : refs) : gset nat := list_to_set (active r).*1.

(** The action a frame shows for the pointer of the event. *)
Definition shown_action (e : PointerEvent) : action :=
  match kind e with
  | pointerdown => Down
  | pointermove | pointerout => Move
  | pointerup | pointercancel | lostpointercapture => Up
  end.

Definition finishes (e : PointerEvent) : Prop :=
  pointerType e <> mouse /\
  (kind e = pointerup \/ kind e = pointercancel \/ kind e = lostpointercapture).

(** Modelled from the spec: the pointers seen down and not yet up.  A
    mouse is not one of them, it takes the single-touch path. *)
Definition held_step (s : gset Z) (e : PointerEvent) : gset Z :=
  match pointerType e, kind e with
  | mouse, _ => s
  | _, pointerdown => {[pointerId e]} ∪ s
  | _, (pointerup | pointercancel | lostpointercapture) => s ∖ {[pointerId e]}
  | _, _ => s
  end.

Definition held (es : list PointerEvent) : gset Z := foldl held_step ∅ es.

(** The refs after an event and what the event sends. *)
Definition after (r : refs) (e : PointerEvent) : refs := (handle r e).1.
Definition sent (r : refs) (e : PointerEvent) : list effect := (handle r e).2.

(** The refs in which the pointer of the event has its slot when the frame
    is built: a pointer that comes down gets it in the call. *)
Definition framed (r : refs) (e : PointerEvent) : refs :=
  match kind e with pointerdown => after r e | _ => r end.

(** A full frame for the event: every slot in use once, the slot of the
    event at the place of the event with its action, the others where they
    were with [Move]. *)
Definition snapshot (r : refs) (e : PointerEvent) (slot : nat)
    (pts : list MTPoint) : Prop :=
  NoDup (id <$> pts) /\
  list_to_set (id <$> pts) = live_slots r ∪ {[slot]} /\
  forall pt, pt ∈ pts ->
    if decide (id pt = slot)
    then (x pt, y pt) = norm (rect e) (clientX e) (clientY e) /\
         act pt = shown_action e
    else (id pt, (x pt, y pt)) ∈ active r /\ act pt = Move.

(** The invariant of the refs. *)
Record wf (r : refs) : Prop := {
  wf_inj : forall p1 p2 s,
    slotByPointerId r !! p1 = Some s -> slotByPointerId r !! p2 = Some s ->
    p1 = p2;
  wf_nodup : NoDup (active r).*1;
  wf_live : forall s,
    s ∈ (active r).*1 <-> exists p, slotByPointerId r !! p = Some s;
  wf_free : forall s, s ∈ freeSlots r ->
    (s < nextSlot r)%nat /\ forall p, slotByPointerId r !! p <> Some s;
  wf_free_nodup : NoDup (freeSlots r);
  wf_bound : forall p s, slotByPointerId r !! p = Some s -> (s < nextSlot r)%nat
}.

(** *** [Map.set] and [Map.delete] on the ordered map *)

Lemma map_set_keys_in {V} (m : list (nat * V)) k v :
  k ∈ m.*1 -> (map_set m k v).*1 = m.*1.
Proof.
  induction m as [|[k' v'] m IH]; simpl; intros Hin.
  - by apply not_elem_of_nil in Hin.
  - destruct (decide (k' = k)) as [->|Hne]; [done|].
    csimpl. f_equal. apply IH.
    apply elem_of_cons in Hin as [Hin|Hin]; [congruence|done].
Qed.

Lemma map_set_keys_notin {V} (m : list (nat * V)) k v :
  k ∉ m.*1 -> (map_set m k v).*1 = m.*1 ++ [k].
Proof.
  induction m as [|[k' v'] m IH]; simpl; intros Hin; [done|].
  apply not_elem_of_cons in Hin as [Hne Hin].
  destruct (decide (k' = k)) as [->|_]; [done|].
  csimpl. f_equal. by apply IH.
Qed.

Lemma map_set_elem {V} (m : list (nat * V)) k v k' v' :
  (k', v') ∈ map_set m k v ->
  (k' = k /\ v' = v) \/ (k' <> k /\ (k', v') ∈ m) \/ (k' = k /\ (k', v') ∈ m).
Proof.
  induction m as [|[k0 v0] m IH]; simpl; intros Hin.
  - apply list_elem_of_singleton in Hin as [= -> ->]. by left.
  - destruct (decide (k0 = k)) as [->|Hne].
    + apply elem_of_cons in Hin as [[= -> ->]|Hin]; [by left|].
      destruct (decide (k' = k)) as [->|Hk].
      * right; right. split; [done|]. by apply list_elem_of_further.
      * right; left. split; [done|]. by apply list_elem_of_further.
    + apply elem_of_cons in Hin as [[= -> ->]|Hin].
      * right; left. split; [done|]. apply list_elem_of_here.
      * destruct (IH Hin) as [H|[[H1 H2]|[H1 H2]]]; [by left| |].
        -- right; left. split; [done|]. by apply list_elem_of_further.
        -- right; right. split; [done|]. by apply list_elem_of_further.
Qed.

Lemma map_set_elem_nodup {V} (m : list (nat * V)) k v k' v' :
  NoDup m.*1 -> (k', v') ∈ map_set m k v ->
  (k' = k /\ v' = v) \/ (k' <> k /\ (k', v') ∈ m).
Proof.
  induction m as [|[k0 v0] m IH]; simpl; intros Hnd Hin.
  - apply list_elem_of_singleton in Hin as [= -> ->]. by left.
  - apply NoDup_cons in Hnd as [Hk0 Hnd].
    destruct (decide (k0 = k)) as [->|Hne].
    + apply elem_of_cons in Hin as [[= -> ->]|Hin]; [by left|].
      right. split; [|by apply list_elem_of_further].
      intros ->. apply Hk0. apply list_elem_of_fmap. by exists (k, v').
    + apply elem_of_cons in Hin as [[= -> ->]|Hin].
      * right. split; [done|apply list_elem_of_here].
      * destruct (IH Hnd Hin) as [H|[H1 H2]]; [by left|].
        right. split; [done|by apply list_elem_of_further].
Qed.

Lemma map_delete_keys {V} (m : list (nat * V)) k :
  (map_delete m k).*1 = filter (fun k' => k' <> k) m.*1.
Proof.
  unfold map_delete. induction m as [|[k' v'] m IH]; [done|].
  csimpl. rewrite !filter_cons. simpl.
  destruct (decide (k' <> k)); csimpl; by rewrite IH.
Qed.

Lemma map_set_keys_set {V} (m : list (nat * V)) k v :
  list_to_set (C := gset nat) (map_set m k v).*1 = list_to_set m.*1 ∪ {[k]}.
Proof.
  destruct (decide (k ∈ m.*1)) as [Hin|Hin].
  - rewrite map_set_keys_in by done. set_solver.
  - rewrite map_set_keys_notin by done. set_solver.
Qed.

Lemma map_set_keys_nodup {V} (m : list (nat * V)) k v :
  NoDup m.*1 -> NoDup (map_set m k v).*1.
Proof.
  intros Hnd. destruct (decide (k ∈ m.*1)) as [Hin|Hin].
  - by rewrite map_set_keys_in.
  - rewrite map_set_keys_notin by done. apply NoDup_app. split; [done|].
    split; [|apply NoDup_singleton].
    intros x Hx Hk. apply list_elem_of_singleton in Hk. by subst.
Qed.

Lemma map_set_keys_elem {V} (m : list (nat * V)) k v s :
  s ∈ (map_set m k v).*1 <-> s ∈ m.*1 \/ s = k.
Proof.
  destruct (decide (k ∈ m.*1)) as [Hin|Hin].
  - rewrite map_set_keys_in by done. naive_solver.
  - rewrite map_set_keys_notin by done. rewrite elem_of_app.
    by rewrite list_elem_of_singleton.
Qed.

(** *** The invariant *)

Lemma wf_init : wf init.
Proof.
  split; simpl.
  - intros p1 p2 s H. by rewrite lookup_empty in H.
  - apply NoDup_nil_2.
  - intros s. split.
    + intros H. by apply not_elem_of_nil in H.
    + intros [p H]. by rewrite lookup_empty in H.
  - intros s H. by apply not_elem_of_nil in H.
  - apply NoDup_nil_2.
  - intros p s H. by rewrite lookup_empty in H.
Qed.

Lemma wf_set_mouseDown r b : wf r -> wf (set_mouseDown r b).
Proof. by intros []. Qed.

Lemma wf_set_active r slot pos :
  wf r -> slot ∈ (active r).*1 -> wf (set_active r slot pos).
Proof.
  intros [Hinj Hnd Hlive Hfree Hfnd Hb] Hin.
  split; simpl; rewrite ?map_set_keys_in by done; done.
Qed.

Lemma wf_down r pid pos :
  wf r -> wf (set_active (alloc r pid).1 (alloc r pid).2 pos).
Proof.
  intros Hwf. unfold alloc.
  destruct (slotByPointerId r !! pid) as [old|] eqn:Hpid.
  { apply wf_set_active; [done|]. apply (wf_live r Hwf). by exists pid. }
  destruct Hwf as [Hinj Hnd Hlive Hfree Hfnd Hb].
  destruct (freeSlots r) as [|reuse rest] eqn:Hf; simpl.
  - assert (Hfresh : forall p, slotByPointerId r !! p <> Some (nextSlot r)).
    { intros p Hp. apply Hb in Hp. lia. }
    split; simpl.
    + intros p1 p2 s H1 H2.
      apply lookup_insert_Some in H1 as [[<- <-]|[Hn1 H1]];
        apply lookup_insert_Some in H2 as [[<- Hs]|[Hn2 H2]];
        subst; try done; try (by destruct (Hfresh _ H1));
        try (by destruct (Hfresh _ H2)); eauto.
    + by apply map_set_keys_nodup.
    + intros s. rewrite map_set_keys_elem, Hlive. split.
      * intros [[p Hp]| ->].
        -- exists p. rewrite lookup_insert_ne; [done|congruence].
        -- exists pid. by rewrite lookup_insert_eq.
      * intros [p Hp]. apply lookup_insert_Some in Hp as [[<- <-]|[Hn Hp]];
          [by right|left; by exists p].
    + intros s H. by apply not_elem_of_nil in H.
    + apply NoDup_nil_2.
    + intros p s Hp. apply lookup_insert_Some in Hp as [[<- <-]|[Hn Hp]];
        [lia|]. apply Hb in Hp. lia.
  - assert (Hre : (reuse < nextSlot r)%nat /\
                  forall p, slotByPointerId r !! p <> Some reuse).
    { apply Hfree. apply list_elem_of_here. }
    destruct Hre as [Hlt Hfresh].
    apply NoDup_cons in Hfnd as [Hnotin Hfnd].
    split; simpl.
    + intros p1 p2 s H1 H2.
      apply lookup_insert_Some in H1 as [[<- <-]|[Hn1 H1]];
        apply lookup_insert_Some in H2 as [[<- Hs]|[Hn2 H2]];
        subst; try done; try (by destruct (Hfresh _ H1));
        try (by destruct (Hfresh _ H2)); eauto.
    + by apply map_set_keys_nodup.
    + intros s. rewrite map_set_keys_elem, Hlive. split.
      * intros [[p Hp]| ->].
        -- exists p. rewrite lookup_insert_ne; [done|congruence].
        -- exists pid. by rewrite lookup_insert_eq.
      * intros [p Hp]. apply lookup_insert_Some in Hp as [[<- <-]|[Hn Hp]];
          [by right|left; by exists p].
    + intros s Hs.
      destruct (Hfree s (list_elem_of_further _ _ _ Hs)) as [Hs1 Hs2].
      split; [done|]. intros p Hp.
      apply lookup_insert_Some in Hp as [[<- <-]|[Hn Hp]]; [done|].
      by apply (Hs2 p).
    + done.
    + intros p s Hp. apply lookup_insert_Some in Hp as [[<- <-]|[Hn Hp]];
        [done|]. by apply (Hb p).
Qed.

Lemma wf_free_pointer r pid : wf r -> wf (free r pid).
Proof.
  intros Hwf. unfold free.
  destruct (slotByPointerId r !! pid) as [slot|] eqn:Hpid; [|done].
  destruct Hwf as [Hinj Hnd Hlive Hfree Hfnd Hb].
  split; simpl.
  - intros p1 p2 s H1 H2.
    apply lookup_delete_Some in H1 as [_ H1].
    apply lookup_delete_Some in H2 as [_ H2]. by apply (Hinj p1 p2 s).
  - rewrite map_delete_keys. by apply NoDup_filter.
  - intros s. rewrite map_delete_keys, list_elem_of_filter, Hlive. split.
    + intros [Hne [p Hp]]. exists p. apply lookup_delete_Some.
      split; [|done]. intros <-. congruence.
    + intros [p Hp]. apply lookup_delete_Some in Hp as [Hne Hp].
      split; [|by exists p]. intros ->. apply Hne.
      by apply (Hinj pid p slot).
  - intros s Hs. apply elem_of_cons in Hs as [->|Hs].
    + split; [by apply (Hb pid)|]. intros p Hp.
      apply lookup_delete_Some in Hp as [Hne Hp]. apply Hne.
      by apply (Hinj pid p slot).
    + destruct (Hfree s Hs) as [Hs1 Hs2]. split; [done|]. intros p Hp.
      apply lookup_delete_Some in Hp as [Hne Hp]. by apply (Hs2 p).
  - apply NoDup_cons. split; [|done]. intros Hs.
    destruct (Hfree slot Hs) as [_ Hs2]. by apply (Hs2 pid).
  - intros p s Hp. apply lookup_delete_Some in Hp as [Hne Hp].
    by apply (Hb p).
Qed.

Lemma wf_handle r e : wf r -> wf (after r e).
Proof.
  intros Hwf. unfold after, handle.
  assert (Hdown : wf (onPointerDown r e).1).
  { unfold onPointerDown. destruct (pointerType e);
      [by apply wf_set_mouseDown| |];
      pose proof (wf_down r (pointerId e)
                    (norm (rect e) (clientX e) (clientY e)) Hwf) as H;
      by destruct (alloc r (pointerId e)). }
  assert (Hmove : wf (onPointerMove r e).1).
  { unfold onPointerMove. destruct (pointerType e);
      [by destruct (mouseDown r)| |];
      (destruct (slotByPointerId r !! pointerId e) as [slot|] eqn:Hp;
       [|done]; simpl; apply wf_set_active; [done|];
       apply (wf_live r Hwf); by exists (pointerId e)). }
  assert (Hfin : wf (finishPointer r e).1).
  { unfold finishPointer. destruct (pointerType e);
      [destruct (mouseDown r); [by apply wf_set_mouseDown|done]| |];
      (destruct (slotByPointerId r !! pointerId e) as [slot|] eqn:Hp;
       [|done]; simpl; apply wf_free_pointer, wf_set_active; [done|];
       apply (wf_live r Hwf); by exists (pointerId e)). }
  by destruct (kind e).
Qed.

Lemma run_snoc r es e : run r (es ++ [e]) = after (run r es) e.
Proof. unfold run. by rewrite foldl_app. Qed.

Lemma wf_run es : wf (run init es).
Proof.
  induction es as [|e es IH] using rev_ind; [apply wf_init|].
  rewrite run_snoc. by apply wf_handle.
Qed.

Lemma wf_slots r : wf r -> active_slots r = live_slots r.
Proof.
  intros Hwf. unfold active_slots, live_slots. apply set_eq. intros s.
  rewrite elem_of_list_to_set, elem_of_map_img. apply (wf_live r Hwf).
Qed.

(** *** The pointers that are down *)

Lemma dom_after r e :
  dom (slotByPointerId (after r e)) = held_step (dom (slotByPointerId r)) e.
Proof.
  unfold after, handle, held_step, onPointerDown, onPointerMove,
    finishPointer, alloc, free.
  destruct (pointerType e), (kind e); simpl;
    try (by destruct (mouseDown r));
    destruct (slotByPointerId r !! pointerId e) as [slot|] eqn:Hp;
    try destruct (freeSlots r) as [|reuse rest];
    simpl; rewrite ?Hp; simpl; rewrite ?dom_insert_L, ?dom_delete_L;
    try done;
    try (apply elem_of_dom_2 in Hp; set_solver);
    try (apply not_elem_of_dom in Hp; set_solver).
Qed.

Lemma dom_run es : dom (slotByPointerId (run init es)) = held es.
Proof.
  induction es as [|e es IH] using rev_ind.
  - simpl. apply dom_empty_L.
  - rewrite run_snoc, dom_after, IH. unfold held. by rewrite foldl_app.
Qed.

(** *** The frames *)

Lemma sendFullFrame_spec r slot pos ov a :
  NoDup (active r).*1 ->
  ov = Some (slot, a) \/ (ov = None /\ a = Move) ->
  exists pts,
    sendFullFrame (set_active r slot pos) ov = [sendMultiTouch pts] /\
    id <$> pts = (map_set (active r) slot pos).*1 /\
    forall pt, pt ∈ pts ->
      if decide (id pt = slot)
      then (x pt, y pt) = pos /\ act pt = a
      else (id pt, (x pt, y pt)) ∈ active r /\ act pt = Move.
Proof.
  intros Hnd Hov. unfold sendFullFrame. simpl.
  set (f := fun kv : nat * (float * float) => _).
  exists (f <$> map_set (active r) slot pos). split; [|split].
  - destruct (active r) as [|[k v] m]; simpl; [done|].
    by destruct (decide (k = slot)).
  - rewrite <- list_fmap_compose. by apply list_fmap_ext.
  - intros pt Hpt. apply list_elem_of_fmap in Hpt as [[k [vx vy]] [-> Hkv]].
    apply map_set_elem_nodup in Hkv; [|done].
    destruct Hkv as [[-> <-]|[Hne Hkv]].
    + simpl. rewrite decide_True by done. split; [done|].
      destruct Hov as [->|[-> ->]]; [|done]. by rewrite decide_True.
    + simpl. rewrite decide_False by done. split; [done|].
      destruct Hov as [->|[-> ->]]; [|done].
      rewrite decide_False; [done|congruence].
Qed.

Lemma frame_snapshot r e slot ov :
  wf r ->
  ov = Some (slot, shown_action e) \/ (ov = None /\ shown_action e = Move) ->
  exists pts,
    sendFullFrame
      (set_active r slot (norm (rect e) (clientX e) (clientY e))) ov
      = [sendMultiTouch pts] /\
    NoDup (id <$> pts) /\
    list_to_set (C := gset nat) (id <$> pts) = active_slots r ∪ {[slot]} /\
    forall pt, pt ∈ pts ->
      if decide (id pt = slot)
      then (x pt, y pt) = norm (rect e) (clientX e) (clientY e) /\
           act pt = shown_action e
      else (id pt, (x pt, y pt)) ∈ active r /\ act pt = Move.
Proof.
  intros Hwf Hov.
  destruct (sendFullFrame_spec r slot
              (norm (rect e) (clientX e) (clientY e)) ov (shown_action e)
              (wf_nodup r Hwf) Hov) as (pts & Hs & Hid & Hpts).
  exists pts. split; [done|]. rewrite Hid. split; [|split; [|done]].
  - apply map_set_keys_nodup, (wf_nodup r Hwf).
  - apply map_set_keys_set.
Qed.

Lemma touch_frame r e :
  wf r -> pointerType e <> mouse ->
  kind e = pointerdown \/
    (is_Some (slotByPointerId r !! pointerId e) /\ kind e <> pointerout) ->
  exists slot pts,
    slotByPointerId (framed r e) !! pointerId e = Some slot /\
    sent r e = [sendMultiTouch pts] /\ snapshot r e slot pts.
Proof.
  intros Hwf Hty Hk. unfold snapshot. rewrite <- (wf_slots r Hwf).
  assert (Hdown : kind e = pointerdown -> exists slot pts,
            slotByPointerId (onPointerDown r e).1 !! pointerId e = Some slot /\
            (onPointerDown r e).2 = [sendMultiTouch pts] /\
            NoDup (id <$> pts) /\
            list_to_set (C := gset nat) (id <$> pts)
              = active_slots r ∪ {[slot]} /\
            forall pt, pt ∈ pts ->
              if decide (id pt = slot)
              then (x pt, y pt) = norm (rect e) (clientX e) (clientY e) /\
                   act pt = shown_action e
              else (id pt, (x pt, y pt)) ∈ active r /\ act pt = Move).
  { intros Hkind. unfold onPointerDown.
    assert (Hact : forall q, active (alloc r q).1 = active r).
    { intros q. unfold alloc. destruct (slotByPointerId r !! q); [done|].
      by destruct (freeSlots r). }
    assert (Hslot : slotByPointerId (alloc r (pointerId e)).1 !! pointerId e
                    = Some (alloc r (pointerId e)).2).
    { unfold alloc.
      destruct (slotByPointerId r !! pointerId e) eqn:Hp; [done|].
      destruct (freeSlots r); simpl; by rewrite lookup_insert_eq. }
    assert (Hsh : shown_action e = Down) by (unfold shown_action; by rewrite Hkind).
    pose proof (sendFullFrame_spec (alloc r (pointerId e)).1
                  (alloc r (pointerId e)).2
                  (norm (rect e) (clientX e) (clientY e))
                  (Some ((alloc r (pointerId e)).2, Down)) Down) as Hf.
    rewrite Hact in Hf.
    destruct Hf as (pts & Hs & Hid & Hpts); [apply (wf_nodup r Hwf)|by left|].
    exists (alloc r (pointerId e)).2, pts. rewrite Hsh.
    destruct (alloc r (pointerId e)) as [r1 slot]. simpl in *.
    destruct (pointerType e); [done| |];
      (split; [done|]; split; [done|]; rewrite Hid;
       split; [apply map_set_keys_nodup, (wf_nodup r Hwf)|];
       split; [apply map_set_keys_set|done]). }
  unfold framed, sent, after, handle.
  destruct (kind e) eqn:Hkind.
  - by apply Hdown.
  - destruct Hk as [|[[slot Hp] _]]; [done|].
    destruct (frame_snapshot r e slot None Hwf) as (pts & Hs & H1 & H2 & H3).
    { right. split; [done|]. unfold shown_action. by rewrite Hkind. }
    exists slot, pts. unfold onPointerMove. rewrite Hp.
    by destruct (pointerType e).
  - destruct Hk as [|[[slot Hp] _]]; [done|].
    destruct (frame_snapshot r e slot (Some (slot, Up)) Hwf)
      as (pts & Hs & H1 & H2 & H3).
    { left. unfold shown_action. by rewrite Hkind. }
    exists slot, pts. unfold finishPointer. rewrite Hp.
    by destruct (pointerType e).
  - destruct Hk as [|[[slot Hp] _]]; [done|].
    destruct (frame_snapshot r e slot (Some (slot, Up)) Hwf)
      as (pts & Hs & H1 & H2 & H3).
    { left. unfold shown_action. by rewrite Hkind. }
    exists slot, pts. unfold finishPointer. rewrite Hp.
    by destruct (pointerType e).
  - destruct Hk as [|[[slot Hp] _]]; [done|].
    destruct (frame_snapshot r e slot (Some (slot, Up)) Hwf)
      as (pts & Hs & H1 & H2 & H3).
    { left. unfold shown_action. by rewrite Hkind. }
    exists slot, pts. unfold finishPointer. rewrite Hp.
    by destruct (pointerType e).
  - by destruct Hk as [|[_ ?]].
Qed.

Lemma mouse_single_touch r e :
  pointerType e = mouse ->
  slotByPointerId (after r e) = slotByPointerId r /\
  active (after r e) = active r /\
  forall pts, sendMultiTouch pts ∉ sent r e.
Proof.
  intros Hty. unfold after, sent, handle, onPointerDown, onPointerMove,
    finishPointer. rewrite Hty.
  destruct (kind e), (mouseDown r); simpl; (split; [done|]; split; [done|]);
    intros pts Hin;
    repeat (apply elem_of_cons in Hin as [Hin|Hin]; [done|]);
    by apply not_elem_of_nil in Hin.
Qed.

Lemma idle_event r e :
  pointerType e <> mouse -> kind e <> pointerdown ->
  slotByPointerId r !! pointerId e = None \/ kind e = pointerout ->
  sent r e = [] /\ after r e = r.
Proof.
  intros Hty Hk Hidle. unfold after, sent, handle, onPointerMove,
    finishPointer.
  destruct (kind e); try done;
    (destruct Hidle as [->|]; [|done]); by destruct (pointerType e).
Qed.

(** *** The slots *)

Lemma slot_kept r e p s :
  slotByPointerId r !! p = Some s ->
  slotByPointerId (after r e) !! p = Some s \/
  (p = pointerId e /\ finishes e /\
   slotByPointerId (after r e) !! p = None /\
   head (freeSlots (after r e)) = Some s).
Proof.
  intros Hp. unfold after, handle, finishes, onPointerDown, onPointerMove,
    finishPointer, alloc, free.
  destruct (decide (p = pointerId e)) as [->|Hne].
  - rewrite Hp. simpl. rewrite Hp.
    destruct (pointerType e), (kind e); simpl;
      try (by left); try (destruct (mouseDown r); by left);
      right; rewrite lookup_delete_eq; naive_solver.
  - destruct (pointerType e), (kind e); simpl;
      try (by left); try (destruct (mouseDown r); by left);
      destruct (slotByPointerId r !! pointerId e) as [slot|] eqn:He;
      simpl; rewrite ?He; try (by left);
      try (destruct (freeSlots r); simpl; left;
           by rewrite lookup_insert_ne);
      simpl; left; by rewrite lookup_delete_ne.
Qed.

Lemma alloc_fresh r pid :
  wf r -> slotByPointerId r !! pid = None ->
  ((alloc r pid).2 ∉ live_slots r) /\
  (head (freeSlots r) = Some (alloc r pid).2 \/
   (freeSlots r = [] /\ (alloc r pid).2 = nextSlot r)).
Proof.
  intros Hwf Hp. unfold alloc, live_slots. rewrite Hp.
  destruct (freeSlots r) as [|reuse rest] eqn:Hf; simpl.
  - split; [|by right]. rewrite elem_of_map_img. intros [q Hq].
    apply (wf_bound r Hwf) in Hq. lia.
  - split; [|by left]. rewrite elem_of_map_img. intros [q Hq].
    destruct (wf_free r Hwf reuse) as [_ Hfresh].
    { rewrite Hf. apply list_elem_of_here. }
    by apply (Hfresh q).
Qed.

Lemma slot_given r e p s :
  wf r ->
  slotByPointerId (after r e) !! p = Some s ->
  slotByPointerId r !! p = Some s \/
  (p = pointerId e /\ kind e = pointerdown /\ pointerType e <> mouse /\
   slotByPointerId r !! p = None /\ (s ∉ live_slots r) /\
   (head (freeSlots r) = Some s \/ (freeSlots r = [] /\ s = nextSlot r))).
Proof.
  intros Hwf. unfold after, handle.
  assert (Hmove : slotByPointerId (onPointerMove r e).1 = slotByPointerId r).
  { unfold onPointerMove. destruct (pointerType e);
      [by destruct (mouseDown r)| |];
      by destruct (slotByPointerId r !! pointerId e). }
  assert (Hfin : forall q t, slotByPointerId (finishPointer r e).1 !! q = Some t ->
                   slotByPointerId r !! q = Some t).
  { intros q t. unfold finishPointer, free. destruct (pointerType e);
      [by destruct (mouseDown r)| |];
      (destruct (slotByPointerId r !! pointerId e) as [slot|] eqn:He;
       [|done]; simpl; rewrite He; simpl; intros Hq;
       by apply lookup_delete_Some in Hq as [_ Hq]). }
  destruct (kind e) eqn:Hkind; try (intros Hp; left; by auto);
    try (rewrite Hmove; by left).
  unfold onPointerDown.
  destruct (slotByPointerId r !! pointerId e) as [old|] eqn:He.
  { unfold alloc. rewrite He. destruct (pointerType e); by left. }
  pose proof (alloc_fresh r (pointerId e) Hwf He) as [Hfresh Hhead].
  assert (Hmap : slotByPointerId (alloc r (pointerId e)).1
                 = <[pointerId e := (alloc r (pointerId e)).2]>
                     (slotByPointerId r)).
  { unfold alloc. rewrite He. by destruct (freeSlots r). }
  destruct (alloc r (pointerId e)) as [r1 slot]. simpl in *.
  destruct (pointerType e) eqn:Hty; [by left| |]; simpl; rewrite Hmap;
    intros Hp; (apply lookup_insert_Some in Hp as [[<- <-]|[Hne Hp]];
                [right; by repeat split|by left]).
Qed.

(** C7, as amended.  After any sequence of pointer events, for the next
    event: the
    pointers that hold a slot are those seen down and not yet up, the slots
    of the active map are the slots they hold, and no two of them share
    one.  An event of a touch or pen pointer that comes down, or that moves
    or ends while the pointer is down, sends exactly one frame with every
    slot in use once: the slot of the event at the place of the event with
    Down, Move or Up, every other at its last place with Move.  Other
    events of such pointers send nothing and change nothing; a mouse sends
    no frame and takes no slot.  A pointer keeps its slot until its own up,
    cancel or loss of capture, which puts the slot on top of the free
    slots; a slot is given only at the pointerdown of a pointer without
    one, and it is the top free slot, or the next new one when none is
    free, in both cases a slot no pointer holds. *)
Theorem full_frame_snapshots (es : list PointerEvent) (e : PointerEvent) :
  (dom (slotByPointerId (run init es)) = held es /\
   active_slots (run init es) = live_slots (run init es) /\
   (forall p1 p2 s,
      slotByPointerId (run init es) !! p1 = Some s ->
      slotByPointerId (run init es) !! p2 = Some s -> p1 = p2)) /\
  (pointerType e <> mouse ->
   kind e = pointerdown \/ (pointerId e ∈ held es /\ kind e <> pointerout) ->
   exists slot pts,
     slotByPointerId (framed (run init es) e) !! pointerId e = Some slot /\
     sent (run init es) e = [sendMultiTouch pts] /\
     snapshot (run init es) e slot pts) /\
  (pointerType e <> mouse -> kind e <> pointerdown ->
   (pointerId e ∉ held es) \/ kind e = pointerout ->
   sent (run init es) e = [] /\ after (run init es) e = run init es) /\
  (pointerType e = mouse ->
   slotByPointerId (after (run init es) e) = slotByPointerId (run init es) /\
   active (after (run init es) e) = active (run init es) /\
   forall pts, sendMultiTouch pts ∉ sent (run init es) e) /\
  (forall p s,
     slotByPointerId (run init es) !! p = Some s ->
     slotByPointerId (after (run init es) e) !! p = Some s \/
     (p = pointerId e /\ finishes e /\
      slotByPointerId (after (run init es) e) !! p = None /\
      head (freeSlots (after (run init es) e)) = Some s)) /\
  (forall p s,
     slotByPointerId (after (run init es) e) !! p = Some s ->
     slotByPointerId (run init es) !! p = Some s \/
     (p = pointerId e /\ kind e = pointerdown /\ pointerType e <> mouse /\
      slotByPointerId (run init es) !! p = None /\
      (s ∉ live_slots (run init es)) /\
      (head (freeSlots (run init es)) = Some s \/
       (freeSlots (run init es) = [] /\ s = nextSlot (run init es))))).
Proof.
  pose proof (wf_run es) as Hwf. pose proof (dom_run es) as Hdom.
  split; [|split; [|split; [|split; [|split]]]].
  - split; [done|]. split; [by apply wf_slots|apply (wf_inj _ Hwf)].
  - intros Hty Hk. apply touch_frame; [done..|].
    destruct Hk as [Hk|[Hin Hk]]; [by left|right]. split; [|done].
    rewrite <- Hdom in Hin. by apply elem_of_dom in Hin.
  - intros Hty Hk Hout. apply idle_event; [done..|].
    destruct Hout as [Hout|Hout]; [left|by right].
    rewrite <- Hdom in Hout. by apply not_elem_of_dom in Hout.
  - apply mouse_single_touch.
  - apply slot_kept.
  - intros p s. by apply slot_given.
Qed.

(** Two fingers and a mouse on an element of 100 by 100 pixels. *)
Definition square : DOMRect :=
  {| left := 0%float; top := 0%float; width := 100%float;
     height := 100%float |}.

Definition pointer (k : event_kind) (t : pointer_type) (pid : Z)
    (cx cy : float) : PointerEvent :=
  {| kind := k; pointerType := t; pointerId := pid; clientX := cx;
     clientY := cy; rect := square |}.

(** A finger comes down, a second one comes down, the first one is lifted
    and a third one takes its slot. *)
Example two_fingers :
  let e1 := pointer pointerdown touch 7 50 50 in
  let e2 := pointer pointerdown touch 8 25 75 in
  let e3 := pointer pointerup touch 7 50 100 in
  let e4 := pointer pointerdown touch 9 0 0 in
  sent init e1
    = [sendMultiTouch [{| id := 0; x := 0.5; y := 0.5; act := Down |}]] /\
  sent (run init [e1]) e2
    = [sendMultiTouch [{| id := 0; x := 0.5; y := 0.5; act := Move |};
                       {| id := 1; x := 0.25; y := 0.75; act := Down |}]] /\
  sent (run init [e1; e2]) e3
    = [sendMultiTouch [{| id := 0; x := 0.5; y := 1; act := Up |};
                       {| id := 1; x := 0.25; y := 0.75; act := Move |}]] /\
  sent (run init [e1; e2; e3]) e4
    = [sendMultiTouch [{| id := 1; x := 0.25; y := 0.75; act := Move |};
                       {| id := 0; x := 0; y := 0; act := Down |}]].
Proof. repeat split; vm_compute; reflexivity. Qed.

(** With a finger down, the press of a mouse button sends a single-touch
    message and no frame; the finger is in no message of that update. *)
Lemma mouse_update_single_touch :
  active (run init [pointer pointerdown touch 7 50 50])
    = [(0%nat, (0.5%float, 0.5%float))] /\
  sent (run init [pointer pointerdown touch 7 50 50])
       (pointer pointerdown mouse 1 25 75)
    = [sendTouch 0.25 0.75 Down].
Proof. split; vm_compute; reflexivity. Qed.

End MultiTouch.

(** ** [sendChunked] of the session service: the envelopes in closed form *)
Module ChunkedTransfer.
Import Messages CarplayService.

Section Chunks.
Context {meta : Type}.

(** The number of chunks of [total] bytes, [Math.ceil(total / chunkSize)]. *)
Definition chunk_count (total chunkSize : Z) : nat :=
  Z.to_nat ((total + chunkSize - 1) / chunkSize).

(** The envelope of chunk [i]. *)
Definition envelope_at (d : list Byte.byte) (chunkSize : Z)
    (ex : option AudioData) (i : nat) : envelope :=
  {| offset := Z.of_nat i * chunkSize;
     total := len d;
     isLast := bool_decide (S i = chunk_count (len d) chunkSize);
     chunk := subarray d (Z.of_nat i * chunkSize)
                (Z.min (Z.of_nat i * chunkSize + chunkSize) (len d));
     extra := ex |}.

Lemma chunk_count_spec tot cs k :
  0 < cs -> 0 <= tot ->
  (Z.of_nat k * cs < tot <-> (k < chunk_count tot cs)%nat).
Proof.
  intros Hcs Htot. unfold chunk_count.
  pose proof (Z.div_mod (tot + cs - 1) cs) as Hdm.
  pose proof (Z.mod_pos_bound (tot + cs - 1) cs Hcs) as Hm.
  assert (0 <= (tot + cs - 1) / cs) by (apply Z.div_pos; lia).
  split; intros H1.
  - apply Nat2Z.inj_lt. rewrite Z2Nat.id by done. nia.
  - apply Nat2Z.inj_lt in H1. rewrite Z2Nat.id in H1 by done. nia.
Qed.

Lemma sendChunked_loop_done fuel c d off tot cs ex :
  tot <= off ->
  sendChunked_loop (meta := meta) fuel c d off tot cs ex = [].
Proof.
  intros H. destruct fuel; simpl; [done|].
  by destruct (Z.ltb_spec off tot); [lia|].
Qed.

Lemma sendChunked_loop_closed c (d : list Byte.byte) cs ex :
  0 < cs ->
  forall (fuel k : nat),
  (k <= chunk_count (len d) cs)%nat ->
  (chunk_count (len d) cs - k <= fuel)%nat ->
  sendChunked_loop (meta := meta) fuel c d (Z.of_nat k * cs) (len d) cs ex
    = (fun i => web_chunk c (envelope_at d cs ex i))
        <$> seq k (chunk_count (len d) cs - k).
Proof.
  intros Hcs.
  assert (Hlen : 0 <= len d) by (unfold len; lia).
  induction fuel as [|fuel IH]; intros k Hk Hfuel.
  - replace (chunk_count (len d) cs - k)%nat with 0%nat by lia. done.
  - simpl. destruct (Z.ltb_spec (Z.of_nat k * cs) (len d)) as [Hlt|Hge].
    + pose proof (proj1 (chunk_count_spec (len d) cs k Hcs Hlen) Hlt) as Hkn.
      replace (chunk_count (len d) cs - k)%nat
        with (S (chunk_count (len d) cs - S k)) by lia.
      csimpl. f_equal.
      * unfold envelope_at. f_equal. f_equal.
        destruct (decide (S k = chunk_count (len d) cs)) as [E|E].
        -- rewrite bool_decide_eq_true_2 by done. apply Z.leb_le.
           assert (~ Z.of_nat (S k) * cs < len d).
           { rewrite chunk_count_spec by done. lia. }
           lia.
        -- rewrite bool_decide_eq_false_2 by done. apply Z.leb_gt.
           assert (Z.of_nat (S k) * cs < len d).
           { rewrite chunk_count_spec by done. lia. }
           lia.
      * destruct (decide (S k = chunk_count (len d) cs)) as [E|E].
        -- replace (chunk_count (len d) cs - S k)%nat with 0%nat by lia.
           apply sendChunked_loop_done.
           assert (~ Z.of_nat (S k) * cs < len d).
           { rewrite chunk_count_spec by done. lia. }
           lia.
        -- assert (Z.of_nat (S k) * cs < len d).
           { rewrite chunk_count_spec by done. lia. }
           replace (Z.min (Z.of_nat k * cs + cs) (len d))
             with (Z.of_nat (S k) * cs) by lia.
           apply IH; lia.
    + assert (~ (k < chunk_count (len d) cs)%nat).
      { rewrite <- chunk_count_spec by done. lia. }
      replace (chunk_count (len d) cs - k)%nat with 0%nat by lia. done.
Qed.

Lemma chunk_count_le tot cs :
  0 < cs -> 0 <= tot -> (chunk_count tot cs <= Z.to_nat tot)%nat.
Proof.
  intros Hcs Htot. unfold chunk_count. apply Z2Nat.inj_le; [|done|].
  - apply Z.div_pos; lia.
  - destruct (decide (tot = 0)) as [->|Hne].
    + rewrite Z.div_small; lia.
    + apply Z.div_le_upper_bound; [done|]. nia.
Qed.

(** X1.  With a renderer attached and a positive chunk size, [sendChunked]
    sends ceil(total / chunkSize) envelopes and nothing else: envelope i
    starts at offset i * chunkSize, carries the bytes from there up to the
    next offset or the end of the buffer, names the total, and is marked
    last exactly when it is the final one; their chunks put end to end are
    the buffer.  An empty buffer sends nothing. *)
Theorem sendChunked_envelopes (s : service) (c : channel)
    (d : list Byte.byte) (chunkSize : Z) (ex : option AudioData) :
  0 < chunkSize -> webContents s = true ->
  sendChunked (meta := meta) s c (Some d) chunkSize ex
    = (fun i => web_chunk c (envelope_at d chunkSize ex i))
        <$> seq 0 (chunk_count (len d) chunkSize) /\
  concat ((fun i => chunk (envelope_at d chunkSize ex i))
            <$> seq 0 (chunk_count (len d) chunkSize)) = d /\
  (d = [] -> sendChunked (meta := meta) s c (Some d) chunkSize ex = []).
Proof.
  intros Hcs Hweb.
  assert (Hlen : 0 <= len d) by (unfold len; lia).
  assert (Hclosed :
    sendChunked (meta := meta) s c (Some d) chunkSize ex
    = (fun i => web_chunk c (envelope_at d chunkSize ex i))
        <$> seq 0 (chunk_count (len d) chunkSize)).
  { unfold sendChunked. rewrite Hweb.
    pose proof (sendChunked_loop_closed c d chunkSize ex Hcs (length d) 0) as H.
    rewrite Nat.sub_0_r in H. apply H; [lia|].
    pose proof (chunk_count_le (len d) chunkSize Hcs Hlen). unfold len in *. lia. }
  split; [done|]. split.
  - destruct (Session.sendChunked_loop_covers (meta := meta) c d chunkSize ex
                Hcs (length d) 0) as (envs & Hloop & Hcat & _).
    { unfold len; lia. } { unfold len; lia. }
    unfold sendChunked in Hclosed. rewrite Hweb, Hloop in Hclosed.
    rewrite drop_0 in Hcat.
    assert (Henvs : web_chunk (meta := meta) c <$> envs
                    = web_chunk c <$> (envelope_at d chunkSize ex
                        <$> seq 0 (chunk_count (len d) chunkSize))).
    { rewrite <- list_fmap_compose. exact Hclosed. }
    assert (Hinj : Inj (=) (=) (web_chunk (meta := meta) c)).
    { by intros x y [= ->]. }
    apply (list_fmap_eq_inj _ _ _) in Henvs.
    etrans; [|exact Hcat]. f_equal.
    by rewrite Henvs, <- list_fmap_compose.
  - intros ->. rewrite Hclosed. unfold chunk_count.
    change (len (@nil Byte.byte)) with 0.
    by rewrite Z.div_small by lia.
Qed.

End Chunks.

Definition some_bytes : list Byte.byte :=
  [Byte.x01; Byte.x02; Byte.x03; Byte.x04; Byte.x05].

Lemma sendChunked_envelopes_witness :
  sendChunked (meta := unit) (attachRenderer create) carplay_video_chunk
    (Some some_bytes) 2 None
  = [web_chunk carplay_video_chunk
       {| offset := 0; total := 5; isLast := false;
          chunk := [Byte.x01; Byte.x02]; extra := None |};
     web_chunk carplay_video_chunk
       {| offset := 2; total := 5; isLast := false;
          chunk := [Byte.x03; Byte.x04]; extra := None |};
     web_chunk carplay_video_chunk
       {| offset := 4; total := 5; isLast := true;
          chunk := [Byte.x05]; extra := None |}].
Proof.
  destruct (sendChunked_envelopes (meta := unit) (attachRenderer create)
              carplay_video_chunk some_bytes 2 None) as (H & _ & _);
    [done|done|].
  rewrite H. reflexivity.
Defined.

End ChunkedTransfer.

(** ** The render worker once the stream runs, and when it does not *)
Module DecoderStream.
Import RendererWorker.

Section Stream.
Context {config : Type}.
Variable getNaluFromStream_SPS : list Byte.byte -> option (list Byte.byte).
Variable isKeyFrame : list Byte.byte -> bool.
Variable getDecoderConfig : list Byte.byte -> option config.

Local Abbreviation processRaw :=
  (processRaw getNaluFromStream_SPS isKeyFrame getDecoderConfig).
Local Abbreviation step := (step getNaluFromStream_SPS isKeyFrame getDecoderConfig).
Local Abbreviation run := (run getNaluFromStream_SPS isKeyFrame getDecoderConfig).


(** The SPS the worker has seen last. *)
Definition observed_sps (es : list event) : option (list Byte.byte) :=
  foldl (fun acc e =>
           match e with
           | Frame buffer _ =>
               if len buffer =? 0 then acc
               else match getNaluFromStream_SPS (videoDataOf buffer) with
                    | Some raw => Some raw
                    | None => acc
                    end
           | Capabilities _ _ => acc
           end) None es.

Definition is_configure (c : config) (x : @effect config) : Prop :=
  exists a, x = configure c a.

Lemma worker_run_snoc w es e :
  run w (es ++ [e])
  = ((step (run w es).1 e).1, (run w es).2 ++ (step (run w es).1 e).2).
Proof.
  revert w. induction es as [|e' es IH]; intros w; simpl.
  - destruct (step w e) as [w1 effs]. simpl. by rewrite app_nil_r.
  - destruct (step w e') as [w1 effs] eqn:E1. rewrite IH.
    destruct (run w1 es) as [w2 effs2]. simpl.
    by rewrite app_assoc.
Qed.


Lemma step_blocked w e :
  isConfigured w = true -> awaitingValidKeyframe w = true ->
  (step w e).2 = [] /\
  isConfigured (step w e).1 = true /\
  awaitingValidKeyframe (step w e).1 = true.
Proof.
  intros Hc Ha. destruct e as [buffer dec|hw sw]; simpl; [|done].
  unfold RendererWorker.processRaw.
  destruct (len buffer =? 0); [done|].
  rewrite Hc.
  assert (Hw1 : match getNaluFromStream_SPS (videoDataOf buffer) with
                | Some _ => w
                | None => w
                end = w) by (by destruct (getNaluFromStream_SPS _)).
  rewrite Hw1, Ha, Hc. simpl.
  destruct (isKeyFrame (videoDataOf buffer)); simpl; [|done].
  destruct (lastSPS w); simpl; by rewrite Hc.
Qed.

Lemma run_blocked w es :
  isConfigured w = true -> awaitingValidKeyframe w = true ->
  (run w es).2 = [] /\
  isConfigured (run w es).1 = true /\
  awaitingValidKeyframe (run w es).1 = true.
Proof.
  revert w. induction es as [|e es IH]; intros w Hc Ha; simpl; [done|].
  destruct (step_blocked w e Hc Ha) as (H1 & H2 & H3).
  destruct (step w e) as [w1 effs]. simpl in *.
  destruct (IH w1 H2 H3) as (H4 & H5 & H6).
  destruct (run w1 es) as [w2 effs2]. simpl in *. by subst.
Qed.


(** X3.  When the worker, not yet configured, gets a keyframe for which
    the decoder takes the configuration but the [decode] call throws, it
    is left configured and still awaiting a keyframe, and from then on it
    makes no call on the decoder at all, whatever buffers arrive. *)
Theorem failed_first_decode_blocks (w : worker) (buffer raw : list Byte.byte)
    (c : config) (dec : decoder) (es : list event) :
  isConfigured w = false -> awaitingValidKeyframe w = true ->
  len buffer <> 0 ->
  isKeyFrame (videoDataOf buffer) = true ->
  match getNaluFromStream_SPS (videoDataOf buffer) with
  | Some sps => sps = raw
  | None => lastSPS w = Some raw
  end ->
  getDecoderConfig raw = Some c ->
  (rendererHwSupported w && configures_hw dec)
    || (rendererSwSupported w && configures_sw dec) = true ->
  decodes dec = false ->
  let w' := (processRaw dec w buffer).1 in
  decode key (videoDataOf buffer) ∈ (processRaw dec w buffer).2 /\
  isConfigured w' = true /\ awaitingValidKeyframe w' = true /\
  (run w' es).2 = [] /\
  isConfigured (run w' es).1 = true /\
  awaitingValidKeyframe (run w' es).1 = true.
Proof.
  intros Hc Ha Hlen Hkey Hsps Hcfg Hok Hdec w'.
  assert (Hw' : decode key (videoDataOf buffer) ∈ (processRaw dec w buffer).2 /\
                isConfigured w' = true /\ awaitingValidKeyframe w' = true).
  { subst w'. unfold RendererWorker.processRaw.
    destruct (Z.eqb_spec (len buffer) 0) as [|_]; [done|].
    rewrite Hc, Hkey.
    set (w1 := match getNaluFromStream_SPS (videoDataOf buffer) with
               | Some raw0 => set_lastSPS w raw0
               | None => w
               end).
    assert (H1 : awaitingValidKeyframe w1 = true /\ isConfigured w1 = false /\
                 rendererHwSupported w1 = rendererHwSupported w /\
                 rendererSwSupported w1 = rendererSwSupported w /\
                 lastSPS w1 = Some raw).
    { unfold w1. destruct (getNaluFromStream_SPS _); by subst. }
    destruct H1 as (Ha1 & Hc1 & Hhw & Hsw & Hl). clearbody w1.
    rewrite Ha1, Hl, Hc1, Hcfg. simpl.
    destruct (configureDecoder dec w1 c) as [[w2 effs] ok] eqn:Hcd.
    destruct (configureDecoder_spec _ _ _ _ _ _ Hcd)
      as (_ & Hl2 & Ha2 & _ & _ & Hc2 & Hok2).
    rewrite Hhw, Hsw, Hok in Hok2. subst ok. rewrite Hdec. simpl.
    split; [|by rewrite Hc2, Ha2, Ha1].
    apply elem_of_app. right. apply list_elem_of_here. }
  destruct Hw' as (Hin & Hc' & Ha').
  split; [done|]. split; [done|]. split; [done|].
  by apply run_blocked.
Qed.

Lemma step_waiting w e :
  isConfigured w = false -> awaitingValidKeyframe w = true ->
  shows_key isKeyFrame e = false ->
  (step w e).2 = [] /\
  isConfigured (step w e).1 = false /\
  awaitingValidKeyframe (step w e).1 = true /\
  forall p, lastSPS w = observed_sps p ->
            lastSPS (step w e).1 = observed_sps (p ++ [e]).
Proof.
  intros Hc Ha Hk. unfold observed_sps.
  destruct e as [buffer dec|hw sw]; simpl.
  2:{ repeat split; try done. intros p Hp. by rewrite foldl_app. }
  simpl in Hk. unfold RendererWorker.processRaw.
  destruct (Z.eqb_spec (len buffer) 0) as [E0|E0].
  { repeat split; try done. intros p Hp. rewrite foldl_app. simpl.
    by destruct (Z.eqb_spec (len buffer) 0). }
  simpl in Hk. rewrite Hk, Hc.
  set (w1 := match getNaluFromStream_SPS (videoDataOf buffer) with
             | Some raw0 => set_lastSPS w raw0
             | None => w
             end).
  assert (H1 : awaitingValidKeyframe w1 = true /\ isConfigured w1 = false).
  { unfold w1. by destruct (getNaluFromStream_SPS _). }
  destruct H1 as (Ha1 & Hc1). rewrite Ha1. simpl.
  repeat split; try done.
  intros p Hp. rewrite foldl_app. simpl.
  destruct (Z.eqb_spec (len buffer) 0); [done|].
  unfold w1. by destruct (getNaluFromStream_SPS _).
Qed.

Lemma run_waiting (p : list event) :
  Forall (fun e => shows_key isKeyFrame e = false) p ->
  (run create p).2 = [] /\
  isConfigured (run create p).1 = false /\
  awaitingValidKeyframe (run create p).1 = true /\
  lastSPS (run create p).1 = observed_sps p.
Proof.
  induction p as [|e p IH] using rev_ind; intros Hp; [done|].
  apply Forall_app in Hp as [Hp He]. rewrite Forall_singleton in He.
  destruct (IH Hp) as (H1 & H2 & H3 & H4).
  rewrite worker_run_snoc. simpl.
  destruct (step_waiting _ e H2 H3 He) as (H5 & H6 & H7 & H8).
  rewrite H1, H5. repeat split; try done. by apply H8.
Qed.

(** X4.  Buffers without a keyframe that arrive before the decoder is
    configured cause no call on the decoder, and the worker keeps the SPS
    of the latest of them that holds one.  The keyframe that follows
    configures the decoder from the SPS seen last, its own included: every
    [configure] call of that buffer carries the configuration derived from
    that SPS. *)
Theorem latest_sps_configures (p : list event) (buffer raw : list Byte.byte)
    (dec : decoder) (c : config) :
  Forall (fun e => shows_key isKeyFrame e = false) p ->
  len buffer <> 0 ->
  isKeyFrame (videoDataOf buffer) = true ->
  observed_sps (p ++ [Frame buffer dec]) = Some raw ->
  getDecoderConfig raw = Some c ->
  let w := (run create p).1 in
  (run create p).2 = [] /\
  lastSPS w = observed_sps p /\
  (forall x, x ∈ (processRaw dec w buffer).2 ->
     is_decode x = false -> is_configure c x) /\
  (rendererHwSupported w || rendererSwSupported w = true ->
   exists x, x ∈ (processRaw dec w buffer).2 /\ is_configure c x).
Proof.
  intros Hp Hlen Hkey Hobs Hcfg w.
  destruct (run_waiting p Hp) as (H1 & H2 & H3 & H4). fold w in H2, H3, H4.
  split; [done|]. split; [done|].
  unfold observed_sps in Hobs. rewrite foldl_app in Hobs. simpl in Hobs.
  fold (observed_sps p) in Hobs. rewrite <- H4 in Hobs.
  unfold RendererWorker.processRaw.
  destruct (Z.eqb_spec (len buffer) 0) as [|_]; [done|].
  rewrite H2, Hkey.
  set (w1 := match getNaluFromStream_SPS (videoDataOf buffer) with
             | Some raw0 => set_lastSPS w raw0
             | None => w
             end).
  assert (Hw1 : awaitingValidKeyframe w1 = true /\ isConfigured w1 = false /\
                rendererHwSupported w1 = rendererHwSupported w /\
                rendererSwSupported w1 = rendererSwSupported w /\
                lastSPS w1 = Some raw).
  { unfold w1. by destruct (getNaluFromStream_SPS _). }
  destruct Hw1 as (Ha1 & Hc1 & Hhw & Hsw & Hl1). clearbody w1.
  rewrite Ha1, Hl1, Hc1, Hcfg. simpl.
  unfold configureDecoder. rewrite Hhw, Hsw.
  destruct (rendererHwSupported w), (configures_hw dec),
    (rendererSwSupported w), (configures_sw dec), (decodes dec); simpl;
    rewrite ?Hc1, ?Ha1; simpl;
    (split;
     [ intros x Hx Hd;
       repeat (apply elem_of_cons in Hx as [->|Hx];
               [first [done|by eexists]|]);
       by apply not_elem_of_nil in Hx
     | intros Hsup;
       first [done|eexists; split; [apply list_elem_of_here|by eexists]] ]).
Qed.

End Stream.


(** A decoder that takes the configuration and throws on [decode]. *)
Definition throwing : decoder :=
  {| configures_hw := true; configures_sw := true; decodes := false |}.

Lemma failed_first_decode_blocks_witness :
  (run toy_sps toy_key toy_config
     (processRaw toy_sps toy_key toy_config throwing
        (set_capabilities create true true) [Byte.x67; Byte.x65]).1
     [Frame [Byte.x67; Byte.x65] willing; Frame [Byte.x41] willing]).2 = [].
Proof.
  by destruct (failed_first_decode_blocks toy_sps toy_key toy_config
                 (set_capabilities create true true) [Byte.x67; Byte.x65]
                 [Byte.x67] tt throwing
                 [Frame [Byte.x67; Byte.x65] willing; Frame [Byte.x41] willing]
                 eq_refl eq_refl ltac:(done) eq_refl eq_refl eq_refl eq_refl
                 eq_refl)
    as (_ & _ & _ & H & _).
Defined.

Lemma latest_sps_configures_witness :
  exists x,
    x ∈ (processRaw toy_sps toy_key toy_config willing
           (run toy_sps toy_key toy_config create
              [Capabilities false true; Frame [Byte.x67] willing;
               Frame [Byte.x41] willing]).1
           [Byte.x41; Byte.x65]).2 /\
    is_configure tt x.
Proof.
  destruct (latest_sps_configures toy_sps toy_key toy_config
              [Capabilities false true; Frame [Byte.x67] willing;
               Frame [Byte.x41] willing] [Byte.x41; Byte.x65] [Byte.x67]
              willing tt) as (_ & _ & _ & H);
    [repeat constructor|done|done|done|done|].
  by apply H.
Defined.

End DecoderStream.

(** ** The slots and the mouse of the multi-touch hook *)
Module TouchSlots.
Import TouchCoordinates MultiTouch.

(** Every slot below [nextSlot] is held by a pointer or free. *)
Definition compact (r : refs) : Prop :=
  forall s, (s < nextSlot r)%nat ->
    s ∈ freeSlots r \/ exists p, slotByPointerId r !! p = Some s.




Lemma compact_init : compact init.
Proof. intros s Hs. simpl in Hs. lia. Qed.

Lemma compact_set_active r slot pos : compact r -> compact (set_active r slot pos).
Proof. done. Qed.

Lemma compact_alloc r pid : compact r -> compact (alloc r pid).1.
Proof.
  intros Hc. unfold alloc.
  destruct (slotByPointerId r !! pid) as [old|] eqn:Hp; [done|].
  destruct (freeSlots r) as [|reuse rest] eqn:Hf; intros s Hs; simpl in *.
  - right. destruct (decide (s = nextSlot r)) as [->|Hne].
    + exists pid. by rewrite lookup_insert_eq.
    + destruct (Hc s) as [Hin|[p Hq]]; [lia| |].
      * rewrite Hf in Hin. by apply not_elem_of_nil in Hin.
      * exists p. rewrite lookup_insert_ne; [done|congruence].
  - destruct (Hc s Hs) as [Hin|[p Hq]].
    + rewrite Hf in Hin. apply elem_of_cons in Hin as [->|Hin]; [|by left].
      right. exists pid. by rewrite lookup_insert_eq.
    + right. exists p. rewrite lookup_insert_ne; [done|congruence].
Qed.

Lemma compact_free r pid : compact r -> compact (free r pid).
Proof.
  intros Hc. unfold free.
  destruct (slotByPointerId r !! pid) as [slot|] eqn:Hp; [|done].
  intros s Hs; simpl in *.
  destruct (Hc s Hs) as [Hin|[p Hq]].
  - left. by apply list_elem_of_further.
  - destruct (decide (p = pid)) as [->|Hne].
    + left. replace s with slot by congruence. apply list_elem_of_here.
    + right. exists p. by rewrite lookup_delete_ne.
Qed.

Lemma compact_after r e : compact r -> compact (after r e).
Proof.
  intros Hc. unfold after, handle, onPointerDown, onPointerMove, finishPointer.
  pose proof (compact_alloc r (pointerId e) Hc) as Ha.
  destruct (alloc r (pointerId e)) as [r1 slot].
  destruct (kind e), (pointerType e); simpl; try done;
    try (by destruct (mouseDown r));
    destruct (slotByPointerId r !! pointerId e) eqn:Hp; try done;
    by apply compact_free.
Qed.

Lemma compact_run es : compact (run init es).
Proof.
  induction es as [|e es IH] using rev_ind; [apply compact_init|].
  rewrite MultiTouch.run_snoc. by apply compact_after.
Qed.

Lemma nextSlot_after r e :
  nextSlot (after r e) = nextSlot r \/
  (nextSlot (after r e) = S (nextSlot r) /\ freeSlots r = []).
Proof.
  unfold after, handle, onPointerDown, onPointerMove, finishPointer, alloc,
    free.
  destruct (kind e), (pointerType e); simpl;
    try (by left); try (destruct (mouseDown r); by left);
    destruct (slotByPointerId r !! pointerId e) eqn:Hp; simpl;
    rewrite ?Hp; try (by left);
    destruct (freeSlots r); simpl; try (by left); by right.
Qed.

(** X5.  After any sequence of pointer events the slot ids below
    [nextSlot] are exactly the ids held by a pointer together with the ids
    on the free stack, no id being both; so an event mints a new id, which
    is then [nextSlot], only when every smaller id is held by a pointer
    that is down. *)
Theorem slots_stay_compact (es : list PointerEvent) (e : PointerEvent) :
  (forall s, (s < nextSlot (run init es))%nat <->
     s ∈ freeSlots (run init es) \/ s ∈ live_slots (run init es)) /\
  (forall s, s ∈ freeSlots (run init es) -> s ∉ live_slots (run init es)) /\
  (nextSlot (after (run init es) e) <> nextSlot (run init es) ->
   nextSlot (after (run init es) e) = S (nextSlot (run init es)) /\
   forall s, (s < nextSlot (run init es))%nat -> s ∈ live_slots (run init es)).
Proof.
  pose proof (wf_run es) as Hwf. pose proof (compact_run es) as Hc.
  unfold live_slots. split; [|split].
  - intros s. rewrite elem_of_map_img. split; [apply Hc|].
    intros [Hin|[p Hp]].
    + by apply (wf_free _ Hwf).
    + by apply (wf_bound _ Hwf p).
  - intros s Hin. rewrite elem_of_map_img. intros [p Hp].
    destruct (wf_free _ Hwf s Hin) as [_ Hfresh]. by apply (Hfresh p).
  - intros Hne. destruct (nextSlot_after (run init es) e) as [|[Hn Hf]]; [done|].
    split; [done|]. intros s Hs. rewrite elem_of_map_img.
    destruct (Hc s Hs) as [Hin|]; [|done].
    rewrite Hf in Hin. by apply not_elem_of_nil in Hin.
Qed.



End TouchSlots.

(** ** Reads of the ring put together *)
Module RingReads.
Import RingBuffReader.

Lemma wf_readTo r target :
  wf r -> wf (readTo r target).1.1.
Proof.
  intros Hwf.
  destruct (readTo r target) as [[r' target'] k] eqn:E.
  destruct (readTo_spec _ _ _ _ _ Hwf E) as (Hk & Ht & Hst & Hwp & Hrp).
  simpl. unfold wf. rewrite Hst, Hwp, Hrp.
  pose proof (Z.mod_pos_bound (readPointer r + k) (len (storage r))).
  destruct Hwf as (? & ? & ?). lia.
Qed.

Lemma available_readTo r target :
  wf r ->
  available (getReadInfo (readTo r target).1.1)
  = available (getReadInfo r) - (readTo r target).2.
Proof.
  intros Hwf. pose proof (wf_readTo r target Hwf) as Hwf'.
  destruct (readTo r target) as [[r' target'] k] eqn:E.
  destruct (readTo_spec _ _ _ _ _ Hwf E) as (Hk & Ht & Hst & Hwp & Hrp).
  destruct (available_spec _ Hwf) as [Hav Hbound].
  destruct (available_spec _ Hwf') as [Hav' _].
  simpl in *. rewrite Hav', Hst, Hwp, Hrp.
  assert (0 <= len target) by (unfold len; lia).
  rewrite Zminus_mod_idemp_r.
  replace (writePointer r - (readPointer r + k))
    with (writePointer r - readPointer r - k) by lia.
  rewrite <- Zminus_mod_idemp_l, <- Hav. apply Z.mod_small. lia.
Qed.

(** X7.  Two reads one after the other, into [t1] and then into [t2], take
    from the ring what a single read into a target of both lengths takes:
    the same number of samples in all, the same samples in the same order,
    and the same ring afterwards.  The second read gets something only if
    the first one filled its target. *)
Theorem readTo_split (r : ring) (t1 t2 : list Z) :
  wf r ->
  let a := readTo r t1 in
  let b := readTo a.1.1 t2 in
  let ab := readTo r (t1 ++ t2) in
  ab.2 = a.2 + b.2 /\
  take (Z.to_nat ab.2) ab.1.2
    = take (Z.to_nat a.2) a.1.2 ++ take (Z.to_nat b.2) b.1.2 /\
  ab.1.1 = b.1.1 /\
  (a.2 < len t1 -> b.2 = 0).
Proof.
  intros Hwf a b ab.
  pose proof (wf_readTo r t1 Hwf) as Hwf1.
  pose proof (available_readTo r t1 Hwf) as Hav1.
  fold a in Hwf1, Hav1.
  destruct a as [[r1 t1'] k1] eqn:Ea.
  destruct (readTo_spec _ _ _ _ _ Hwf Ea) as (Hk1 & Ht1 & Hst1 & Hwp1 & Hrp1).
  cbn [fst snd] in *.
  destruct b as [[r2 t2'] k2] eqn:Eb.
  destruct (readTo_spec _ _ _ _ _ Hwf1 Eb) as (Hk2 & Ht2 & Hst2 & Hwp2 & Hrp2).
  destruct ab as [[r12 t12] k] eqn:Eab.
  destruct (readTo_spec _ _ _ _ _ Hwf Eab) as (Hk & Ht & Hst & Hwp & Hrp).
  cbn [fst snd] in *.
  destruct (available_spec _ Hwf) as [_ Hbound].
  set (av := available (getReadInfo r)) in *. clearbody av.
  assert (Hl1 : 0 <= len t1) by (unfold len; lia).
  assert (Hl2 : 0 <= len t2) by (unfold len; lia).
  assert (Hl : len (t1 ++ t2) = len t1 + len t2).
  { unfold len. rewrite length_app. lia. }
  rewrite Hl in Hk. rewrite Hav1 in Hk2.
  assert (Hsum : k = k1 + k2) by lia.
  destruct Hwf as (HN & Hr & Hw).
  split; [done|]. split; [|split].
  - assert (0 <= k1 /\ 0 <= k2) as [Hk1' Hk2'] by lia.
    rewrite Ht, Ht1, Ht2.
    rewrite !take_app_length' by (by rewrite length_slice).
    rewrite Hsum, Z2Nat.inj_add by lia.
    rewrite slice_app by (unfold len in *; lia).
    f_equal. rewrite Hrp1, Hst1. f_equal.
    rewrite to_nat_mod by lia. unfold len.
    rewrite Nat2Z.id. f_equal. lia.
  - destruct r12 as [s12 w12 p12], r2 as [s2 w2 p2].
    cbn in Hst, Hwp, Hrp, Hst2, Hwp2, Hrp2.
    rewrite Hst, Hwp, Hrp, Hst2, Hwp2, Hrp2, Hst1, Hwp1, Hrp1.
    f_equal. rewrite Zplus_mod_idemp_l. f_equal. lia.
  - lia.
Qed.

(** A ring of four samples with three to read, going round the end. *)
Definition wrapped_ring : ring :=
  {| storage := [10; 20; 30; 40]; writePointer := 1; readPointer := 2 |}.

Lemma readTo_split_witness :
  (readTo wrapped_ring ([0] ++ [0; 0; 0])).2
    = (readTo wrapped_ring [0]).2
      + (readTo (readTo wrapped_ring [0]).1.1 [0; 0; 0]).2 /\
  take (Z.to_nat (readTo wrapped_ring ([0] ++ [0; 0; 0])).2)
       (readTo wrapped_ring ([0] ++ [0; 0; 0])).1.2
    = take (Z.to_nat (readTo wrapped_ring [0]).2)
           (readTo wrapped_ring [0]).1.2
      ++ take (Z.to_nat (readTo (readTo wrapped_ring [0]).1.1 [0; 0; 0]).2)
              (readTo (readTo wrapped_ring [0]).1.1 [0; 0; 0]).1.2 /\
  (readTo wrapped_ring ([0] ++ [0; 0; 0])).1.1
    = (readTo (readTo wrapped_ring [0]).1.1 [0; 0; 0]).1.1 /\
  ((readTo wrapped_ring [0]).2 < len [0]
   -> (readTo (readTo wrapped_ring [0]).1.1 [0; 0; 0]).2 = 0).
Proof.
  apply (readTo_split wrapped_ring [0] [0; 0; 0]).
  unfold wf, wrapped_ring, len; simpl; lia.
Defined.

End RingReads.

(** ** The adaptive preroll of the worklet over whole runs *)
Module WorkletRuns.
Import RingBuffReader PCMWorkletProcessor.

(** What reaches the processor: a render quantum, or a message on its
    port. *)
Inductive input :=
| Quantum (c : call)
| Port (m : port_message).


(** The largest base preroll a [setPrerollMs] message of the inputs asks
    for, 0 when there is none. *)
Fixpoint requested (sr : Z) (ins : list input) : Z :=
  match ins with
  | [] => 0
  | Port (setPrerollMs (Some ms)) :: ins' =>
      Z.max (if 0 <? ms then quantaFromMs ms sr else 0) (requested sr ins')
  | _ :: ins' => requested sr ins'
  end.







End WorkletRuns.

(** ** Short quanta and the held sample *)
Module WorkletUnderruns.
Import RingBuffReader PCMWorkletProcessor.

(** The call finds a primed processor and a well-formed ring that holds at
    least one frame and less than a whole quantum. *)
Definition delivers_short (st : state) (rg : ring) : bool :=
  wf_ring rg && primed st
  && (channels st <=? available (getReadInfo rg))
  && (available (getReadInfo rg) <? RENDER_QUANTUM_FRAMES * channels st).

(** Every call of the run delivers a short quantum. *)
Fixpoint short_quanta (st : state) (readPtr : Z) (cs : list call) : bool :=
  match cs with
  | [] => true
  | c :: cs' =>
      delivers_short st (ring_at readPtr c)
      && let '(st', rg', _, _) := process st (ring_at readPtr c) (call_out c) in
         short_quanta st' (readPointer rg') cs'
  end.

(** The target and the soft-underrun counter over short quanta, [top]
    being [maxPrerollQ]. *)
Definition soft_tick (top : Z) (ts : Z * Z) : Z * Z :=
  let '(target, soft) := ts in
  if (4 <=? soft + 1) && (target <? top) then (target + 1, 0)
  else (target, soft + 1).

Fixpoint soft_ticks (top : Z) (n : nat) (ts : Z * Z) : Z * Z :=
  match n with
  | O => ts
  | S n' => soft_ticks top n' (soft_tick top ts)
  end.

Lemma process_short st rg out :
  wf_state st -> delivers_short st rg = true ->
  let st' := (process st rg out).1.1.1 in
  (process st rg out).2 = [] /\
  wf_state st' /\ primed st' = true /\
  maxPrerollQ st' = maxPrerollQ st /\
  (targetPrerollQ st', softUnderruns st')
    = soft_tick (maxPrerollQ st) (targetPrerollQ st, softUnderruns st).
Proof.
  intros Hst Hd st'. unfold delivers_short in Hd.
  apply andb_prop in Hd as [Hd Hlt]. apply andb_prop in Hd as [Hd Hge].
  apply andb_prop in Hd as [Hrg Hprimed].
  apply wf_ring_spec in Hrg. apply Z.leb_le in Hge. apply Z.ltb_lt in Hlt.
  pose proof Hst as (Hc & Hl & Hb & Hs & Hu).
  assert (Hp : priming st (getReadInfo rg) = Some st).
  { unfold priming. by rewrite Hprimed. }
  destruct (alignedSamples_bound st (getReadInfo rg)) as (Ha1 & Ha2 & Ha3);
    [lia|lia|].
  assert (Ha : alignedSamples st (getReadInfo rg) <> 0).
  { apply Ha3. unfold RENDER_QUANTUM_FRAMES in *. lia. }
  split.
  { destruct (process_read st rg out st Hst Hrg Hp Ha)
      as (st1 & rg1 & out1 & -> & _). simpl.
    destruct (Z.eqb_spec (Z.quot (alignedSamples st (getReadInfo rg))
                            (channels st)) 128) as [E|E]; [|done].
    exfalso.
    assert (Z.quot (alignedSamples st (getReadInfo rg)) (channels st) < 128).
    { apply Z.quot_lt_upper_bound; unfold RENDER_QUANTUM_FRAMES in *; lia. }
    lia. }
  split; [by apply wf_process|].
  subst st'.
  destruct (process_read st rg out st Hst Hrg Hp Ha)
    as (st1 & rg1 & out1 & -> & Hctrl & _). simpl.
  assert (Efg : (Z.quot (alignedSamples st (getReadInfo rg)) (channels st)
                 =? 128) = false).
  { apply Z.eqb_neq.
    assert (Z.quot (alignedSamples st (getReadInfo rg)) (channels st) < 128).
    { apply Z.quot_lt_upper_bound; unfold RENDER_QUANTUM_FRAMES in *; lia. }
    lia. }
  rewrite Efg in Hctrl. unfold ctrl, shortQuantum in Hctrl. simpl in Hctrl.
  injection Hctrl as _ _ _ _ -> -> _ -> -> _.
  split; [done|]. split; [done|].
  unfold soft_tick. by destruct (_ && _).
Qed.

Lemma run_short cs :
  forall st rp, wf_state st -> short_quanta st rp cs = true ->
  let st' := (run st rp cs).1.1 in
  (run st rp cs).2 = [] /\
  (primed st = true -> primed st' = true) /\
  maxPrerollQ st' = maxPrerollQ st /\
  (targetPrerollQ st', softUnderruns st')
    = soft_ticks (maxPrerollQ st) (length cs)
        (targetPrerollQ st, softUnderruns st).
Proof.
  induction cs as [|c cs IH]; intros st rp Hst Hq; simpl; [done|].
  simpl in Hq. apply andb_prop in Hq as [Hd Hq].
  destruct (process_short st (ring_at rp c) (call_out c) Hst Hd)
    as (Hm & Hst' & Hp' & Hmax & Htick).
  destruct (process st (ring_at rp c) (call_out c))
    as [[[st1 rg1] out1] ms1]. simpl in *.
  destruct (IH st1 (readPointer rg1) Hst' Hq) as (H1 & H2 & H3 & H4).
  destruct (run st1 (readPointer rg1) cs) as [[st2 rp2] ms2]. simpl in *.
  subst ms1 ms2. split; [done|]. split.
  - intros _. by apply H2.
  - split; [lia|]. by rewrite H4, Hmax, Htick.
Qed.

(** X9.  In a primed processor that has counted no soft underrun, render
    quanta that each find at least one frame but less than a whole quantum
    in the ring leave the target preroll as it is for the first three; the
    fourth in a row raises it by exactly 1 when it is below the maximum and
    restarts the count.  None of them posts a message, and the processor
    stays primed. *)
Theorem soft_underruns_raise (st : state) (rp : Z) (cs : list call) :
  wf_state st -> softUnderruns st = 0 -> cs <> [] ->
  short_quanta st rp cs = true ->
  let st' := (run st rp cs).1.1 in
  (run st rp cs).2 = [] /\ primed st' = true /\
  ((length cs < 4)%nat ->
     targetPrerollQ st' = targetPrerollQ st /\
     softUnderruns st' = Z.of_nat (length cs)) /\
  (length cs = 4%nat ->
     targetPrerollQ st'
       = (if targetPrerollQ st <? maxPrerollQ st
          then targetPrerollQ st + 1 else targetPrerollQ st) /\
     softUnderruns st' = (if targetPrerollQ st <? maxPrerollQ st then 0 else 4)).
Proof.
  intros Hst Hs Hne Hq st'.
  destruct (run_short cs st rp Hst Hq) as (H1 & H2 & H3 & H4).
  fold st' in H2, H3, H4. rewrite Hs in H4.
  split; [done|]. split.
  { apply H2. destruct cs as [|c cs]; [done|]. simpl in Hq.
    apply andb_prop in Hq as [Hd _]. unfold delivers_short in Hd.
    apply andb_prop in Hd as [Hd _]. apply andb_prop in Hd as [Hd _].
    by apply andb_prop in Hd as [_ Hd]. }
  split; intros Hlen.
  - destruct cs as [|c1 [|c2 [|c3 [|c4 cs]]]]; simpl in Hlen; try lia;
      try done; simpl in H4; by injection H4 as -> ->.
  - destruct cs as [|c1 [|c2 [|c3 [|c4 [|c5 cs]]]]]; simpl in Hlen; try lia.
    simpl in H4.
    destruct (targetPrerollQ st <? maxPrerollQ st); by injection H4 as -> ->.
Qed.

End WorkletUnderruns.

(** ** Runs of the worklet on the ring of the examples *)
Module WorkletExamples.
Import RingBuffReader PCMWorkletProcessor WorkletRuns WorkletUnderruns.



(** Four quanta that each find ten samples in the ring. *)
Definition short_calls : list call :=
  (fun i => {| call_storage := sample_storage;
               call_writePointer := 138 + 10 * Z.of_nat i;
               call_out := [replicate 128 0%Q] |}) <$> seq 0 4.

Lemma soft_underruns_raise_witness :
  targetPrerollQ primed_example = 3 /\
  targetPrerollQ (run primed_example 128 short_calls).1.1 = 4 /\
  softUnderruns (run primed_example 128 short_calls).1.1 = 0.
Proof.
  assert (Hrg0 : wf {| storage := sample_storage; writePointer := 600;
                       readPointer := 0 |}) by (by apply wf_ring_spec).
  assert (Hst : wf_state primed_example)
    by (apply wf_process; [apply wf_constructor|exact Hrg0]).
  assert (Hq : short_quanta primed_example 128 short_calls = true)
    by (vm_compute; reflexivity).
  destruct (soft_underruns_raise primed_example 128 short_calls Hst eq_refl
              ltac:(done) Hq) as (_ & _ & _ & Hfour).
  split; [reflexivity|]. by apply Hfour.
Defined.

End WorkletExamples.

(** ** The sample held over a hard underrun *)
Module WorkletHold.
Import RingBuffReader PCMWorkletProcessor.








End WorkletHold.

(** ** The audio format announcement of the session service *)
Module AudioInfo.
Import Messages CarplayService.

Section Info.
Context {meta : Type} (decodeTypeMap : Z -> option meta).

Definition is_info (e : @effect meta) : bool :=
  match e with
  | web_send (ev_audioInfo _) => true
  | _ => false
  end.

(** The number of audioInfo events among the effects. *)
Definition infos (effs : list (@effect meta)) : nat :=
  length (filter (fun e => is_info e = true) effs).

(** The events that begin or end a session: a start that went through,
    and the end of a stop. *)
Definition session_boundary (e : event) : bool :=
  match e with
  | StartDone true | StopDone => true
  | _ => false
  end.

Lemma infos_app effs effs' : infos (effs ++ effs') = (infos effs + infos effs')%nat.
Proof. unfold infos. by rewrite filter_app, length_app. Qed.

Lemma infos_none effs :
  (forall e, e ∈ effs -> is_info e = false) -> infos effs = 0%nat.
Proof.
  unfold infos. induction effs as [|e effs IH]; intros H; [done|].
  rewrite filter_cons_False.
  - apply IH. intros e' He'. apply H. by apply list_elem_of_further.
  - rewrite (H e); [done|apply list_elem_of_here].
Qed.

Lemma infos_chunks s c d cs ex : infos (sendChunked s c d cs ex) = 0%nat.
Proof.
  apply infos_none. intros e He.
  unfold sendChunked in He. destruct d as [d|]; [|by apply not_elem_of_nil in He].
  destruct (webContents s); [|by apply not_elem_of_nil in He].
  by apply Session.sendChunked_loop_chunks in He as [env ->].
Qed.

Lemma step_info h s e :
  session_boundary e = false ->
  let r := step decodeTypeMap h s e in
  (audioInfoSent s = true -> infos r.2 = 0%nat /\ audioInfoSent r.1 = true) /\
  (audioInfoSent s = false ->
     (infos r.2 = 0%nat /\ audioInfoSent r.1 = false) \/
     (infos r.2 = 1%nat /\ audioInfoSent r.1 = true)) /\
  (forall m, web_send (ev_audioInfo m) ∈ r.2 ->
     exists a d, e = Message_ (Audio a) /\ data a = Some d /\
                 decodeTypeMap (decodeType a) = Some m).
Proof.
  intros Hb r. subst r.
  assert (Hstart : forall s0,
            audioInfoSent (start_begin (meta := meta) h s0).1 = audioInfoSent s0 /\
            infos (start_begin (meta := meta) h s0).2 = 0%nat /\
            forall m, web_send (ev_audioInfo m)
                        ∉ (start_begin (meta := meta) h s0).2).
  { intros s0. unfold start_begin.
    destruct (started s0), (isStarting s0), (device_present h); simpl;
      repeat split; try done; intros m Hm;
      repeat (apply elem_of_cons in Hm as [Hm|Hm]; [done|]);
      by apply not_elem_of_nil in Hm. }
  assert (Hstop : forall s0,
            audioInfoSent (stop_begin (meta := meta) s0).1 = audioInfoSent s0 /\
            infos (stop_begin (meta := meta) s0).2 = 0%nat /\
            forall m, web_send (ev_audioInfo m)
                        ∉ (stop_begin (meta := meta) s0).2).
  { intros s0. unfold stop_begin.
    destruct (isStopping s0), (started s0), (stopping s0); simpl;
      repeat split; try done; intros m Hm;
      repeat (apply elem_of_cons in Hm as [Hm|Hm]; [done|]);
      by apply not_elem_of_nil in Hm. }
  assert (Hquiet : forall (s' : service) (effs : list (@effect meta)),
            audioInfoSent s' = audioInfoSent s -> infos effs = 0%nat ->
            (forall m, web_send (ev_audioInfo m) ∉ effs) ->
            (audioInfoSent s = true ->
               infos (s', effs).2 = 0%nat /\ audioInfoSent (s', effs).1 = true) /\
            (audioInfoSent s = false ->
               (infos (s', effs).2 = 0%nat /\ audioInfoSent (s', effs).1 = false) \/
               (infos (s', effs).2 = 1%nat /\ audioInfoSent (s', effs).1 = true)) /\
            (forall m, web_send (ev_audioInfo m) ∈ (s', effs).2 ->
               exists a d, e = Message_ (Audio a) /\ data a = Some d /\
                           decodeTypeMap (decodeType a) = Some m)).
  { intros s' effs Hs Hi Hn. simpl. rewrite Hs. split; [done|].
    split; [by left|]. intros m Hm. by destruct (Hn m). }
  assert (Hnil : forall m, web_send (ev_audioInfo m) ∉ @nil (@effect meta)).
  { intros m. apply not_elem_of_nil. }
  destruct e as [msg| |ok| | |hd]; simpl in *.
  - unfold on_message.
    destruct (webContents s) eqn:Hweb; cbn [negb]; [|by apply Hquiet].
    destruct msg as [pt| |w ht d|a|payload|v|].
    + destruct (Hstart (clearTimeouts s)) as (H1 & H2 & H3).
      destruct (negb (started (clearTimeouts s))
                && negb (isStarting (clearTimeouts s))).
      * destruct (start_begin h (clearTimeouts s)) as [s2 effs].
        simpl in *. apply Hquiet; [done|done|].
        intros m Hm. apply elem_of_cons in Hm as [Hm|Hm]; [done|].
        by apply (H3 m).
      * apply Hquiet; [done|done|]. intros m Hm.
        apply elem_of_cons in Hm as [Hm|Hm]; [done|].
        by apply not_elem_of_nil in Hm.
    + destruct (Hstop s) as (H1 & H2 & H3).
      destruct (negb (shuttingDown s) && negb (stopping s)).
      * destruct (stop_begin s) as [s2 effs].
        simpl in *. apply Hquiet; [done|done|].
        intros m Hm. apply elem_of_cons in Hm as [Hm|Hm]; [done|].
        by apply (H3 m).
      * apply Hquiet; [done|done|]. intros m Hm.
        apply elem_of_cons in Hm as [Hm|Hm]; [done|].
        by apply not_elem_of_nil in Hm.
    + apply Hquiet; [done| |].
      * change (infos ([web_send (ev_resolution w ht)]
                       ++ sendChunked s carplay_video_chunk d (512 * 1024) None)
                = 0%nat).
        by rewrite infos_app, infos_chunks.
      * intros m Hm. apply elem_of_cons in Hm as [Hm|Hm]; [done|].
        unfold sendChunked in Hm. rewrite Hweb in Hm.
        destruct d as [d|]; [|by apply not_elem_of_nil in Hm].
        by apply Session.sendChunked_loop_chunks in Hm as [env Hm].
    + destruct (data a) as [d|] eqn:Hd.
      * assert (Hc : forall m,
                  web_send (ev_audioInfo m)
                    ∉ sendChunked (meta := meta) s carplay_audio_chunk (Some d)
                        (64 * 1024) (Some a)).
        { intros m Hm. unfold sendChunked in Hm. rewrite Hweb in Hm.
          by apply Session.sendChunked_loop_chunks in Hm as [env Hm]. }
        destruct (audioInfoSent s) eqn:Hsent.
        { cbn [fst snd]. rewrite infos_chunks, ?Hsent.
          split; [done|]. split; [done|].
          intros m Hm. by destruct (Hc m). }
        destruct (decodeTypeMap (decodeType a)) as [m0|] eqn:Hm0;
          cbn [fst snd].
        -- rewrite infos_app, infos_chunks, ?Hsent. split; [done|].
           split; [by right|]. intros m Hm.
           apply elem_of_app in Hm as [Hm|Hm]; [by destruct (Hc m)|].
           apply list_elem_of_singleton in Hm as [= ->]. by exists a, d.
        -- rewrite infos_chunks, ?Hsent. split; [done|]. split; [by left|].
           intros m Hm. by destruct (Hc m).
      * destruct (command a) as [c|]; [|by apply Hquiet].
        unfold on_audio_command.
        destruct c; try (by apply Hquiet);
          try (destruct (audioTransferMode s); [by apply Hquiet|];
               apply Hquiet; [done|done|]; intros m Hm;
               apply elem_of_cons in Hm as [Hm|Hm]; [done|];
               by apply not_elem_of_nil in Hm);
          (destruct (_mic s); [|by apply Hquiet];
           apply Hquiet; [done|done|]; intros m Hm;
           apply elem_of_cons in Hm as [Hm|Hm]; [done|];
           by apply not_elem_of_nil in Hm).
    + destruct payload; [|by apply Hquiet].
      apply Hquiet; [done|done|]. intros m Hm.
      repeat (apply elem_of_cons in Hm as [Hm|Hm]; [done|]).
      by apply not_elem_of_nil in Hm.
    + apply Hquiet; [done|done|]. intros m Hm.
      apply elem_of_cons in Hm as [Hm|Hm]; [done|].
      by apply not_elem_of_nil in Hm.
    + by apply Hquiet.
  - destruct (Hstart s) as (H1 & H2 & H3).
    destruct (start_begin h s) as [s2 effs]. by apply Hquiet.
  - destruct ok; [done|]. by apply Hquiet.
  - destruct (Hstop s) as (H1 & H2 & H3).
    destruct (stop_begin s) as [s2 effs]. by apply Hquiet.
  - done.
  - unfold on_timer. destruct (Timers.fire (timers s) hd) as [q cmds].
    apply Hquiet; [done| |].
    + apply infos_none. intros e He.
      by apply list_elem_of_fmap in He as [c [-> _]].
    + intros m Hm. by apply list_elem_of_fmap in Hm as [c [? _]].
Qed.

(** X11.  Between two session boundaries (a start that went through, the
    end of a stop) the service announces the audio format at most once:
    over any events without a boundary at most one audioInfo event is
    sent, none when one was sent before, and once it is sent the flag
    stays set.  An audioInfo event comes only from an AudioData message
    that carries data and whose decode type the type map knows, and it
    carries the format of that decode type. *)
Theorem audio_info_once (h : host) (s : service) (es : list event) :
  Forall (fun e => session_boundary e = false) es ->
  let r := run decodeTypeMap h s es in
  (infos r.2 <= 1)%nat /\
  (audioInfoSent s = true -> infos r.2 = 0%nat /\ audioInfoSent r.1 = true) /\
  (infos r.2 = 1%nat -> audioInfoSent r.1 = true) /\
  (forall m, web_send (ev_audioInfo m) ∈ r.2 ->
     exists a d, Message_ (Audio a) ∈ es /\ data a = Some d /\
                 decodeTypeMap (decodeType a) = Some m).
Proof.
  intros Hes r. subst r. revert s.
  induction es as [|e es IH]; intros s; simpl.
  - change (infos []) with 0%nat.
    split; [lia|]. split; [done|]. split; [done|].
    intros m Hm. by apply not_elem_of_nil in Hm.
  - apply Forall_cons in Hes as [He Hes].
    destruct (step_info h s e He) as (Hsent & Hfresh & Hfrom).
    destruct (step decodeTypeMap h s e) as [s1 effs]. simpl in *.
    destruct (IH Hes s1) as (H1 & H2 & H3 & H4).
    destruct (run decodeTypeMap h s1 es) as [s2 effs2]. simpl in *.
    rewrite infos_app.
    assert (Hmem : forall m, web_send (ev_audioInfo m) ∈ effs ++ effs2 ->
              exists a d, Message_ (Audio a) ∈ e :: es /\ data a = Some d /\
                          decodeTypeMap (decodeType a) = Some m).
    { intros m Hm. apply elem_of_app in Hm as [Hm|Hm].
      - destruct (Hfrom m Hm) as (a & d & -> & Hd & Hk).
        exists a, d. split; [apply list_elem_of_here|done].
      - destruct (H4 m Hm) as (a & d & Hin & Hd & Hk).
        exists a, d. split; [by apply list_elem_of_further|done]. }
    destruct (audioInfoSent s) eqn:Hs.
    + destruct (Hsent eq_refl) as [Hi0 Hs1].
      destruct (H2 Hs1) as [Hi2 Hs2].
      rewrite Hi0, Hi2. simpl. split; [lia|]. split; [done|]. by split.
    + destruct (Hfresh eq_refl) as [[Hi0 Hs1]|[Hi1 Hs1]].
      * rewrite Hi0. simpl. split; [done|]. split; [done|]. by split.
      * destruct (H2 Hs1) as [Hi2 Hs2].
        rewrite Hi1, Hi2. simpl. split; [lia|]. split; [done|]. by split.
Qed.

End Info.

(** Decode type 5 is the one format known here, with its sample rate. *)
Definition one_format (decodeType : Z) : option Z :=
  if decodeType =? 5 then Some 48000 else None.

Definition pcm (dt : Z) : AudioData :=
  {| decodeType := dt; audioType := 1; command := None;
     data := Some [Byte.x00; Byte.x01] |}.

Definition car : host :=
  {| os := Microphone.linux; userConfig := None; device_present := true |}.

Lemma audio_info_once_witness :
  (infos (run one_format car (attachRenderer create)
            [Message_ (Audio (pcm 7)); Message_ (Audio (pcm 5));
             Message_ (Audio (pcm 5)); StartDone false]).2 <= 1)%nat /\
  audioInfoSent (run one_format car (attachRenderer create)
                   [Message_ (Audio (pcm 7)); Message_ (Audio (pcm 5));
                    Message_ (Audio (pcm 5)); StartDone false]).1 = true.
Proof.
  destruct (audio_info_once one_format car (attachRenderer create)
              [Message_ (Audio (pcm 7)); Message_ (Audio (pcm 5));
               Message_ (Audio (pcm 5)); StartDone false])
    as (H1 & _ & H3 & _); [by repeat constructor|].
  split; [exact H1|]. apply H3. reflexivity.
Defined.

End AudioInfo.

(** ** The frame interval of the Carplay class *)
Module FrameInterval.
Import Messages Timers.

Definition is_plugged (e : Carplay.event) : bool :=
  match e with
  | Carplay.Message_ (Plugged _) => true
  | _ => false
  end.

(** No pending timer sends [frame]. *)
Definition no_frames (q : queue) : Prop :=
  Forall (fun t => sends t <> frame) (pending q).

(** The class knows its frame timer: handles are handed out once, and a
    pending timer that sends [frame] is the repeating one whose handle
    [_frameInterval] holds. *)
Definition tracked (c : Carplay.carplay) : Prop :=
  TimersFacts.wf (Carplay.timers c) /\
  NoDup (handle <$> pending (Carplay.timers c)) /\
  forall t, t ∈ pending (Carplay.timers c) -> sends t = frame ->
    Carplay._frameInterval c = Some (handle t) /\ repeats t = true.

Lemma NoDup_fmap_eq {A B} (f : A -> B) (l : list A) x y :
  NoDup (f <$> l) -> x ∈ l -> y ∈ l -> f x = f y -> x = y.
Proof.
  induction l as [|a l IH]; intros Hnd Hx Hy Hf.
  - by apply not_elem_of_nil in Hx.
  - csimpl in Hnd. apply NoDup_cons in Hnd as [Ha Hnd].
    apply elem_of_cons in Hx as [->|Hx]; apply elem_of_cons in Hy as [->|Hy].
    + done.
    + destruct Ha. rewrite Hf. by apply list_elem_of_fmap_2.
    + destruct Ha. rewrite <- Hf. by apply list_elem_of_fmap_2.
    + by apply IH.
Qed.

Lemma wf_clear q h : TimersFacts.wf q -> TimersFacts.wf (clear q h).
Proof.
  unfold TimersFacts.wf, clear; simpl. intros H. apply Forall_forall.
  intros t Ht. apply list_elem_of_filter in Ht as [_ Ht].
  by apply (proj1 (Forall_forall _ _) H).
Qed.

Lemma NoDup_clear q h :
  NoDup (handle <$> pending q) -> NoDup (handle <$> pending (clear q h)).
Proof.
  unfold clear; simpl. induction (pending q) as [|t l IH]; [done|].
  csimpl. intros Hnd. apply NoDup_cons in Hnd as [Ht Hnd].
  rewrite filter_cons. destruct (decide (handle t <> h)); [|by apply IH].
  csimpl. apply NoDup_cons. split; [|by apply IH].
  intros Hin. apply Ht. apply list_elem_of_fmap in Hin as (t' & E & Hin).
  apply list_elem_of_filter in Hin as [_ Hin].
  rewrite E. by apply list_elem_of_fmap_2.
Qed.

Lemma wf_set q d rep c : TimersFacts.wf q -> TimersFacts.wf (set q d rep c).1.
Proof.
  unfold TimersFacts.wf, set; simpl. intros H. apply Forall_app. split.
  - eapply Forall_impl; [exact H|]. intros t Ht. simpl in *. lia.
  - apply Forall_singleton. simpl. lia.
Qed.

Lemma NoDup_set q d rep c :
  TimersFacts.wf q -> NoDup (handle <$> pending q) ->
  NoDup (handle <$> pending (set q d rep c).1).
Proof.
  unfold TimersFacts.wf, set; simpl. intros Hwf Hnd.
  rewrite fmap_app. apply NoDup_app. split; [done|]. split.
  - intros x Hx Hin. apply list_elem_of_singleton in Hin. simpl in Hin. subst x.
    apply list_elem_of_fmap in Hx as (t & E & Ht).
    pose proof (proj1 (Forall_forall _ _) Hwf t Ht) as Hlt. simpl in *. lia.
  - apply NoDup_singleton.
Qed.

Lemma tracked_create atm pc : tracked (Carplay.create atm pc).
Proof.
  split; [constructor|]. split; [constructor|].
  intros t Ht. by apply not_elem_of_nil in Ht.
Qed.

Lemma tracked_clearPairTimeout c :
  tracked c -> tracked (Carplay.clearPairTimeout c).
Proof.
  intros (Hwf & Hnd & Ht). unfold Carplay.clearPairTimeout.
  destruct (Carplay._pairTimeout c) as [h|]; [|done].
  split; [by apply wf_clear|]. split; [by apply NoDup_clear|].
  simpl. intros t Hin. apply list_elem_of_filter in Hin as [_ Hin].
  by apply Ht.
Qed.

Lemma tracked_clearFrameInterval c :
  tracked c ->
  tracked (Carplay.clearFrameInterval c) /\
  no_frames (Carplay.timers (Carplay.clearFrameInterval c)).
Proof.
  intros (Hwf & Hnd & Ht). unfold Carplay.clearFrameInterval.
  destruct (Carplay._frameInterval c) as [h|] eqn:Hf.
  - assert (Hno : no_frames (clear (Carplay.timers c) h)).
    { apply Forall_forall. intros t Hin. simpl in Hin.
      apply list_elem_of_filter in Hin as [Hne Hin]. intros Hs.
      destruct (Ht t Hin Hs) as [[= E] _]. by apply Hne. }
    split; [|done].
    split; [by apply wf_clear|]. split; [by apply NoDup_clear|].
    simpl. intros t Hin Hs.
    by destruct (proj1 (Forall_forall _ _) Hno t Hin).
  - assert (Hno : no_frames (Carplay.timers c)).
    { apply Forall_forall. intros t Hin Hs.
      by destruct (Ht t Hin Hs) as [? _]. }
    split; [|done]. split; [done|]. split; [done|].
    intros t Hin Hs. by destruct (proj1 (Forall_forall _ _) Hno t Hin).
Qed.

Lemma tracked_setFrameInterval c period :
  tracked c -> no_frames (Carplay.timers c) ->
  tracked (Carplay.setFrameInterval c period).
Proof.
  intros (Hwf & Hnd & Ht) Hno. unfold Carplay.setFrameInterval.
  pose proof (wf_set (Carplay.timers c) period true frame Hwf) as Hwf'.
  pose proof (NoDup_set (Carplay.timers c) period true frame Hwf Hnd) as Hnd'.
  unfold set in *. simpl in *.
  split; [done|]. split; [done|]. simpl.
  intros t Hin Hs. apply elem_of_app in Hin as [Hin|Hin].
  - by destruct (proj1 (Forall_forall _ _) Hno t Hin).
  - by apply list_elem_of_singleton in Hin as ->.
Qed.

Lemma tracked_timers c c' :
  Carplay.timers c' = Carplay.timers c ->
  Carplay._frameInterval c' = Carplay._frameInterval c ->
  tracked c -> tracked c'.
Proof. unfold tracked. by intros -> ->. Qed.

Lemma tracked_fire c hd :
  tracked c ->
  TimersFacts.wf (fire (Carplay.timers c) hd).1 /\
  NoDup (handle <$> pending (fire (Carplay.timers c) hd).1) /\
  (forall t, t ∈ pending (fire (Carplay.timers c) hd).1 ->
             t ∈ pending (Carplay.timers c)) /\
  (forall x, x ∈ (fire (Carplay.timers c) hd).2 ->
             exists t, t ∈ pending (Carplay.timers c) /\ sends t = x).
Proof.
  intros (Hwf & Hnd & Ht). unfold fire.
  destruct (filter _ (pending (Carplay.timers c))) as [|t l] eqn:E; simpl.
  - repeat split; try done. intros x Hx. by apply not_elem_of_nil in Hx.
  - assert (Hin : t ∈ pending (Carplay.timers c)).
    { assert (H : t ∈ filter (fun t => handle t = hd)
                         (pending (Carplay.timers c)))
        by (rewrite E; apply list_elem_of_here).
      by apply list_elem_of_filter in H as [_ H]. }
    destruct (repeats t); simpl.
    + repeat split; try done. intros x Hx.
      apply list_elem_of_singleton in Hx as ->. by exists t.
    + split; [by apply wf_clear|]. split; [by apply NoDup_clear|]. split.
      * intros t' Ht'. by apply list_elem_of_filter in Ht' as [_ Ht'].
      * intros x Hx. apply list_elem_of_singleton in Hx as ->. by exists t.
Qed.

Lemma tracked_step os c e : tracked c -> tracked (Carplay.step os c e).1.
Proof.
  intros Hc. destruct e as [msg| | |hd]; simpl.
  - unfold Carplay.on_message.
    pose proof (tracked_clearPairTimeout c Hc) as Hp.
    destruct (tracked_clearFrameInterval _ Hp) as [Hf Hno].
    destruct msg as [pt| |w ht d|a|payload|v|]; cbn beta iota zeta; try done.
    + destruct (Carplay.phoneConfig _ pt) as [period|]; [|done].
      destruct (period =? 0); [done|]. by apply tracked_setFrameInterval.
    + destruct (command a) as [[]|]; simpl; try done;
        by apply (tracked_timers (Carplay.clearPairTimeout c)).
  - destruct Hc as (Hwf & Hnd & Ht). unfold Carplay.started.
    pose proof (wf_set (Carplay.timers c) 15000 false wifiPair Hwf) as Hwf'.
    pose proof (NoDup_set (Carplay.timers c) 15000 false wifiPair Hwf Hnd)
      as Hnd'.
    unfold set in *. simpl in *. split; [done|]. split; [done|]. simpl.
    intros t Hin Hs. apply elem_of_app in Hin as [Hin|Hin]; [by apply Ht|].
    by apply list_elem_of_singleton in Hin as ->.
  - apply tracked_clearFrameInterval. by apply tracked_clearPairTimeout.
  - unfold Carplay.on_timer.
    destruct (tracked_fire c hd Hc) as (Hwf' & Hnd' & Hsub & _).
    destruct (fire (Carplay.timers c) hd) as [q cmds]. simpl in *.
    split; [done|]. split; [done|]. simpl.
    intros t Hin Hs. destruct Hc as (_ & _ & Ht). apply Ht; [|done].
    by apply Hsub.
Qed.

Lemma tracked_run os es : forall c,
  tracked c -> tracked (Carplay.run os c es).1.
Proof.
  induction es as [|e es IH]; intros c Hc; simpl; [done|].
  pose proof (tracked_step os c e Hc) as H1.
  destruct (Carplay.step os c e) as [c1 effs]. simpl in *.
  specialize (IH c1 H1). by destruct (Carplay.run os c1 es).
Qed.

Lemma no_frames_clear q h : no_frames q -> no_frames (clear q h).
Proof.
  unfold no_frames, clear; simpl. intros Hn. apply Forall_forall. intros t Ht.
  apply list_elem_of_filter in Ht as [_ Ht].
  by apply (proj1 (Forall_forall _ _) Hn).
Qed.

Lemma notify_no_frame c m : Carplay.driver_send frame ∉ Carplay.notify c m.
Proof.
  unfold Carplay.notify. destruct (Carplay.onmessage c).
  - intros H. apply list_elem_of_singleton in H. done.
  - apply not_elem_of_nil.
Qed.

Lemma step_no_frame os c e :
  is_plugged e = false -> no_frames (Carplay.timers c) ->
  no_frames (Carplay.timers (Carplay.step os c e).1) /\
  Carplay.driver_send frame ∉ (Carplay.step os c e).2.
Proof.
  intros He Hno.
  assert (Hp : no_frames (Carplay.timers (Carplay.clearPairTimeout c))).
  { unfold Carplay.clearPairTimeout.
    destruct (Carplay._pairTimeout c); [by apply no_frames_clear|done]. }
  assert (Hf : forall c0, no_frames (Carplay.timers c0) ->
                no_frames (Carplay.timers (Carplay.clearFrameInterval c0))).
  { intros c0 H0. unfold Carplay.clearFrameInterval.
    destruct (Carplay._frameInterval c0); [by apply no_frames_clear|done]. }
  destruct e as [msg| | |hd]; simpl.
  - unfold Carplay.on_message.
    destruct msg as [pt| |w ht d|a|payload|v|]; cbn beta iota zeta;
      try done; try (split; [done|apply notify_no_frame]).
    + destruct (command a) as [[]|]; simpl; (split; [done|]);
        try apply notify_no_frame;
        (intros H; apply elem_of_app in H as [H|H];
         [by apply notify_no_frame in H|];
         by apply list_elem_of_singleton in H).
    + split; [done|apply not_elem_of_nil].
  - unfold Carplay.started, set. simpl. split; [|apply not_elem_of_nil].
    apply Forall_app. split; [done|]. by repeat constructor.
  - split; [by apply Hf|]. intros H. by apply list_elem_of_singleton in H.
  - unfold Carplay.on_timer, fire.
    destruct (filter _ (pending (Carplay.timers c))) as [|t l] eqn:E; simpl.
    + split; [done|apply not_elem_of_nil].
    + assert (Hin : t ∈ pending (Carplay.timers c)).
      { assert (Hmem : t ∈ filter (fun t => handle t = hd)
                              (pending (Carplay.timers c)))
          by (rewrite E; apply list_elem_of_here).
        by apply list_elem_of_filter in Hmem as [_ Hmem]. }
      pose proof (proj1 (Forall_forall _ _) Hno t Hin) as Hs.
      split.
      * destruct (repeats t); [done|by apply no_frames_clear].
      * intros H. apply list_elem_of_singleton in H as [= E']. by destruct Hs.
Qed.

Lemma run_no_frame os es : forall c,
  Forall (fun e => is_plugged e = false) es -> no_frames (Carplay.timers c) ->
  Carplay.driver_send frame ∉ (Carplay.run os c es).2.
Proof.
  induction es as [|e es IH]; intros c Hes Hno; simpl; [apply not_elem_of_nil|].
  apply Forall_cons in Hes as [He Hes].
  destruct (step_no_frame os c e He Hno) as [H1 H2].
  destruct (Carplay.step os c e) as [c1 effs]. simpl in *.
  specialize (IH c1 Hes H1). destruct (Carplay.run os c1 es) as [c2 effs2].
  simpl in *. intros H. apply elem_of_app in H as [H|H]; done.
Qed.

(** X12.  In the Carplay class, after any sequence of driver messages,
    starts, stops and timer expiries, at most one pending timer sends the
    'frame' command; it is the repeating timer whose handle
    [_frameInterval] holds, so a Plugged message replaces the interval
    rather than adding one.  After [stop] no 'frame' command is sent,
    whatever timers come due, until the next Plugged message. *)
Theorem frame_interval_single (os : Microphone.platform) (atm : bool)
    (pc : Z -> option Z) (es : list Carplay.event) :
  let c := (Carplay.run os (Carplay.create atm pc) es).1 in
  (forall t1 t2,
     t1 ∈ pending (Carplay.timers c) -> t2 ∈ pending (Carplay.timers c) ->
     sends t1 = frame -> sends t2 = frame -> t1 = t2) /\
  (forall t, t ∈ pending (Carplay.timers c) -> sends t = frame ->
     Carplay._frameInterval c = Some (handle t) /\ repeats t = true) /\
  (forall es', Forall (fun e => is_plugged e = false) es' ->
     Carplay.driver_send frame ∉ (Carplay.run os (Carplay.stop c).1 es').2).
Proof.
  intros c.
  pose proof (tracked_run os es _ (tracked_create atm pc)) as Hc. fold c in Hc.
  split; [|split].
  - destruct Hc as (_ & Hnd & Ht). intros t1 t2 H1 H2 Hs1 Hs2.
    apply (NoDup_fmap_eq handle _ _ _ Hnd H1 H2).
    destruct (Ht t1 H1 Hs1) as [E1 _]. destruct (Ht t2 H2 Hs2) as [E2 _].
    congruence.
  - by destruct Hc as (_ & _ & Ht).
  - intros es' Hes'. apply run_no_frame; [done|]. simpl.
    apply tracked_clearFrameInterval. by apply tracked_clearPairTimeout.
Qed.

End FrameInterval.

(** ** The touch handlers of the main process
       (ipcMain 'carplay-touch' and 'carplay-multi-touch') *)
Module TouchIpc.
Import TouchCoordinates.

Local Open Scope float_scope.

(** A point as the renderer sends it; ids and actions are whole numbers. *)
Record MultiTouchPoint := {
  mt_id : Z;
  mt_x : float;
  mt_y : float;
  mt_action : Z
}.

(** What the handlers hand to [driver.send]. *)
Inductive sendable :=
| SendTouch (x y : float) (action : Z)
| SendMultiTouch (touches : list MultiTouchPoint).

Definition ONE_BASED_IDS : bool := false.

(** The point the multi-touch handler builds from [p]. *)
Definition safe_point (p : MultiTouchPoint) : MultiTouchPoint :=
  {| mt_id := (to_i32 (mt_id p) + (if ONE_BASED_IDS then 1 else 0))%Z;
     mt_x := to01 (mt_x p);
     mt_y := to01 (mt_y p);
     mt_action := to_i32 (mt_action p) |}.

(** The 'carplay-touch' handler. *)
Definition on_touch (x y : float) (action : Z) : list sendable :=
  [SendTouch x y action].

(** The 'carplay-multi-touch' handler; [points] is [None] when the payload
    is not an array. *)
Definition on_multi_touch (points : option (list MultiTouchPoint))
    : list sendable :=
  match points with
  | None => []
  | Some [] => []
  | Some l => [SendMultiTouch (safe_point <$> l)]
  end.

Lemma ltb_not_nan u v : (u <? v) = true -> is_nan u = false /\ is_nan v = false.
Proof.
  intros H. rewrite FloatAxioms.ltb_spec in H.
  split; apply not_true_is_false; intros Hn; apply is_nan_spec in Hn;
    rewrite Hn in H; [done|].
  by destruct (Prim2SF u).
Qed.

Lemma finite_between u :
  is_nan u = false -> (u <? 0) = false -> (1 <? u) = false ->
  is_finite u = true.
Proof.
  intros Hnan Hlo Hhi. unfold is_finite, is_infinity. rewrite Hnan. simpl.
  apply negb_true_iff. rewrite FloatAxioms.eqb_spec, FloatAxioms.abs_spec.
  rewrite FloatAxioms.ltb_spec in Hlo, Hhi.
  rewrite Prim2SF_0 in Hlo. rewrite Prim2SF_1 in Hhi.
  change (Prim2SF infinity) with (S754_infinity false).
  destruct (Prim2SF u) as [s|s| |s m e]; try done.
  destruct s; done.
Qed.

Lemma to01_fixed u :
  is_nan u = false -> (u <? 0) = false -> (1 <? u) = false -> to01 u = u.
Proof.
  intros Hnan Hlo Hhi. unfold to01.
  by rewrite (finite_between u Hnan Hlo Hhi), Hlo, Hhi.
Qed.

Lemma to01_nan u : is_nan u = true -> to01 u = 0.
Proof. intros Hnan. unfold to01, is_finite. by rewrite Hnan. Qed.

Lemma to01_clamp01 u :
  to01 (clamp01 u) = if is_nan u then 0 else clamp01 u.
Proof.
  unfold clamp01.
  destruct (u <? 0) eqn:Hlo.
  { by destruct (is_nan u). }
  destruct (1 <? u) eqn:Hhi.
  { destruct (ltb_not_nan _ _ Hhi) as [_ ->]. reflexivity. }
  destruct (is_nan u) eqn:Hnan.
  - by apply to01_nan.
  - by apply to01_fixed.
Qed.

Lemma to01_idempotent u : to01 (to01 u) = to01 u.
Proof.
  assert (H : to01 u = 0 \/ to01 u = 1 \/ to01 u = u /\ to01 u = u).
  { unfold to01. destruct (is_finite u) eqn:Hf.
    - destruct (u <? 0) eqn:Hlo; [by left|].
      destruct (1 <? u) eqn:Hhi; [by right; left|]. by right; right.
    - by left. }
  destruct H as [H|[H|[H _]]]; rewrite H; try reflexivity.
  by rewrite H.
Qed.

(** X13.  The multi-touch handler of the main process sends nothing for a
    payload that is not an array or is empty; otherwise it sends one
    frame with as many points as it got, in the same order, and both
    coordinates of every point lie between 0 and 1, whatever came in.  A
    coordinate that the renderer's [clamp01] produced arrives unchanged
    unless it is NaN, which arrives as 0; sanitising twice changes
    nothing.  The single-touch handler forwards its coordinates as they
    are. *)
Theorem multi_touch_sanitised (points : option (list MultiTouchPoint))
    (u x y : float) (a : Z) :
  match points with
  | Some (p :: l) =>
      exists qs,
        on_multi_touch points = [SendMultiTouch qs] /\
        length qs = S (length l) /\
        Forall (fun q => in01 (mt_x q) /\ in01 (mt_y q)) qs /\
        forall i p', (p :: l) !! i = Some p' ->
          exists q, qs !! i = Some q /\
                    mt_x q = to01 (mt_x p') /\ mt_y q = to01 (mt_y p') /\
                    mt_id q = to_i32 (mt_id p') /\
                    mt_action q = to_i32 (mt_action p')
  | _ => on_multi_touch points = []
  end /\
  to01 (clamp01 u) = (if is_nan u then 0 else clamp01 u) /\
  to01 (to01 u) = to01 u /\
  on_touch x y a = [SendTouch x y a].
Proof.
  split; [|split; [apply to01_clamp01|split; [apply to01_idempotent|done]]].
  destruct points as [[|p l]|]; [done| |done].
  exists (safe_point <$> p :: l). split; [done|].
  split; [by rewrite length_fmap|]. split.
  - apply Forall_fmap, Forall_forall. intros q _. simpl.
    split; apply to01_in01.
  - intros i p' Hi. exists (safe_point p'). split.
    + by rewrite list_lookup_fmap, Hi.
    + unfold safe_point, ONE_BASED_IDS; simpl.
      repeat split; try done. lia.
Qed.

End TouchIpc.

From stdpp Require Import strings.

Local Open Scope Z_scope.

(** ** The media file of the session service (mediaData.json) *)
Module MediaStore.

(** [MediaType] of the messages module: the two types the handler names,
    and the rest by value. *)
Inductive MediaType := Data | AlbumCover | OtherType (value : Z).

Section Media.

(** The values of a media bag ([Record<string, unknown>]). *)
Context {V : Type}.

(** [PersistedMediaPayload], which is also the shape of [msg.payload]. *)
Record payload := {
  p_type : MediaType;
  p_media : option (gmap string V);
  p_base64Image : option string
}.

(** The file: [None] when it is missing or does not parse; otherwise the
    payload that was written, the timestamp beside it being left out. *)
Definition file := option payload.

(** [readMediaFile]. *)
Definition readMediaFile (f : file) : payload :=
  match f with
  | Some p => p
  | None => {| p_type := Data; p_media := Some ∅; p_base64Image := None |}
  end.

(** A string that a condition takes as true: defined and not empty. *)
Definition truthy (s : option string) : bool :=
  match s with
  | Some (String _ _) => true
  | _ => false
  end.

(** The payload the MediaData branch writes, from the one in the file and
    the one of the message. *)
Definition newPayload (existing msg : payload) : payload :=
  match p_type msg, p_media msg with
  | Data, Some media =>
      {| p_type := Data;
         p_media := Some (media ∪ default ∅ (p_media existing));
         p_base64Image :=
           if truthy (p_base64Image existing) then p_base64Image existing
           else None |}
  | _, _ =>
      match p_type msg with
      | AlbumCover =>
          if truthy (p_base64Image msg) then
            {| p_type := AlbumCover; p_media := p_media existing;
               p_base64Image := p_base64Image msg |}
          else
            {| p_type := AlbumCover; p_media := p_media existing;
               p_base64Image := p_base64Image existing |}
      | t =>
          {| p_type := t; p_media := p_media existing;
             p_base64Image := p_base64Image existing |}
      end
  end.

(** The MediaData branch for a message with a payload: read, merge,
    write. *)
Definition on_media (f : file) (msg : payload) : file :=
  Some (newPayload (readMediaFile f) msg).

(** The file after a sequence of messages. *)
Definition store (f : file) (msgs : list payload) : file :=
  foldl on_media f msgs.

(** What the 'carplay-media-read' handler returns. *)
Definition media_read (f : file) : payload := readMediaFile f.

(** The entry of a key in the stored media. *)
Definition entry (p : payload) (k : string) : option V :=
  default ∅ (p_media p) !! k.

Lemma newPayload_entry existing msg k :
  is_Some (entry existing k) -> is_Some (entry (newPayload existing msg) k).
Proof.
  unfold entry, newPayload. intros Hk.
  destruct (p_type msg), (p_media msg) as [media|]; simpl; try done;
    try (by destruct (truthy (p_base64Image msg))).
  apply lookup_union_is_Some. by right.
Qed.

Lemma newPayload_image existing msg :
  truthy (p_base64Image existing) = true ->
  truthy (p_base64Image (newPayload existing msg)) = true.
Proof.
  unfold newPayload. intros Hi.
  destruct (p_type msg), (p_media msg) as [media|]; simpl; try done;
    try (by rewrite Hi);
    by destruct (truthy (p_base64Image msg)) eqn:E.
Qed.

Lemma store_snoc f msgs msg :
  store f (msgs ++ [msg]) = on_media (store f msgs) msg.
Proof. unfold store. by rewrite foldl_app. Qed.

(** X14.  Whatever MediaData messages arrive, the media file only gains:
    a key that the stored media holds is still held after any further
    messages, and a stored cover image that is not empty stays one.  A
    message of type Data with a media bag sets every key of its bag to the
    value it brings and keeps the other keys and the image; a message of
    type AlbumCover with a non-empty image replaces the image and keeps the
    media; any other message changes neither.  A missing or unreadable
    file counts as empty media and no image. *)
Theorem media_only_gains (f : file) (msgs : list payload) (msg : payload) :
  (forall k, is_Some (entry (readMediaFile f) k) ->
             is_Some (entry (media_read (store f msgs)) k)) /\
  (truthy (p_base64Image (readMediaFile f)) = true ->
   truthy (p_base64Image (media_read (store f msgs))) = true) /\
  (forall bag, p_type msg = Data -> p_media msg = Some bag ->
     (forall k, entry (media_read (on_media f msg)) k
                = match bag !! k with
                  | Some v => Some v
                  | None => entry (readMediaFile f) k
                  end) /\
     (truthy (p_base64Image (readMediaFile f)) = true ->
      p_base64Image (media_read (on_media f msg))
        = p_base64Image (readMediaFile f))) /\
  (p_type msg = AlbumCover -> truthy (p_base64Image msg) = true ->
     p_base64Image (media_read (on_media f msg)) = p_base64Image msg /\
     p_media (media_read (on_media f msg)) = p_media (readMediaFile f)) /\
  ((p_type msg = Data -> p_media msg = None) ->
   (p_type msg = AlbumCover -> truthy (p_base64Image msg) = false) ->
     p_base64Image (media_read (on_media f msg))
       = p_base64Image (readMediaFile f) /\
     p_media (media_read (on_media f msg)) = p_media (readMediaFile f)) /\
  (entry (readMediaFile None) = fun _ => None) /\
  p_base64Image (readMediaFile None) = None.
Proof.
  split; [|split; [|split; [|split; [|split; [|split]]]]].
  - intros k. induction msgs as [|m msgs IH] using rev_ind; [done|].
    intros Hk. rewrite store_snoc. by apply newPayload_entry, IH.
  - induction msgs as [|m msgs IH] using rev_ind; [done|].
    intros Hi. rewrite store_snoc. by apply newPayload_image, IH.
  - intros bag Ht Hm. unfold media_read, on_media, newPayload; simpl.
    rewrite Ht, Hm. split.
    + intros k. unfold entry; simpl.
      destruct (bag !! k) as [v|] eqn:Hk.
      * by apply lookup_union_Some_l.
      * by apply lookup_union_r.
    + simpl. by intros ->.
  - intros Ht Hi. unfold media_read, on_media, newPayload; simpl.
    rewrite Ht, Hi. by destruct (p_media msg).
  - intros Hd Ha. unfold media_read, on_media, newPayload; simpl.
    destruct (p_type msg) eqn:Ht.
    + by rewrite Hd.
    + rewrite Ha by done. by destruct (p_media msg).
    + by destruct (p_media msg).
  - done.
  - done.
Qed.

End Media.

End MediaStore.

(** ** The frame pacing of the render worker
       (setTargetFps, renderFrame, renderAnimationFrame) *)
Module FramePacing.

Local Open Scope float_scope.

(** A decoded [VideoFrame], by the order of its arrival or any other
    name. *)
Definition frame := nat.

Inductive effect :=
| close (f : frame)
| draw (f : frame)
| requestAnimationFrame.

(** The fields of the worker that the pacing reads or writes; [renderer]
    tells whether one was selected, and [requested] counts the animation
    callbacks that were asked for and have not run yet. *)
Record pacer := {
  pendingFrame : option frame;
  renderScheduled : bool;
  lastRenderTime : float;
  targetFps : float;
  frameInterval : float;
  renderer : bool;
  requested : nat
}.

Definition init (renderer : bool) : pacer :=
  {| pendingFrame := None; renderScheduled := false; lastRenderTime := 0;
     targetFps := 60; frameInterval := 1000 / 60; renderer := renderer;
     requested := 0 |}.

(** [setTargetFps(fps)]; [None] is [undefined]. *)
Definition setTargetFps (s : pacer) (fps : option float) : pacer :=
  match fps with
  | Some v =>
      if (v =? 0) || is_nan v || negb (is_finite v) then s
      else
        {| pendingFrame := pendingFrame s;
           renderScheduled := renderScheduled s;
           lastRenderTime := lastRenderTime s; targetFps := v;
           frameInterval := 1000 / v; renderer := renderer s;
           requested := requested s |}
  | None => s
  end.

(** [renderFrame(frame)], the output callback of the decoder. *)
Definition renderFrame (s : pacer) (f : frame) : pacer * list effect :=
  ({| pendingFrame := Some f; renderScheduled := true;
      lastRenderTime := lastRenderTime s; targetFps := targetFps s;
      frameInterval := frameInterval s; renderer := renderer s;
      requested := if renderScheduled s then requested s
                   else S (requested s) |},
   (if pendingFrame s is Some old then [close old] else [])
   ++ (if renderScheduled s then [] else [requestAnimationFrame])).

(** [renderAnimationFrame()], run by the browser for one of the callbacks
    asked for; [now] is [performance.now()]. *)
Definition renderAnimationFrame (s : pacer) (now : float)
    : pacer * list effect :=
  if now - lastRenderTime s <? frameInterval s then
    ({| pendingFrame := pendingFrame s; renderScheduled := false;
        lastRenderTime := lastRenderTime s; targetFps := targetFps s;
        frameInterval := frameInterval s; renderer := renderer s;
        requested := S (pred (requested s)) |},
     [requestAnimationFrame])
  else
    match pendingFrame s with
    | Some f =>
        ({| pendingFrame := None; renderScheduled := false;
            lastRenderTime := now; targetFps := targetFps s;
            frameInterval := frameInterval s; renderer := renderer s;
            requested := pred (requested s) |},
         if renderer s then [draw f] else [])
    | None =>
        ({| pendingFrame := None; renderScheduled := false;
            lastRenderTime := lastRenderTime s; targetFps := targetFps s;
            frameInterval := frameInterval s; renderer := renderer s;
            requested := pred (requested s) |}, [])
    end.

(** What happens to the pacing: the decoder puts out a frame, the browser
    runs an animation callback, the main thread updates the rate. *)
Inductive event :=
| Output (f : frame)
| Tick (now : float)
| UpdateFps (fps : option float).

(** The browser runs a callback only if one was asked for. *)
Definition step (s : pacer) (e : event) : pacer * list effect :=
  match e with
  | Output f => renderFrame s f
  | Tick now =>
      match requested s with
      | O => (s, [])
      | S _ => renderAnimationFrame s now
      end
  | UpdateFps fps => (setTargetFps s fps, [])
  end.

Fixpoint run (s : pacer) (es : list event) : pacer * list effect :=
  match es with
  | [] => (s, [])
  | e :: es' =>
      let '(s1, effs) := step s e in
      let '(s2, effs') := run s1 es' in
      (s2, effs ++ effs')
  end.

(** The frames put out, closed and drawn, in order. *)
Definition outputs (es : list event) : list frame :=
  omap (fun e => match e with Output f => Some f | _ => None end) es.

Definition closed (effs : list effect) : list frame :=
  omap (fun x => match x with close f => Some f | _ => None end) effs.

Definition drawn (effs : list effect) : list frame :=
  omap (fun x => match x with draw f => Some f | _ => None end) effs.

(** The times at which a frame was drawn. *)
Fixpoint draw_times (s : pacer) (es : list event) : list float :=
  match es with
  | [] => []
  | e :: es' =>
      match e, drawn (step s e).2 with
      | Tick now, _ :: _ => [now]
      | _, _ => []
      end ++ draw_times (step s e).1 es'
  end.

(** Each time of the list is not less than [interval] after the one
    before, as the comparison of the worker sees it. *)
Fixpoint spaced (interval : float) (ts : list float) : Prop :=
  match ts with
  | t1 :: (t2 :: _) as rest =>
      (t2 - t1 <? interval) = false /\ spaced interval rest
  | _ => True
  end.

(** A callback is outstanding whenever one is marked scheduled or a frame
    waits. *)
Definition live (s : pacer) : Prop :=
  (renderScheduled s = true -> (1 <= requested s)%nat) /\
  (is_Some (pendingFrame s) -> (1 <= requested s)%nat).

Lemma live_step s e : live s -> live (step s e).1.
Proof.
  intros [H1 H2]. destruct e as [f|now|fps]; simpl.
  - unfold live; simpl.
    destruct (renderScheduled s) eqn:E; split; intros _;
      first [by apply H1|lia].
  - destruct (requested s) as [|n] eqn:Hr.
    { simpl. unfold live. rewrite Hr. by split. }
    unfold renderAnimationFrame, live.
    destruct (now - lastRenderTime s <? frameInterval s); simpl.
    + rewrite Hr. split; intros _; simpl; lia.
    + destruct (pendingFrame s); simpl; (split; [done|]); by intros [? ?].
  - unfold setTargetFps. destruct fps as [v|]; [|by split].
    by destruct ((v =? 0) || is_nan v || negb (is_finite v)).
Qed.

Lemma run_snoc_pacer s es e :
  run s (es ++ [e])
  = ((step (run s es).1 e).1, (run s es).2 ++ (step (run s es).1 e).2).
Proof.
  revert s. induction es as [|e' es IH]; intros s; simpl.
  - destruct (step s e) as [s1 effs]. simpl. by rewrite app_nil_r.
  - destruct (step s e') as [s1 effs] eqn:E1. rewrite IH.
    destruct (run s1 es) as [s2 effs2]. simpl.
    by rewrite app_assoc.
Qed.

Lemma renderer_step s e : renderer (step s e).1 = renderer s.
Proof.
  destruct e as [f|now|fps]; simpl; [done| |].
  - destruct (requested s); [done|]. unfold renderAnimationFrame.
    destruct (_ <? _); [done|]. by destruct (pendingFrame s).
  - unfold setTargetFps. destruct fps as [v|]; [|done].
    by destruct ((v =? 0) || is_nan v || negb (is_finite v)).
Qed.

Lemma step_frames s e :
  renderer s = true ->
  option_list (pendingFrame s) ++ outputs [e]
    ≡ₚ closed (step s e).2 ++ drawn (step s e).2
       ++ option_list (pendingFrame (step s e).1) /\
  (forall f, pendingFrame (step s e).1 = Some f ->
     last (option_list (pendingFrame s) ++ outputs [e]) = Some f) /\
  drawn (step s e).2 `sublist_of` option_list (pendingFrame s).
Proof.
  intros Hr. destruct e as [f|now|fps]; simpl.
  - destruct (pendingFrame s) as [old|], (renderScheduled s); simpl;
      (split; [done|]); split; try (by intros f' [= <-]);
      apply sublist_nil_l.
  - destruct (requested s) as [|n].
    { simpl. rewrite !app_nil_r. split; [done|]. split; [|apply sublist_nil_l].
      intros f Hf. rewrite Hf. done. }
    unfold renderAnimationFrame.
    destruct (now - lastRenderTime s <? frameInterval s); simpl.
    + rewrite !app_nil_r. split; [done|]. split; [|apply sublist_nil_l].
      intros f Hf. by rewrite Hf.
    + destruct (pendingFrame s) as [f|]; simpl; [rewrite Hr; simpl|];
        (split; [done|]); (split; [done|]); done.
  - assert (Hp : pendingFrame (setTargetFps s fps) = pendingFrame s).
    { unfold setTargetFps. destruct fps as [v|]; [|done].
      by destruct ((v =? 0) || is_nan v || negb (is_finite v)). }
    rewrite Hp, !app_nil_r. split; [done|]. split; [|apply sublist_nil_l].
    intros f Hf. by rewrite Hf.
Qed.

Lemma step_order s e :
  renderer s = true ->
  drawn (step s e).2 ++ option_list (pendingFrame (step s e).1)
    `sublist_of` option_list (pendingFrame s) ++ outputs [e].
Proof.
  intros Hr. destruct e as [f|now|fps]; simpl.
  - destruct (pendingFrame s) as [old|], (renderScheduled s); simpl;
      try done; by apply sublist_cons.
  - rewrite app_nil_r. destruct (requested s) as [|n]; [done|].
    unfold renderAnimationFrame.
    destruct (now - lastRenderTime s <? frameInterval s); simpl; [done|].
    destruct (pendingFrame s) as [f|]; simpl; [|done].
    by rewrite Hr.
  - assert (Hp : pendingFrame (setTargetFps s fps) = pendingFrame s).
    { unfold setTargetFps. destruct fps as [v|]; [|done].
      by destruct ((v =? 0) || is_nan v || negb (is_finite v)). }
    by rewrite Hp, app_nil_r.
Qed.

Lemma run_frames es : forall s,
  renderer s = true ->
  option_list (pendingFrame s) ++ outputs es
    ≡ₚ closed (run s es).2 ++ drawn (run s es).2
       ++ option_list (pendingFrame (run s es).1) /\
  drawn (run s es).2 ++ option_list (pendingFrame (run s es).1)
    `sublist_of` option_list (pendingFrame s) ++ outputs es /\
  (forall f, pendingFrame (run s es).1 = Some f ->
     last (option_list (pendingFrame s) ++ outputs es) = Some f).
Proof.
  induction es as [|e es IH]; intros s Hr.
  - simpl. rewrite app_nil_r. split; [done|]. split; [done|].
    intros f Hf. by rewrite Hf.
  - destruct (step_frames s e Hr) as (Hp & Hl & _).
    pose proof (step_order s e Hr) as Ho.
    pose proof (renderer_step s e) as Hr1. rewrite Hr in Hr1.
    assert (Hcons : outputs (e :: es) = outputs [e] ++ outputs es)
      by apply (omap_app _ [e] es).
    rewrite Hcons. clear Hcons.
    cbn [run]. destruct (step s e) as [s1 effs]. cbn [fst snd] in *.
    destruct (IH s1 Hr1) as (IHp & IHo & IHl).
    destruct (run s1 es) as [s2 effs2]. cbn [fst snd] in *.
    unfold closed, drawn in *. rewrite !omap_app.
    fold (closed effs) (closed effs2) (drawn effs) (drawn effs2) in *.
    split; [|split].
    + rewrite (app_assoc (option_list (pendingFrame s))), Hp.
      rewrite <- !app_assoc, IHp.
      rewrite (app_assoc (drawn effs)), (Permutation_app_comm (drawn effs)).
      by rewrite <- !app_assoc.
    + rewrite (app_assoc (option_list (pendingFrame s))).
      rewrite <- app_assoc. etrans.
      * apply sublist_app; [done|exact IHo].
      * rewrite app_assoc. by apply sublist_app.
    + intros f Hf. specialize (IHl f Hf).
      rewrite (app_assoc (option_list (pendingFrame s))).
      rewrite last_app in IHl. rewrite last_app.
      destruct (last (outputs es)); [done|].
      destruct (pendingFrame s1) as [f1|] eqn:E1; [|done].
      simpl in IHl. injection IHl as ->. by apply Hl.
Qed.

Lemma live_run es : forall s, live s -> live (run s es).1.
Proof.
  induction es as [|e es IH]; intros s Hs; simpl; [done|].
  pose proof (live_step s e Hs) as H1.
  destruct (step s e) as [s1 effs]. simpl in *.
  specialize (IH s1 H1). by destruct (run s1 es).
Qed.

(** X15.  With a renderer selected, every frame the decoder has put out is
    accounted for exactly once: it was closed when a later frame replaced
    it before it was drawn, or it was drawn, or it is the one frame that
    waits.  Frames are drawn in the order they came, the frame that waits
    is the latest one put out, and while a frame waits an animation
    callback is outstanding, so it is not left behind. *)
Theorem frames_accounted (es : list event) :
  outputs es
    ≡ₚ closed (run (init true) es).2 ++ drawn (run (init true) es).2
       ++ option_list (pendingFrame (run (init true) es).1) /\
  drawn (run (init true) es).2 `sublist_of` outputs es /\
  (forall f, pendingFrame (run (init true) es).1 = Some f ->
     last (outputs es) = Some f) /\
  (is_Some (pendingFrame (run (init true) es).1) ->
   (1 <= requested (run (init true) es).1)%nat).
Proof.
  destruct (run_frames es (init true) eq_refl) as (Hp & Ho & Hl).
  split; [exact Hp|]. split; [|split; [exact Hl|]].
  - etrans; [|exact Ho]. apply sublist_inserts_r. done.
  - apply (live_run es (init true)). split; [done|]. by intros [? ?].
Qed.

Definition keeps_rate (e : event) : bool :=
  match e with UpdateFps _ => false | _ => true end.

Lemma run_spaced es : forall s,
  renderer s = true -> Forall (fun e => keeps_rate e = true) es ->
  spaced (frameInterval s) (lastRenderTime s :: draw_times s es).
Proof.
  induction es as [|e es IH]; intros s Hr Hes; [done|].
  apply Forall_cons in Hes as [He Hes].
  pose proof (renderer_step s e) as Hr1. rewrite Hr in Hr1.
  specialize (IH (step s e).1 Hr1 Hes).
  cbn [draw_times]. destruct e as [f|now|fps]; [| |done].
  - simpl in *. done.
  - simpl in *. destruct (requested s) as [|n]; [done|].
    unfold renderAnimationFrame in *.
    destruct (now - lastRenderTime s <? frameInterval s) eqn:Hlt; [done|].
    destruct (pendingFrame s) as [f|]; [|done].
    rewrite Hr in *. simpl in *. by split.
Qed.

(** X16.  With a renderer selected and the rate left as it is, two frames
    drawn one after the other are never closer than the frame interval:
    for the callback times t1 and t2 of consecutive draws the test
    t2 - t1 < frameInterval of the worker is false, and so it is for the
    first draw against time 0. *)
Theorem draws_spaced (es : list event) :
  Forall (fun e => keeps_rate e = true) es ->
  spaced (1000 / 60) (0 :: draw_times (init true) es).
Proof. intros Hes. by apply (run_spaced es (init true)). Qed.

(** Three frames at callback times 20, 30 and 40 ms: the second is too
    early and is replaced by the third. *)
Definition three_frames : list event :=
  [Output 1%nat; Tick 20; Output 2%nat; Tick 30; Output 3%nat; Tick 40].

Lemma draws_spaced_witness :
  draw_times (init true) three_frames = [20; 40] /\
  spaced (1000 / 60) (0 :: draw_times (init true) three_frames).
Proof.
  split; [reflexivity|].
  apply (draws_spaced three_frames). by repeat constructor.
Defined.

Definition rate_ok (s : pacer) : Prop :=
  is_finite (targetFps s) = true /\ (targetFps s =? 0) = false /\
  frameInterval s = 1000 / targetFps s.

Lemma rate_step s e : rate_ok s -> rate_ok (step s e).1.
Proof.
  intros Hs. destruct e as [f|now|fps]; simpl.
  - done.
  - destruct (requested s); [done|]. unfold renderAnimationFrame.
    destruct (_ <? _); [done|]. by destruct (pendingFrame s).
  - unfold setTargetFps. destruct fps as [v|]; [|done].
    destruct (v =? 0) eqn:E0; [done|].
    destruct (is_nan v) eqn:En; [done|].
    destruct (is_finite v) eqn:Ef; [|done]. by split.
Qed.

(** X17.  Whatever rates [updateTargetFps] is called with, the target rate
    of the worker stays a finite number other than 0 and the frame
    interval stays 1000 / targetFps: an update with undefined, 0, NaN or
    an infinity changes nothing, any other number is taken as it is. *)
Theorem target_fps_guarded (r : bool) (es : list event) (s : pacer)
    (v : float) :
  rate_ok (run (init r) es).1 /\
  setTargetFps s None = s /\ setTargetFps s (Some 0) = s /\
  setTargetFps s (Some (-0)) = s /\ setTargetFps s (Some nan) = s /\
  setTargetFps s (Some infinity) = s /\
  setTargetFps s (Some neg_infinity) = s /\
  (is_finite v = true -> (v =? 0) = false ->
   targetFps (setTargetFps s (Some v)) = v /\
   frameInterval (setTargetFps s (Some v)) = 1000 / v).
Proof.
  split.
  - assert (H : forall s0, rate_ok s0 -> rate_ok (run s0 es).1).
    { induction es as [|e es IH]; intros s0 Hs0; simpl; [done|].
      pose proof (rate_step s0 e Hs0) as H1.
      destruct (step s0 e) as [s1 effs]. simpl in *.
      specialize (IH s1 H1). by destruct (run s1 es). }
    apply H. by repeat split.
  - do 6 (split; [reflexivity|]).
    intros Hf Hz. unfold setTargetFps. rewrite Hz, Hf.
    assert (Hn : is_nan v = false).
    { unfold is_finite in Hf. by destruct (is_nan v). }
    by rewrite Hn.
Qed.

End FramePacing.

(** ** The choice of a renderer in the render worker
       (evaluateRendererCapabilities, isRendererSupported) *)
Module RendererChoice.

Inductive renderer_name := webgl2 | webgpu.

(** What the browser answers during the tests: whether the canvas gives a
    context for the renderer, and what [VideoDecoder.isConfigSupported]
    says for hardware and for software decoding while that renderer is
    tested (an exception counts as no). *)
Record environment := {
  has_context : renderer_name -> bool;
  hw_supported : renderer_name -> bool;
  sw_supported : renderer_name -> bool
}.

Record caps := { hw : bool; sw : bool; available : bool }.

(** [isRendererSupported(renderer)]. *)
Definition isRendererSupported (env : environment) (r : renderer_name) : caps :=
  if has_context env r then
    {| hw := hw_supported env r; sw := sw_supported env r;
       available := hw_supported env r || sw_supported env r |}
  else {| hw := false; sw := false; available := false |}.

(** The user agent, as far as the worker looks at it. *)
Record user_agent := { isMac : bool; isLinux : bool; isArm : bool }.

Definition rendererPriority (ua : user_agent) : list renderer_name :=
  if isMac ua then [webgpu; webgl2]
  else if isLinux ua && negb (isArm ua) then [webgl2; webgpu]
  else [webgl2; webgpu].

Record selection := {
  hardwareAccelerationTested : bool;
  selectedRenderer : option renderer_name;
  rendererHwSupported : bool;
  rendererSwSupported : bool
}.

Definition initial : selection :=
  {| hardwareAccelerationTested := false; selectedRenderer := None;
     rendererHwSupported := false; rendererSwSupported := false |}.

(** The second loop of [evaluateRendererCapabilities]: the first renderer
    of the list that is available is selected. *)
Fixpoint pick (env : environment) (st : selection)
    (priority : list renderer_name) : selection :=
  match priority with
  | [] => st
  | r :: rest =>
      let c := isRendererSupported env r in
      if available c then
        {| hardwareAccelerationTested := true; selectedRenderer := Some r;
           rendererHwSupported := hw c; rendererSwSupported := sw c |}
      else pick env st rest
  end.

Definition evaluateRendererCapabilities (ua : user_agent) (env : environment)
    (st : selection) : selection :=
  if hardwareAccelerationTested st then st
  else pick env st (rendererPriority ua).

(** The renderer the worker prefers. *)
Definition preferred (ua : user_agent) : renderer_name :=
  if isMac ua then webgpu else webgl2.

Definition other (r : renderer_name) : renderer_name :=
  match r with webgl2 => webgpu | webgpu => webgl2 end.

Definition usable (env : environment) (r : renderer_name) : bool :=
  has_context env r && (hw_supported env r || sw_supported env r).

(** X18.  The capability test of the render worker selects the preferred
    renderer, WebGPU on a Mac and WebGL2 elsewhere, when the canvas gives
    its context and the decoder supports hardware or software decoding;
    the other renderer only when the preferred one is not usable and it is
    itself; the hardware and software flags are then those found for the
    selected renderer.  When neither is usable nothing is selected, the
    flags stay false and the test is not marked done, so it runs again
    when called again; once it is marked done a further call changes
    nothing. *)
Theorem renderer_selection (ua : user_agent) (env env' : environment) :
  let st := evaluateRendererCapabilities ua env initial in
  (usable env (preferred ua) = true ->
     selectedRenderer st = Some (preferred ua)) /\
  (usable env (preferred ua) = false ->
   usable env (other (preferred ua)) = true ->
     selectedRenderer st = Some (other (preferred ua))) /\
  (forall r, selectedRenderer st = Some r ->
     usable env r = true /\ hardwareAccelerationTested st = true /\
     rendererHwSupported st = hw_supported env r /\
     rendererSwSupported st = sw_supported env r /\
     rendererHwSupported st || rendererSwSupported st = true /\
     evaluateRendererCapabilities ua env' st = st) /\
  (usable env webgl2 = false -> usable env webgpu = false ->
     st = initial).
Proof.
  unfold evaluateRendererCapabilities, rendererPriority, preferred, usable.
  simpl.
  destruct (isMac ua), (isLinux ua), (isArm ua); simpl;
    unfold isRendererSupported;
    destruct (has_context env webgl2) eqn:C1,
      (has_context env webgpu) eqn:C2,
      (hw_supported env webgl2) eqn:H1, (sw_supported env webgl2) eqn:S1,
      (hw_supported env webgpu) eqn:H2, (sw_supported env webgpu) eqn:S2;
    simpl;
    (split; [done|]); (split; [done|]); (split; [|done]);
    intros r [= <-]; rewrite ?C1, ?C2, ?H1, ?S1, ?H2, ?S2; done.
Qed.

End RendererChoice.

(** ** The render worker without renderer capabilities *)
Module NoRenderer.
Import RendererWorker.

Section Worker.
Context {config : Type}.
Variable getNaluFromStream_SPS : list Byte.byte -> option (list Byte.byte).
Variable isKeyFrame : list Byte.byte -> bool.
Variable getDecoderConfig : list Byte.byte -> option config.

Local Abbreviation processRaw :=
  (processRaw getNaluFromStream_SPS isKeyFrame getDecoderConfig).
Local Abbreviation run := (run getNaluFromStream_SPS isKeyFrame getDecoderConfig).

Definition is_frame (e : event) : bool :=
  match e with Frame _ _ => true | Capabilities _ _ => false end.

Lemma processRaw_unsupported dec w buffer :
  isConfigured w = false ->
  rendererHwSupported w = false -> rendererSwSupported w = false ->
  (processRaw dec w buffer).2 = [] /\
  isConfigured (processRaw dec w buffer).1 = false /\
  rendererHwSupported (processRaw dec w buffer).1 = false /\
  rendererSwSupported (processRaw dec w buffer).1 = false.
Proof.
  intros Hc Hhw Hsw. unfold RendererWorker.processRaw.
  destruct (len buffer =? 0); [done|].
  rewrite Hc.
  set (w1 := match getNaluFromStream_SPS (videoDataOf buffer) with
             | Some raw => set_lastSPS w raw
             | None => w
             end).
  assert (H1 : isConfigured w1 = false /\ rendererHwSupported w1 = false /\
               rendererSwSupported w1 = false).
  { unfold w1. by destruct (getNaluFromStream_SPS _). }
  destruct H1 as (Hc1 & Hhw1 & Hsw1). clearbody w1.
  destruct (awaitingValidKeyframe w1 && negb (isKeyFrame (videoDataOf buffer)));
    [done|].
  destruct (lastSPS w1) as [raw|]; simpl; [|by rewrite Hc1].
  destruct (isKeyFrame (videoDataOf buffer)); simpl; rewrite ?Hc1; simpl;
    [|done].
  destruct (getDecoderConfig raw) as [c|]; simpl; [|by rewrite Hc1].
  unfold configureDecoder. rewrite Hhw1, Hsw1. simpl. by rewrite Hc1.
Qed.

(** X19.  A worker for which no renderer capability was found (neither
    hardware nor software decoding marked as supported, as it is before
    the capability test ends and after a test that selects nothing) never
    calls the decoder: whatever video buffers arrive, no configure and no
    decode call is made and the worker stays unconfigured. *)
Theorem no_capability_no_decode (es : list event) :
  Forall (fun e => is_frame e = true) es ->
  (run create es).2 = [] /\ isConfigured (run create es).1 = false.
Proof.
  assert (H : forall w, isConfigured w = false ->
            rendererHwSupported w = false -> rendererSwSupported w = false ->
            Forall (fun e => is_frame e = true) es ->
            (run w es).2 = [] /\ isConfigured (run w es).1 = false).
  { induction es as [|e es IH]; intros w Hc Hhw Hsw Hes; simpl; [done|].
    apply Forall_cons in Hes as [He Hes].
    destruct e as [buffer dec|a b]; [|done]. simpl.
    destruct (processRaw_unsupported dec w buffer Hc Hhw Hsw)
      as (H1 & H2 & H3 & H4).
    destruct (processRaw dec w buffer) as [w1 effs]. simpl in *.
    destruct (IH w1 H2 H3 H4 Hes) as [H5 H6].
    destruct (run w1 es) as [w2 effs2]. simpl in *. by subst. }
  by apply H.
Qed.

End Worker.

Lemma no_capability_no_decode_witness :
  (run toy_sps toy_key toy_config create
     [Frame [Byte.x67; Byte.x65] willing; Frame [Byte.x41] willing]).2 = [].
Proof.
  by destruct (no_capability_no_decode toy_sps toy_key toy_config
                 [Frame [Byte.x67; Byte.x65] willing; Frame [Byte.x41] willing])
    as [H _]; [repeat constructor|].
Defined.

End NoRenderer.

(** ** Video from the session service to the render worker
       (sendChunked, then handleVideo of the Carplay component) *)
Module VideoPath.
Import Messages CarplayService ChunkedTransfer.

Section Path.
Context {meta : Type}.

(** [handleVideo(payload)] of the renderer: the buffer it posts on the
    video port for an envelope of the video channel, once the render
    worker is ready.  The [chunk] of an envelope is taken to arrive as an
    array over a buffer of its own, so that [chunk.buffer] holds its
    bytes and no others. *)
Definition handleVideo (renderReady : bool) (env : envelope)
    : list (list Byte.byte) :=
  if renderReady then [chunk env] else [].

(** What the video port gets for the effects of the service. *)
Definition posted (renderReady : bool) (effs : list (@effect meta))
    : list (list Byte.byte) :=
  flat_map (fun e => match e with
                     | web_chunk carplay_video_chunk env =>
                         handleVideo renderReady env
                     | _ => []
                     end) effs.

Definition VIDEO_CHUNK : Z := 512 * 1024.

Lemma posted_envelopes (d : list Byte.byte) (l : list nat) :
  posted true ((fun i => web_chunk carplay_video_chunk
                           (envelope_at d VIDEO_CHUNK None i)) <$> l)
  = (fun i => chunk (envelope_at d VIDEO_CHUNK None i)) <$> l.
Proof.
  induction l as [|i l IH]; [done|].
  rewrite !fmap_cons. unfold posted in *. cbn [flat_map app].
  by rewrite IH.
Qed.

Lemma posted_not_ready (effs : list (@effect meta)) : posted false effs = [].
Proof.
  unfold posted. induction effs as [|e effs IH]; [done|].
  cbn [flat_map]. rewrite IH. by destruct e as [| [] | | | | | |].
Qed.

Lemma video_chunks_closed (s : service) (d : list Byte.byte) :
  webContents s = true ->
  sendChunked (meta := meta) s carplay_video_chunk (Some d) VIDEO_CHUNK None
  = (fun i => web_chunk carplay_video_chunk (envelope_at d VIDEO_CHUNK None i))
      <$> seq 0 (chunk_count (len d) VIDEO_CHUNK).
Proof.
  intros Hweb. assert (Hcs : 0 < VIDEO_CHUNK) by done.
  assert (Hlen : 0 <= len d) by (unfold len; lia).
  unfold sendChunked. rewrite Hweb.
  pose proof (sendChunked_loop_closed (meta := meta) carplay_video_chunk d
                VIDEO_CHUNK None Hcs (length d) 0) as H.
  rewrite Nat.sub_0_r in H. apply H; [lia|].
  pose proof (chunk_count_le (len d) VIDEO_CHUNK Hcs Hlen). unfold len in *. lia.
Qed.

Lemma video_chunks_concat (d : list Byte.byte) :
  concat ((fun i => chunk (envelope_at d VIDEO_CHUNK None i))
            <$> seq 0 (chunk_count (len d) VIDEO_CHUNK)) = d.
Proof.
  assert (Hcs : 0 < VIDEO_CHUNK) by done.
  assert (Hlen : 0 <= len d) by (unfold len; lia).
  destruct (Session.sendChunked_loop_covers (meta := meta) carplay_video_chunk
              d VIDEO_CHUNK None Hcs (length d) 0) as (envs & Hloop & Hcat & _).
  { unfold len; lia. } { unfold len; lia. }
  pose proof (sendChunked_loop_closed (meta := meta) carplay_video_chunk d
                VIDEO_CHUNK None Hcs (length d) 0) as H.
  rewrite Nat.sub_0_r in H. change (Z.of_nat 0 * VIDEO_CHUNK) with 0 in H.
  rewrite H in Hloop.
  2: lia.
  2: { pose proof (chunk_count_le (len d) VIDEO_CHUNK Hcs Hlen).
       unfold len in *. lia. }
  rewrite drop_0 in Hcat.
  assert (Henvs : web_chunk (meta := meta) carplay_video_chunk
                    <$> (envelope_at d VIDEO_CHUNK None
                           <$> seq 0 (chunk_count (len d) VIDEO_CHUNK))
                  = web_chunk carplay_video_chunk <$> envs).
  { rewrite <- list_fmap_compose. exact Hloop. }
  assert (Hinj : Inj (=) (=) (web_chunk (meta := meta) carplay_video_chunk)).
  { by intros x y [= ->]. }
  apply (list_fmap_eq_inj _ _ _) in Henvs.
  etrans; [|exact Hcat]. f_equal.
  by rewrite <- Henvs, <- list_fmap_compose.
Qed.

(** X20.  The bytes of a VideoData message reach the render worker as the
    chunks of [sendChunked], one port message each: put end to end they
    are the data, none of them is empty, and a buffer of at most 512 KiB
    arrives as one message that is the whole buffer.  A larger buffer
    arrives in two or more messages; an empty buffer posts none, and
    nothing is posted before the worker is ready. *)
Theorem video_reaches_worker (decodeTypeMap : Z -> option meta) (hst : host)
    (s : service) (w h : Z) (d : list Byte.byte) :
  webContents s = true ->
  let effs := (on_message decodeTypeMap hst s (VideoData w h (Some d))).2 in
  concat (posted true effs) = d /\
  Forall (fun b => b <> []) (posted true effs) /\
  (0 < len d <= VIDEO_CHUNK -> posted true effs = [d]) /\
  (VIDEO_CHUNK < len d -> (2 <= length (posted true effs))%nat) /\
  (d = [] -> posted true effs = []) /\
  posted false effs = [].
Proof.
  intros Hweb effs.
  assert (Hcs : 0 < VIDEO_CHUNK) by done.
  assert (Hposted : posted true effs
                    = (fun i => chunk (envelope_at d VIDEO_CHUNK None i))
                        <$> seq 0 (chunk_count (len d) VIDEO_CHUNK)).
  { subst effs. unfold on_message. rewrite Hweb. cbn [negb fst snd].
    change (512 * 1024) with VIDEO_CHUNK.
    rewrite (video_chunks_closed s d Hweb).
    unfold posted at 1. cbn [flat_map app]. apply posted_envelopes. }
  assert (Hlen : 0 <= len d) by (unfold len; lia).
  split; [rewrite Hposted; apply video_chunks_concat|].
  split; [|split; [|split; [|split]]].
  - rewrite Hposted. apply Forall_fmap, Forall_forall. intros i Hi.
    apply elem_of_seq in Hi. simpl.
    assert (Hlt : Z.of_nat i * VIDEO_CHUNK < len d).
    { apply chunk_count_spec; [done|done|lia]. }
    intros Hnil. apply (f_equal length) in Hnil. revert Hnil.
    unfold subarray. rewrite length_take, length_drop. simpl.
    unfold len in *. lia.
  - intros Hd. rewrite Hposted.
    assert (Hn : chunk_count (len d) VIDEO_CHUNK = 1%nat).
    { assert (H1 : (0 < chunk_count (len d) VIDEO_CHUNK)%nat).
      { apply (chunk_count_spec (len d) VIDEO_CHUNK 0); [done|done|]. simpl. lia. }
      assert (H2 : ~ (1 < chunk_count (len d) VIDEO_CHUNK)%nat).
      { rewrite <- (chunk_count_spec (len d) VIDEO_CHUNK 1) by done. lia. }
      lia. }
    rewrite Hn. simpl. f_equal. unfold subarray. simpl.
    rewrite Z.min_r by lia. unfold len.
    change (Z.of_nat 0 * VIDEO_CHUNK) with 0.
    rewrite Z.sub_0_r, Nat2Z.id. change (Z.to_nat 0) with 0%nat.
    by rewrite drop_0, firstn_all.
  - intros Hd. rewrite Hposted, length_fmap, length_seq.
    assert (H2 : (1 < chunk_count (len d) VIDEO_CHUNK)%nat).
    { apply (chunk_count_spec (len d) VIDEO_CHUNK 1); [done|done|]. lia. }
    lia.
  - intros ->. rewrite Hposted. reflexivity.
  - apply posted_not_ready.
Qed.

End Path.

Lemma video_reaches_worker_witness :
  posted (meta := unit) true
    (on_message (fun _ => None)
       {| os := Microphone.linux; userConfig := None; device_present := false |}
       (attachRenderer create) (VideoData 800 480 (Some some_bytes))).2
  = [some_bytes].
Proof.
  destruct (video_reaches_worker (meta := unit) (fun _ => None)
              {| os := Microphone.linux; userConfig := None;
                 device_present := false |}
              (attachRenderer create) 800 480 some_bytes eq_refl)
    as (_ & _ & H & _).
  apply H. split; [done|]. vm_compute. by intros [=].
Defined.

End VideoPath.

From Stdlib Require Import Ascii.

(** ** The search path of the recorder process (Microphone.buildExecPath) *)
Module ExecPath.

(** [s.split(sep)] for a separator of one character. *)
Fixpoint split (sep : ascii) (s : string) : list string :=
  match s with
  | EmptyString => [EmptyString]
  | String c r =>
      if Ascii.eqb c sep then EmptyString :: split sep r
      else match split sep r with
           | h :: t => String c h :: t
           | [] => [String c EmptyString]
           end
  end.

(** [a.join(sep)]. *)
Fixpoint join (sep : ascii) (l : list string) : string :=
  match l with
  | [] => EmptyString
  | x :: r =>
      match r with
      | [] => x
      | _ :: _ => x +:+ String sep (join sep r)
      end
  end.

(** [Array.from(new Set(l))]: a Set keeps the first occurrence of each
    value, in insertion order; [seen] is what the set holds already. *)
Fixpoint uniq_from (seen l : list string) : list string :=
  match l with
  | [] => []
  | x :: r =>
      if bool_decide (x ∈ seen) then uniq_from seen r
      else x :: uniq_from (x :: seen) r
  end.

Definition extra : list string :=
  ["/opt/homebrew/bin"; "/usr/local/bin"; "/usr/bin"; "/bin"; "/usr/sbin";
   "/sbin"]%string.

(** [buildExecPath(current)]; [None] is [undefined], and the empty string is
    falsy as well. *)
Definition buildExecPath (current : option string) : string :=
  let parts := match current with
               | Some c => if String.eqb c "" then [] else split ":" c
               | None => []
               end in
  join ":" (uniq_from [] (extra ++ parts)).

(** The entries of a path. *)
Definition entries (path : string) : list string := split ":" path.

Fixpoint sep_free (sep : ascii) (s : string) : bool :=
  match s with
  | EmptyString => true
  | String c r => negb (Ascii.eqb c sep) && sep_free sep r
  end.

Lemma split_cons sep s : exists h t, split sep s = h :: t.
Proof.
  induction s as [|c r IH]; simpl; [by eauto|].
  destruct (Ascii.eqb c sep); [by eauto|].
  destruct IH as (h & t & ->). by eauto.
Qed.

Lemma split_sep_free sep s : Forall (fun x => sep_free sep x = true) (split sep s).
Proof.
  induction s as [|c r IH]; simpl; [by repeat constructor|].
  destruct (Ascii.eqb c sep) eqn:E; [by constructor|].
  destruct (split sep r) as [|h t]; [by constructor; [simpl; rewrite E|]|].
  inversion IH; subst. constructor; [|done]. simpl. by rewrite E.
Qed.

Lemma split_one sep x : sep_free sep x = true -> split sep x = [x].
Proof.
  induction x as [|c r IH]; simpl; [done|].
  destruct (Ascii.eqb c sep); [done|]. simpl. intros H. by rewrite IH.
Qed.

Lemma split_append sep x s :
  sep_free sep x = true ->
  split sep (x +:+ String sep s) = x :: split sep s.
Proof.
  induction x as [|c r IH]; simpl.
  - intros _. by rewrite Ascii.eqb_refl.
  - destruct (Ascii.eqb c sep); [done|]. simpl. intros H. by rewrite IH.
Qed.

Lemma split_join sep l :
  l <> [] -> Forall (fun x => sep_free sep x = true) l ->
  split sep (join sep l) = l.
Proof.
  induction l as [|x r IH]; [done|]. intros _ Hall.
  inversion Hall as [|? ? Hx Hr]; subst.
  destruct r as [|y r]; [by apply split_one|].
  change (join sep (x :: y :: r)) with (x +:+ String sep (join sep (y :: r))).
  rewrite split_append by done. f_equal. by apply IH.
Qed.

Lemma uniq_from_ext seen seen' l :
  (forall x, x ∈ seen <-> x ∈ seen') -> uniq_from seen l = uniq_from seen' l.
Proof.
  revert seen seen'. induction l as [|x r IH]; intros seen seen' H; [done|].
  simpl. rewrite (bool_decide_ext _ _ (H x)).
  destruct (bool_decide (x ∈ seen')); [by apply IH|].
  f_equal. apply IH. intros y. rewrite !elem_of_cons. by rewrite H.
Qed.

Lemma uniq_from_app seen l1 l2 :
  uniq_from seen (l1 ++ l2) = uniq_from seen l1 ++ uniq_from (l1 ++ seen) l2.
Proof.
  revert seen. induction l1 as [|x r IH]; intros seen; [done|].
  simpl. destruct (bool_decide (x ∈ seen)) eqn:E.
  - apply bool_decide_eq_true in E. rewrite IH. f_equal.
    apply uniq_from_ext. intros y. rewrite elem_of_cons, !elem_of_app.
    split; [by auto|]. intros [->|[?|?]]; auto.
  - simpl. f_equal. rewrite IH. f_equal.
    apply uniq_from_ext. intros y.
    rewrite elem_of_cons, !elem_of_app, elem_of_cons. tauto.
Qed.

Lemma uniq_from_elem seen l x :
  x ∈ uniq_from seen l <-> x ∈ l /\ x ∉ seen.
Proof.
  revert seen. induction l as [|y r IH]; intros seen; simpl.
  - rewrite elem_of_nil. tauto.
  - destruct (bool_decide (y ∈ seen)) eqn:E.
    + apply bool_decide_eq_true in E. rewrite IH, elem_of_cons.
      split; [tauto|]. intros [[->|?] ?]; [done|tauto].
    + apply bool_decide_eq_false in E.
      rewrite !elem_of_cons, IH, elem_of_cons.
      split; [intros [->|[? ?]]; tauto|].
      intros [[->|?] ?]; [tauto|].
      destruct (decide (x = y)); [tauto|]. right. tauto.
Qed.

Lemma uniq_from_NoDup seen l : NoDup (uniq_from seen l).
Proof.
  revert seen. induction l as [|y r IH]; intros seen; simpl; [constructor|].
  destruct (bool_decide (y ∈ seen)); [by apply IH|].
  constructor; [|by apply IH].
  rewrite uniq_from_elem, elem_of_cons. tauto.
Qed.

Lemma uniq_from_id seen l :
  NoDup l -> (forall x, x ∈ l -> x ∉ seen) -> uniq_from seen l = l.
Proof.
  revert seen. induction l as [|y r IH]; intros seen Hnd Hdis; [done|].
  inversion Hnd as [|? ? Hy Hr]; subst. simpl.
  rewrite bool_decide_eq_false_2 by (apply Hdis; left).
  f_equal. apply IH; [done|]. intros x Hx. rewrite elem_of_cons.
  intros [->|Hs]; [done|]. by apply (Hdis x); [right|].
Qed.

Lemma uniq_from_seen l : uniq_from l l = [].
Proof.
  assert (H : forall seen, (forall x, x ∈ l -> x ∈ seen) -> uniq_from seen l = []).
  { induction l as [|y r IH]; intros seen Hs; [done|]. simpl.
    rewrite bool_decide_eq_true_2 by (apply Hs; left).
    apply IH. intros x Hx. apply Hs. by right. }
  by apply H.
Qed.

(** The entries of a path that [buildExecPath] adds after its own. *)
Definition parts_of (current : option string) : list string :=
  match current with
  | Some c => if String.eqb c "" then [] else split ":" c
  | None => []
  end.

Lemma built_entries current :
  entries (buildExecPath current) = extra ++ uniq_from extra (parts_of current).
Proof.
  unfold entries, buildExecPath. fold (parts_of current).
  rewrite uniq_from_app, app_nil_r.
  change (uniq_from [] extra) with extra.
  apply split_join; [done|].
  apply Forall_app. split; [by repeat constructor|].
  apply Forall_forall. intros x Hx. apply uniq_from_elem in Hx as [Hx _].
  unfold parts_of in Hx. destruct current as [c|]; [|by inversion Hx].
  destruct (String.eqb c ""); [by inversion Hx|].
  by apply (proj1 (Forall_forall _ _) (split_sep_free ":" c)).
Qed.

Lemma built_nonempty current : buildExecPath current <> ""%string.
Proof.
  intros H. pose proof (built_entries current) as E. rewrite H in E.
  by inversion E.
Qed.

(** X21.  The path [buildExecPath] builds has the six standard directories
    first and in their order, names no directory twice, keeps every entry
    of the current path and adds no other; building from an already built
    path changes nothing. *)
Theorem exec_path_entries (current : option string) :
  let dirs := entries (buildExecPath current) in
  take 6 dirs = extra /\
  NoDup dirs /\
  (forall c, current = Some c -> c <> ""%string ->
     forall p, p ∈ entries c -> p ∈ dirs) /\
  (forall p, p ∈ dirs ->
     p ∈ extra \/ exists c, current = Some c /\ p ∈ entries c) /\
  buildExecPath (Some (buildExecPath current)) = buildExecPath current.
Proof.
  intros dirs. subst dirs. rewrite built_entries.
  split; [done|]. split; [|split; [|split]].
  - apply NoDup_app. split; [by apply (bool_decide_unpack _)|].
    split; [|apply uniq_from_NoDup].
    intros x Hx Hu. apply uniq_from_elem in Hu. tauto.
  - intros c -> Hc p Hp. unfold parts_of.
    destruct (String.eqb_spec c ""); [done|].
    rewrite elem_of_app, uniq_from_elem. unfold entries in Hp.
    destruct (decide (p ∈ extra)); tauto.
  - intros p Hp. apply elem_of_app in Hp as [Hp|Hp]; [by left|].
    apply uniq_from_elem in Hp as [Hp _]. right.
    unfold parts_of in Hp. destruct current as [c|]; [|by inversion Hp].
    destruct (String.eqb c ""); [by inversion Hp|]. by exists c.
  - unfold buildExecPath at 1.
    destruct (String.eqb_spec (buildExecPath current) "") as [E|_];
      [by apply built_nonempty in E|].
    fold (entries (buildExecPath current)). rewrite built_entries.
    unfold buildExecPath. fold (parts_of current). f_equal.
    rewrite !uniq_from_app, !app_nil_r.
    change (uniq_from [] extra) with extra. rewrite uniq_from_seen.
    f_equal. cbn [app]. apply uniq_from_id; [apply uniq_from_NoDup|].
    intros x Hx. apply uniq_from_elem in Hx as [_ Hx].
    intros Hs. apply Hx. apply elem_of_app in Hs. tauto.
Qed.

End ExecPath.

(** ** The cache of PCM players of the renderer (useCarplayAudio) *)
Module AudioPlayers.

(** The fields of a [decodeTypeMap] entry the hook reads. *)
Record format := { frequency : Z; channel : Z }.

(** A [PlayerEntry]; a [PcmPlayer] object is named by the number of
    players made before it. *)
Record PlayerEntry := { player : nat; isNav : bool; jitterMs : float }.

(** What the hook does to the players and to the worker. *)
Inductive effect :=
| new_PcmPlayer (p : nat) (frequency channel : Z) (jitter : float)
| player_start (p : nat)
| player_volume (p : nat) (v : float)
| player_stop (p : nat)
| post_audioPlayer (p : nat) (decodeType audioType : Z).

(** The values of the store a render of the hook closes over. *)
Record settings := {
  audioVolume : float;
  navVolume : float;
  audioJitterMs : float
}.

Section Players.

(** [createAudioPlayerKey] of the worker's utilities and [decodeTypeMap] of
    the messages module. *)
Context {K : Type} `{EqDecision K}.
Variable createAudioPlayerKey : Z -> Z -> K.
Variable decodeTypeMap : Z -> option format.

(** A JS [Map], in insertion order. *)
Fixpoint map_get (m : list (K * PlayerEntry)) (k : K) : option PlayerEntry :=
  match m with
  | [] => None
  | (k', v) :: m' => if decide (k' = k) then Some v else map_get m' k
  end.

Fixpoint map_set (m : list (K * PlayerEntry)) (k : K) (v : PlayerEntry)
    : list (K * PlayerEntry) :=
  match m with
  | [] => [(k, v)]
  | (k', v') :: m' =>
      if decide (k' = k) then (k, v) :: m' else (k', v') :: map_set m' k v
  end.

Definition map_delete (m : list (K * PlayerEntry)) (k : K)
    : list (K * PlayerEntry) :=
  filter (fun kv => kv.1 <> k) m.

(** [playersRef.current], and the number of players made so far. *)
Record hook := { playersRef : list (K * PlayerEntry); made : nat }.

Definition init : hook := {| playersRef := []; made := 0 |}.

(** [getAudioPlayer(audio)]: the hook after it, what it did, and the player
    it returns; [None] when reading [format.frequency] of an unknown decode
    type throws. *)
Definition getAudioPlayer (cfg : settings) (h : hook) (decodeType audioType : Z)
    : hook * list effect * option nat :=
  let format := decodeTypeMap decodeType in
  let key := createAudioPlayerKey decodeType audioType in
  let nav := (audioType =? 2) || (audioType =? 3) in
  let existing := map_get (playersRef h) key in
  if match existing with
     | None => true
     | Some e => negb (PrimFloat.eqb (jitterMs e) (audioJitterMs cfg))
     end
  then
    let '(m1, stops) :=
      match existing with
      | Some e => (map_delete (playersRef h) key, [player_stop (player e)])
      | None => (playersRef h, [])
      end in
    match format with
    | None => ({| playersRef := m1; made := made h |}, stops, None)
    | Some f =>
        let p := made h in
        ({| playersRef :=
              map_set m1 key
                {| player := p; isNav := nav; jitterMs := audioJitterMs cfg |};
            made := S p |},
         stops ++ [new_PcmPlayer p (frequency f) (channel f) (audioJitterMs cfg);
                   player_start p;
                   player_volume p (if nav then navVolume cfg
                                    else audioVolume cfg);
                   post_audioPlayer p decodeType audioType],
         Some p)
    end
  else (h, [], player <$> existing).

(** [applyVolumes()]. *)
Definition applyVolumes (cfg : settings) (h : hook) : list effect :=
  (fun kv => player_volume (player kv.2)
               (if isNav kv.2 then navVolume cfg else audioVolume cfg))
    <$> playersRef h.

(** The cleanup of the hook when the component unmounts. *)
Definition cleanup (h : hook) : hook * list effect :=
  ({| playersRef := []; made := made h |},
   (fun kv => player_stop (player kv.2)) <$> playersRef h).

Inductive event :=
| GetAudioPlayer (cfg : settings) (decodeType audioType : Z)
| ApplyVolumes (cfg : settings)
| Unmount.

Definition step (h : hook) (ev : event) : hook * list effect :=
  match ev with
  | GetAudioPlayer cfg dt at' => (getAudioPlayer cfg h dt at').1
  | ApplyVolumes cfg => (h, applyVolumes cfg h)
  | Unmount => cleanup h
  end.

Definition run (h : hook) (evs : list event) : hook * list effect :=
  foldl (fun acc ev => let '(h', effs) := step acc.1 ev in (h', acc.2 ++ effs))
        (h, []) evs.

(** The players that run after a trace: started and not stopped since, in
    the order they were started. *)
Definition live_step (acc : list nat) (e : effect) : list nat :=
  match e with
  | player_start p => acc ++ [p]
  | player_stop p => filter (fun q => q <> p) acc
  | _ => acc
  end.

Definition live (tr : list effect) : list nat := foldl live_step [] tr.

(** The players started, and the players handed to the worker. *)
Definition started (tr : list effect) : list nat :=
  omap (fun e => match e with player_start p => Some p | _ => None end) tr.

Definition handed (tr : list effect) : list nat :=
  omap (fun e => match e with post_audioPlayer p _ _ => Some p | _ => None end)
       tr.

Definition cached (h : hook) : list nat := (fun kv => player kv.2) <$> playersRef h.

Lemma map_get_set m k v : map_get (map_set m k v) k = Some v.
Proof.
  induction m as [|[k' v'] m IH]; simpl.
  - by rewrite decide_True.
  - destruct (decide (k' = k)) as [->|Hne]; simpl.
    + by rewrite decide_True.
    + by rewrite decide_False.
Qed.

Lemma map_get_keys m k : map_get m k = None -> k ∉ m.*1.
Proof.
  induction m as [|[k' v'] m IH]; simpl; [intros _; apply not_elem_of_nil|].
  destruct (decide (k' = k)) as [->|Hne]; [done|].
  intros Hg. rewrite not_elem_of_cons. split; [done|by apply IH].
Qed.

Lemma map_set_fresh m k v : k ∉ m.*1 -> map_set m k v = m ++ [(k, v)].
Proof.
  induction m as [|[k' v'] m IH]; simpl; [done|].
  rewrite not_elem_of_cons. intros [Hne Hk].
  rewrite decide_False by done. by rewrite IH.
Qed.

Lemma map_delete_fresh m k : k ∉ m.*1 -> map_delete m k = m.
Proof.
  unfold map_delete. induction m as [|[k' v'] m IH]; [done|].
  simpl. rewrite not_elem_of_cons. intros [Hne Hk].
  rewrite filter_cons_True by done. by rewrite IH.
Qed.

Lemma map_delete_absent m k : k ∉ (map_delete m k).*1.
Proof.
  unfold map_delete. rewrite list_elem_of_fmap.
  intros ([k' v'] & -> & Hin). apply list_elem_of_filter in Hin as [Hne _].
  by apply Hne.
Qed.

Lemma map_delete_sub m k : NoDup m.*1 -> NoDup (map_delete m k).*1.
Proof.
  unfold map_delete. induction m as [|[k' v'] m IH]; [done|].
  simpl. rewrite NoDup_cons. intros [Hk Hnd].
  destruct (decide (k' = k)) as [->|Hne].
  - rewrite filter_cons_False by (simpl; tauto). by apply IH.
  - rewrite filter_cons_True by done. simpl. apply NoDup_cons.
    split; [|by apply IH]. rewrite list_elem_of_fmap.
    intros ([k2 v2] & E & Hin). apply list_elem_of_filter in Hin as [_ Hin].
    simpl in E. subst k2. apply Hk. apply list_elem_of_fmap.
    by exists (k', v2).
Qed.

Lemma filter_keeps_all {A} (P : A -> Prop) `{forall x, Decision (P x)} l :
  Forall P l -> filter P l = l.
Proof.
  induction 1 as [|x l Hx Hl IH]; [done|].
  rewrite filter_cons_True by done. by rewrite IH.
Qed.

(** Taking a key's entry out of the map takes its player, and no other,
    out of the players. *)
Lemma cached_delete m k e :
  NoDup m.*1 -> NoDup ((fun kv => player kv.2) <$> m) ->
  map_get m k = Some e ->
  (fun kv : K * PlayerEntry => player kv.2) <$> map_delete m k
  = filter (fun q => q <> player e) ((fun kv => player kv.2) <$> m).
Proof.
  unfold map_delete. induction m as [|[k' v'] m IH]; [done|].
  simpl. rewrite !NoDup_cons. intros [Hk Hnd] [Hp Hpnd].
  destruct (decide (k' = k)) as [->|Hne].
  - intros [= ->]. rewrite filter_cons_False by (simpl; tauto).
    rewrite filter_cons_False by tauto.
    pose proof (map_delete_fresh m k Hk) as Hd. unfold map_delete in Hd.
    rewrite Hd. symmetry.
    apply filter_keeps_all.
    apply Forall_forall. intros q Hq ->. by apply Hp.
  - intros Hg. rewrite filter_cons_True by done.
    assert (Hpe : player v' <> player e).
    { intros E. apply Hp. rewrite E. clear -Hg.
      induction m as [|[k2 v2] m IH]; [done|]. simpl in *.
      destruct (decide (k2 = k)); [injection Hg as ->; left|right; by apply IH]. }
    rewrite filter_cons_True by done. csimpl. f_equal. by apply IH.
Qed.


(** What a run keeps: the running players are the cached ones, the keys and
    the players of the cache are distinct, every cached player was made
    before, and the players started are the players handed over. *)
Definition inv (m : list (K * PlayerEntry)) (n : nat) (tr : list effect)
    : Prop :=
  live tr = (fun kv => player kv.2) <$> m /\
  NoDup m.*1 /\
  NoDup ((fun kv => player kv.2) <$> m) /\
  Forall (fun p => (p < n)%nat) ((fun kv => player kv.2) <$> m) /\
  handed tr = started tr.

Lemma live_app tr effs : live (tr ++ effs) = foldl live_step (live tr) effs.
Proof. unfold live. by rewrite foldl_app. Qed.

Lemma inv_stop m n tr k e :
  inv m n tr -> map_get m k = Some e ->
  inv (map_delete m k) n (tr ++ [player_stop (player e)]).
Proof.
  intros (Hl & Hk & Hp & Hn & Hh) Hg. split; [|split; [|split; [|split]]].
  - rewrite live_app. simpl. rewrite Hl. symmetry. by apply cached_delete.
  - by apply map_delete_sub.
  - rewrite (cached_delete m k e) by done. by apply NoDup_filter.
  - rewrite (cached_delete m k e) by done. apply Forall_forall.
    intros x Hx. apply list_elem_of_filter in Hx as [_ Hx].
    by apply (proj1 (Forall_forall _ _) Hn).
  - unfold handed, started in *. rewrite !omap_app. simpl.
    rewrite !app_nil_r. exact Hh.
Qed.

Lemma inv_new m n tr k nav j f c v dt at' :
  inv m n tr -> k ∉ m.*1 ->
  inv (map_set m k {| player := n; isNav := nav; jitterMs := j |}) (S n)
      (tr ++ [new_PcmPlayer n f c j; player_start n; player_volume n v;
              post_audioPlayer n dt at']).
Proof.
  intros (Hl & Hk & Hp & Hn & Hh) Hfresh.
  rewrite map_set_fresh by done.
  assert (Hnew : n ∉ (fun kv : K * PlayerEntry => player kv.2) <$> m).
  { intros Hin. apply (proj1 (Forall_forall _ _) Hn) in Hin. lia. }
  split; [|split; [|split; [|split]]].
  - rewrite live_app. simpl. rewrite Hl. by rewrite fmap_app.
  - rewrite fmap_app. apply NoDup_app. split; [done|]. split.
    + intros x Hx Hx'. apply list_elem_of_singleton in Hx'. simpl in Hx'.
      by subst x.
    + apply NoDup_singleton.
  - rewrite fmap_app. apply NoDup_app. split; [done|]. split.
    + intros x Hx Hx'. apply list_elem_of_singleton in Hx'. simpl in Hx'.
      by subst x.
    + apply NoDup_singleton.
  - rewrite fmap_app. apply Forall_app. split.
    + eapply Forall_impl; [exact Hn|]. simpl. lia.
    + apply Forall_singleton. simpl. lia.
  - unfold handed, started in *. rewrite !omap_app. simpl. by rewrite Hh.
Qed.

Lemma inv_made m n n' tr : inv m n tr -> (n <= n')%nat -> inv m n' tr.
Proof.
  intros (Hl & Hk & Hp & Hn & Hh) Hle. repeat (split; [done|]).
  split; [|done]. eapply Forall_impl; [exact Hn|]. simpl. lia.
Qed.

Lemma getAudioPlayer_inv cfg h dt at' tr :
  inv (playersRef h) (made h) tr ->
  let r := (getAudioPlayer cfg h dt at').1 in
  inv (playersRef r.1) (made r.1) (tr ++ r.2).
Proof.
  intros Hinv. unfold getAudioPlayer.
  set (key := createAudioPlayerKey dt at').
  destruct (map_get (playersRef h) key) as [e|] eqn:Hg.
  - destruct (PrimFloat.eqb (jitterMs e) (audioJitterMs cfg)); simpl.
    + by rewrite app_nil_r.
    + pose proof (inv_stop _ _ _ _ _ Hinv Hg) as Hs.
      destruct (decodeTypeMap dt) as [f|]; simpl; [|done].
      change (tr ++ player_stop (player e) :: ?l)
        with (tr ++ [player_stop (player e)] ++ l).
      rewrite app_assoc. apply inv_new; [done|]. apply map_delete_absent.
  - simpl. destruct (decodeTypeMap dt) as [f|]; simpl.
    + apply inv_new; [done|]. by apply map_get_keys.
    + by rewrite app_nil_r.
Qed.

Lemma live_volumes cfg m acc :
  foldl live_step acc
    ((fun kv : K * PlayerEntry =>
        player_volume (player kv.2)
          (if isNav kv.2 then navVolume cfg else audioVolume cfg)) <$> m)
  = acc.
Proof. induction m as [|kv m IH]; [done|]. simpl. exact IH. Qed.

Lemma live_stops (m : list (K * PlayerEntry)) acc :
  (forall x, x ∈ acc -> x ∈ (fun kv : K * PlayerEntry => player kv.2) <$> m) ->
  foldl live_step acc ((fun kv => player_stop (player kv.2)) <$> m) = [].
Proof.
  revert acc. induction m as [|kv m IH]; intros acc Hsub.
  - simpl. destruct acc as [|x acc]; [done|].
    specialize (Hsub x). rewrite elem_of_nil in Hsub. exfalso. apply Hsub. left.
  - simpl. apply IH. intros x Hx. apply list_elem_of_filter in Hx as [Hne Hx].
    apply Hsub in Hx. rewrite fmap_cons, elem_of_cons in Hx.
    by destruct Hx as [->|Hx].
Qed.

Lemma omap_fmap_none {A B C} (f : B -> option C) (g : A -> B) (l : list A) :
  (forall x, f (g x) = None) -> omap f (g <$> l) = [].
Proof.
  intros Hf. induction l as [|x l IH]; [done|].
  rewrite fmap_cons. simpl. by rewrite Hf.
Qed.

Lemma step_inv h ev tr :
  inv (playersRef h) (made h) tr ->
  inv (playersRef (step h ev).1) (made (step h ev).1) (tr ++ (step h ev).2).
Proof.
  intros Hinv. destruct ev as [cfg dt at'|cfg|]; simpl.
  - by apply getAudioPlayer_inv.
  - destruct Hinv as (Hl & Hk & Hp & Hn & Hh). unfold applyVolumes.
    split; [|split; [|split; [|split]]]; try done.
    + by rewrite live_app, live_volumes.
    + unfold handed, started in *. rewrite !omap_app, Hh.
      by rewrite !omap_fmap_none.
  - destruct Hinv as (Hl & Hk & Hp & Hn & Hh).
    split; [|split; [|split; [|split]]]; simpl; try by constructor.
    + rewrite live_app. apply live_stops. intros x. by rewrite Hl.
    + unfold handed, started in *. rewrite !omap_app, Hh.
      by rewrite !omap_fmap_none.
Qed.

Lemma run_snoc_hook h evs ev :
  run h (evs ++ [ev])
  = ((step (run h evs).1 ev).1, (run h evs).2 ++ (step (run h evs).1 ev).2).
Proof.
  unfold run. rewrite foldl_app. simpl.
  by destruct (step (foldl _ (h, []) evs).1 ev).
Qed.

Lemma run_inv evs :
  inv (playersRef (run init evs).1) (made (run init evs).1) (run init evs).2.
Proof.
  induction evs as [|ev evs IH] using rev_ind.
  - repeat split; simpl; constructor.
  - rewrite run_snoc_hook. simpl. by apply step_inv.
Qed.

(** X22.  Whatever calls of [getAudioPlayer], volume updates and unmounts
    the hook has seen, the players that run (started and not stopped) are
    the players in the cache, in order, none twice and at most one for a
    key, and each player started was handed to the worker once; after an
    unmount no player runs. *)
Theorem running_players_are_cached (evs : list event) :
  let r := run init evs in
  live r.2 = cached r.1 /\
  NoDup (playersRef r.1).*1 /\
  NoDup (live r.2) /\
  handed r.2 = started r.2 /\
  live (run init (evs ++ [Unmount])).2 = [].
Proof.
  intros r. subst r.
  destruct (run_inv evs) as (Hl & Hk & Hp & Hn & Hh).
  split; [done|]. split; [done|]. split; [by rewrite Hl|]. split; [done|].
  destruct (run_inv (evs ++ [Unmount])) as (Hl' & _).
  rewrite Hl'. by rewrite run_snoc_hook.
Qed.

Lemma eqb_right j x : PrimFloat.eqb x j = true -> PrimFloat.eqb j j = true.
Proof.
  rewrite !FloatAxioms.eqb_spec. unfold SpecFloat.SFeqb, SpecFloat.SFcompare.
  destruct (Prim2SF x), (Prim2SF j) as [sj|sj| |sj mj ej]; try done;
    intros _; try (by destruct sj).
  all: rewrite Z.compare_refl.
  all: change (PosDef.Pos.compare_cont Eq mj mj) with (Pos.compare mj mj).
  all: rewrite Pos.compare_refl; by destruct sj.
Qed.

Lemma getAudioPlayer_cases cfg h dt at' :
  let key := createAudioPlayerKey dt at' in
  (exists e, map_get (playersRef h) key = Some e /\
     PrimFloat.eqb (jitterMs e) (audioJitterMs cfg) = true /\
     getAudioPlayer cfg h dt at' = (h, [], Some (player e))) \/
  (exists m nav effs,
     getAudioPlayer cfg h dt at'
     = ({| playersRef := map_set m key
             {| player := made h; isNav := nav;
                jitterMs := audioJitterMs cfg |};
           made := S (made h) |}, effs, Some (made h))) \/
  (getAudioPlayer cfg h dt at').2 = None.
Proof.
  intros key. unfold getAudioPlayer. fold key.
  destruct (map_get (playersRef h) key) as [e|] eqn:Hg.
  - destruct (PrimFloat.eqb (jitterMs e) (audioJitterMs cfg)) eqn:E;
      cbn [negb].
    + left. by exists e.
    + right. destruct (decodeTypeMap dt) as [f|]; cbn [snd]; [left|by right].
      by eexists _, _, _.
  - right. cbn [snd]. destruct (decodeTypeMap dt) as [f|]; [left|by right].
    by eexists _, _, _.
Qed.

(** X23.  A call of [getAudioPlayer] that returned a player is answered
    from the cache the next time: with the same decode type, audio type and
    jitter setting the same player comes back, nothing is made, started,
    stopped or posted, and the volumes in force are not applied to it.
    The jitter is compared with [!==], so with a NaN jitter setting
    the second call stops that player instead. *)
Theorem cached_player_reused (cfg cfg' : settings) (h : hook)
    (dt at' : Z) (p : nat) :
  (getAudioPlayer cfg h dt at').2 = Some p ->
  audioJitterMs cfg' = audioJitterMs cfg ->
  let h1 := (getAudioPlayer cfg h dt at').1.1 in
  (PrimFloat.eqb (audioJitterMs cfg) (audioJitterMs cfg) = true ->
   getAudioPlayer cfg' h1 dt at' = (h1, [], Some p)) /\
  (PrimFloat.eqb (audioJitterMs cfg) (audioJitterMs cfg) = false ->
   exists h2 effs r,
     getAudioPlayer cfg' h1 dt at' = (h2, player_stop p :: effs, r)).
Proof.
  intros Hp Hj h1. subst h1. revert Hp.
  destruct (getAudioPlayer_cases cfg h dt at')
    as [(e & Hg & E & ->)|[(m & nav & effs & ->)| ->]];
    [| |done]; cbn [fst snd]; intros [= <-].
  - split.
    + intros _. unfold getAudioPlayer. by rewrite Hg, Hj, E.
    + intros En. apply eqb_right in E. congruence.
  - unfold getAudioPlayer. cbn [playersRef made].
    rewrite map_get_set. cbn [jitterMs player]. rewrite Hj. split.
    + by intros ->.
    + intros ->. cbn [negb]. destruct (decodeTypeMap dt); by eauto.
Qed.

End Players.

Definition key_of (decodeType audioType : Z) : Z * Z := (decodeType, audioType).

Definition stereo (_ : Z) : option format :=
  Some {| frequency := 48000; channel := 2 |}.

Definition plain : settings :=
  {| audioVolume := 1%float; navVolume := 0.5%float; audioJitterMs := 15%float |}.

Definition louder : settings :=
  {| audioVolume := 2%float; navVolume := 0.5%float; audioJitterMs := 15%float |}.

Lemma cached_player_reused_witness :
  getAudioPlayer key_of stereo louder
    (getAudioPlayer key_of stereo plain init 4 1).1.1 4 1
  = ((getAudioPlayer key_of stereo plain init 4 1).1.1, [], Some 0%nat).
Proof.
  destruct (cached_player_reused key_of stereo plain louder init 4 1 0%nat
              eq_refl eq_refl) as [H _].
  apply H. reflexivity.
Defined.

End AudioPlayers.

(** ** The recorder processes of the microphone (Microphone.start, stop and
       the handlers of the child process) *)
Module Recorder.
Import Microphone.

Inductive command := arecord | rec.

(** What the microphone does: spawn and kill child processes, named by the
    number of processes spawned before, and emit ['data']. *)
Inductive effect :=
| spawn (p : nat) (cmd : command)
| kill (p : nat)
| emit_data (chunk : list Byte.byte).

(** [process], and the number of processes spawned so far. *)
Record mic := { process : option nat; spawned : nat }.

Definition create : mic := {| process := None; spawned := 0 |}.

Definition cleanup (m : mic) : mic :=
  {| process := None; spawned := spawned m |}.

Definition stop (m : mic) : mic * list effect :=
  match process m with
  | Some p => (cleanup m, [kill p])
  | None => (m, [])
  end.

Definition start (os : platform) (m : mic) : mic * list effect :=
  let '(m1, stopped) := stop m in
  let run cmd :=
    ({| process := Some (spawned m1); spawned := S (spawned m1) |},
     stopped ++ [spawn (spawned m1) cmd]) in
  match os with
  | linux => run arecord
  | darwin true => run rec
  | darwin false => (m1, stopped)
  | unsupported => (m1, stopped)
  end.

(** What happens to the microphone: its methods are called, and the child
    processes it spawned raise their events. *)
Inductive event :=
| Start
| Stop
| Close (p : nat)
| Error (p : nat)
| Data (p : nat) (chunk : list Byte.byte).

Definition step (os : platform) (m : mic) (ev : event) : mic * list effect :=
  match ev with
  | Start => start os m
  | Stop => stop m
  | Close _ => (cleanup m, [])
  | Error _ => (cleanup m, [])
  | Data _ chunk => (m, [emit_data chunk])
  end.

Definition run (os : platform) (m : mic) (evs : list event)
    : mic * list effect :=
  foldl (fun acc ev => let '(m', effs) := step os acc.1 ev in
                       (m', acc.2 ++ effs))
        (m, []) evs.

(** Whether every ['close'] and ['error'] in the events comes from the
    process spawned last, that is before the microphone is started again. *)
Fixpoint timely (os : platform) (m : mic) (evs : list event) : bool :=
  match evs with
  | [] => true
  | ev :: rest =>
      match ev with
      | Close p | Error p => bool_decide (S p = spawned m)
      | _ => true
      end && timely os (step os m ev).1 rest
  end.

(** Process [p] is accounted for: killed, or it reported its end. *)
Definition gone (evs : list event) (tr : list effect) (p : nat) : Prop :=
  kill p ∈ tr \/ Close p ∈ evs \/ Error p ∈ evs.

Lemma run_snoc_mic os m evs ev :
  run os m (evs ++ [ev])
  = ((step os (run os m evs).1 ev).1,
     (run os m evs).2 ++ (step os (run os m evs).1 ev).2).
Proof.
  unfold run. rewrite foldl_app. simpl.
  by destruct (step os (foldl _ (m, []) evs).1 ev).
Qed.

Lemma run_state_any os evs m tr tr' :
  (foldl (fun acc ev => let '(m', effs) := step os acc.1 ev in
                        (m', acc.2 ++ effs)) (m, tr) evs).1
  = (foldl (fun acc ev => let '(m', effs) := step os acc.1 ev in
                          (m', acc.2 ++ effs)) (m, tr') evs).1.
Proof.
  revert m tr tr'. induction evs as [|e evs IH]; intros m tr tr'; [done|].
  simpl. destruct (step os m e) as [m' effs]. apply IH.
Qed.

Lemma run_cons_mic os m e evs :
  (run os m (e :: evs)).1 = (run os (step os m e).1 evs).1.
Proof.
  unfold run. simpl. destruct (step os m e) as [m' effs]. apply run_state_any.
Qed.

Lemma timely_snoc os m evs ev :
  timely os m (evs ++ [ev])
  = timely os m evs
    && match ev with
       | Close p | Error p => bool_decide (S p = spawned (run os m evs).1)
       | _ => true
       end.
Proof.
  revert m. induction evs as [|e evs IH]; intros m.
  - simpl. by rewrite andb_true_r.
  - change ((e :: evs) ++ [ev]) with (e :: (evs ++ [ev])).
    cbn [timely]. rewrite IH, andb_assoc. by rewrite run_cons_mic.
Qed.

Lemma gone_mono evs tr ev effs p :
  gone evs tr p -> gone (evs ++ [ev]) (tr ++ effs) p.
Proof. unfold gone. rewrite !elem_of_app. tauto. Qed.

Lemma stop_spec m :
  (stop m).1 = cleanup m /\
  (stop m).2 = match process m with Some p => [kill p] | None => [] end.
Proof.
  unfold stop. destruct m as [[p|] n]; by simpl.
Qed.

Lemma held_latest os evs :
  timely os create evs = true ->
  let r := run os create evs in
  (forall p, process r.1 = Some p -> S p = spawned r.1) /\
  (forall p, (p < spawned r.1)%nat ->
     gone evs r.2 p \/ process r.1 = Some p).
Proof.
  induction evs as [|ev evs IH] using rev_ind; intros Ht.
  - simpl. split; [done|]. intros p Hp. simpl in Hp. lia.
  - rewrite timely_snoc in Ht. apply andb_true_iff in Ht as [Ht Hev].
    destruct (IH Ht) as [Hheld Hall]. clear IH.
    rewrite run_snoc_mic. cbn [fst snd].
    destruct (run os create evs) as [m tr]. cbn [fst snd] in *.
    assert (Hstop : forall p, (p < spawned m)%nat ->
              gone (evs ++ [ev]) (tr ++ (stop m).2) p).
    { intros p Hp. destruct (Hall p Hp) as [Hg|Hp'].
      - by apply gone_mono.
      - left. rewrite (proj2 (stop_spec m)), Hp'. rewrite elem_of_app.
        right. by left. }
    destruct ev as [| |q|q|q chunk]; cbn [step].
    + unfold start.
      pose proof (stop_spec m) as [Hs1 Hs2].
      destruct (stop m) as [m1 stopped]. cbn [fst snd] in *. subst m1.
      assert (Hold : forall cmd p, (p < spawned m)%nat ->
                gone (evs ++ [Start])
                     (tr ++ stopped ++ [spawn (spawned m) cmd]) p).
      { intros cmd p Hp. destruct (Hstop p Hp) as [Hk|Hc]; [|by right].
        left. rewrite app_assoc, elem_of_app. by left. }
      assert (Hrun : forall cmd,
        (forall p, Some (spawned m) = Some p -> S p = S (spawned m)) /\
        (forall p, (p < S (spawned m))%nat ->
           gone (evs ++ [Start])
                (tr ++ stopped ++ [spawn (spawned m) cmd]) p
           \/ Some (spawned m) = Some p)).
      { intros cmd. split; [by intros p [= <-]|]. intros p Hp.
        destruct (decide (p = spawned m)) as [->|Hne]; [by right|].
        left. apply Hold. lia. }
      destruct os as [|[]|]; cbn [fst snd process spawned cleanup];
        first [apply Hrun | split; [done|]; intros p Hp; left; by apply Hstop].
    + pose proof (stop_spec m) as [Hs1 Hs2]. rewrite Hs1.
      cbn [process spawned cleanup]. split; [done|].
      intros p Hp. left. by apply Hstop.
    + apply bool_decide_eq_true in Hev.
      cbn [fst snd process spawned cleanup]. split; [done|].
      intros p Hp. left. destruct (Hall p Hp) as [Hg|Hp'].
      * by apply gone_mono.
      * apply Hheld in Hp'. right. left. rewrite elem_of_app. right.
        assert (p = q) as -> by lia. by left.
    + apply bool_decide_eq_true in Hev.
      cbn [fst snd process spawned cleanup]. split; [done|].
      intros p Hp. left. destruct (Hall p Hp) as [Hg|Hp'].
      * by apply gone_mono.
      * apply Hheld in Hp'. right. right. rewrite elem_of_app. right.
        assert (p = q) as -> by lia. by left.
    + cbn [fst snd]. split; [done|]. intros p Hp.
      destruct (Hall p Hp) as [Hg|Hp']; [left; by apply gone_mono|by right].
Qed.

(** X24.  As long as a recorder's ['close'] and ['error'] events arrive
    before the microphone is started again, the microphone loses no
    recorder: every process it spawned has been killed or has reported its
    end, except the one it holds, which is the one spawned last; so after
    [stop()] none is left. *)
Theorem recorders_accounted (os : platform) (evs : list event) :
  timely os create evs = true ->
  let r := run os create evs in
  (forall p, (p < spawned r.1)%nat ->
     gone evs r.2 p \/ (process r.1 = Some p /\ S p = spawned r.1)) /\
  (forall p, (p < spawned (run os create (evs ++ [Stop])).1)%nat ->
     gone evs (run os create (evs ++ [Stop])).2 p).
Proof.
  intros Ht r. subst r. destruct (held_latest os evs Ht) as [Hheld Hall].
  split.
  - intros p Hp. destruct (Hall p Hp) as [Hg|Hp']; [by left|].
    right. split; [done|]. by apply Hheld.
  - rewrite run_snoc_mic. cbn [fst snd step].
    pose proof (stop_spec (run os create evs).1) as [Hs1 Hs2].
    rewrite Hs1, Hs2. cbn [spawned cleanup].
    intros p Hp. destruct (Hall p Hp) as [Hg|Hp'].
    + destruct Hg as [Hk|Hc]; [|by right]. left. rewrite elem_of_app. by left.
    + left. rewrite Hp', elem_of_app. right. by left.
Qed.

(** The events of two calls in a row, the first recorder's ['close']
    arriving after the second was spawned. *)
Definition late_close : list event := [Start; Start; Close 0%nat; Stop].

(** With a late ['close'] the guarantee is lost: the handler forgets the
    recorder spawned since, and [stop()] does not kill it. *)
Example late_close_orphans :
  timely linux create late_close = false /\
  (run linux create late_close).2
  = [spawn 0%nat arecord; kill 0%nat; spawn 1%nat arecord] /\
  process (run linux create late_close).1 = None.
Proof. by vm_compute. Qed.

Lemma recorders_accounted_witness :
  gone [Start; Data 0%nat []; Stop; Close 0%nat; Start]
       (run linux create
          [Start; Data 0%nat []; Stop; Close 0%nat; Start; Stop]).2 1%nat.
Proof.
  destruct (recorders_accounted linux
              [Start; Data 0%nat []; Stop; Close 0%nat; Start] eq_refl)
    as [_ H].
  apply (H 1%nat). vm_compute. lia.
Defined.

End Recorder.

(** ** One start and one stop of the session service at a time
       (the isStarting / isStopping guards of CarplayService) *)
Module SingleFlight.
Import Messages CarplayService.

Section Flight.
Context {meta : Type} (decodeTypeMap : Z -> option meta) (h : host).

Definition is_open (e : @effect meta) : bool :=
  match e with open_device => true | _ => false end.

Definition is_close (e : @effect meta) : bool :=
  match e with driver_close => true | _ => false end.

(** The number of times the device was opened, and the driver closed. *)
Definition opens (effs : list (@effect meta)) : nat :=
  length (filter (fun e => is_open e = true) effs).

Definition closes (effs : list (@effect meta)) : nat :=
  length (filter (fun e => is_close e = true) effs).

(** The number of starts, and of stops, that came to their end. *)
Definition is_start_done (e : event) : bool :=
  match e with StartDone _ => true | _ => false end.

Definition is_stop_done (e : event) : bool :=
  match e with StopDone => true | _ => false end.

Definition starts_done (es : list event) : nat :=
  length (filter (fun e => is_start_done e = true) es).

Definition stops_done (es : list event) : nat :=
  length (filter (fun e => is_stop_done e = true) es).

(** Whether the events are in sequence: a start or a stop only comes to its
    end after it began. *)
Fixpoint sequenced (s : service) (es : list event) : bool :=
  match es with
  | [] => true
  | e :: es' =>
      match e with
      | StartDone _ => isStarting s
      | StopDone => isStopping s
      | _ => true
      end && sequenced (step decodeTypeMap h s e).1 es'
  end.

Definition b2n (b : bool) : nat := if b then 1%nat else 0%nat.

(** What the guards keep. *)
Definition guarded (s : service) : Prop :=
  (isStarting s = true -> started s = false) /\
  (isStopping s = true -> started s = true) /\
  stopping s = isStopping s.

(** What a step does to the guards and to the device. *)
Definition flight (s : service) (e : event) (r : service * list (@effect meta))
    : Prop :=
  guarded r.1 /\
  (opens r.2 + b2n (isStarting s)
   = b2n (isStarting r.1) + starts_done [e])%nat /\
  (closes r.2 + b2n (isStopping s)
   = b2n (isStopping r.1) + stops_done [e])%nat.

Lemma opens_app effs effs' : opens (effs ++ effs') = (opens effs + opens effs')%nat.
Proof. unfold opens. by rewrite filter_app, length_app. Qed.

Lemma closes_app effs effs' :
  closes (effs ++ effs') = (closes effs + closes effs')%nat.
Proof. unfold closes. by rewrite filter_app, length_app. Qed.

Lemma count_none (f : @effect meta -> bool) effs :
  (forall e, e ∈ effs -> f e = false) ->
  length (filter (fun e => f e = true) effs) = 0%nat.
Proof.
  induction effs as [|e effs IH]; intros H; [done|].
  rewrite filter_cons_False.
  - apply IH. intros e' He'. apply H. by apply list_elem_of_further.
  - rewrite (H e); [done|apply list_elem_of_here].
Qed.

Lemma chunks_quiet s c d cs ex :
  opens (sendChunked s c d cs ex) = 0%nat /\
  closes (sendChunked s c d cs ex) = 0%nat.
Proof.
  split; apply count_none; intros e He; unfold sendChunked in He;
    (destruct d as [d|]; [|by apply not_elem_of_nil in He]);
    (destruct (webContents s); [|by apply not_elem_of_nil in He]);
    by apply Session.sendChunked_loop_chunks in He as [env ->].
Qed.

(** A step that leaves the guards alone and touches neither device nor
    driver. *)
Lemma quiet_flight s e (r : service * list (@effect meta)) :
  guarded s ->
  match e with StartDone _ | StopDone => False | _ => True end ->
  started r.1 = started s -> stopping r.1 = stopping s ->
  isStarting r.1 = isStarting s -> isStopping r.1 = isStopping s ->
  opens r.2 = 0%nat -> closes r.2 = 0%nat ->
  flight s e r.
Proof.
  intros (G1 & G2 & G3) He H1 H2 H3 H4 Ho Hc.
  unfold flight, guarded. rewrite H1, H2, H3, H4, Ho, Hc.
  split; [done|]. destruct e; try done; unfold starts_done, stops_done;
    simpl; lia.
Qed.

Lemma start_begin_flight s e :
  guarded s ->
  match e with StartDone _ | StopDone => False | _ => True end ->
  flight s e (start_begin (meta := meta) h s).
Proof.
  intros (G1 & G2 & G3) He. unfold flight, guarded, start_begin.
  assert (Hd : starts_done [e] = 0%nat /\ stops_done [e] = 0%nat)
    by (by destruct e).
  destruct Hd as [-> ->].
  destruct (started s) eqn:E1, (isStarting s) eqn:E2, (isStopping s) eqn:E3,
    (device_present h); simpl; rewrite ?E1, ?E2, ?E3, ?G3; simpl;
    repeat split; try done; try lia; try (intros; by auto).
Qed.

Lemma stop_begin_flight s e :
  guarded s ->
  match e with StartDone _ | StopDone => False | _ => True end ->
  flight s e (stop_begin (meta := meta) s).
Proof.
  intros (G1 & G2 & G3) He. unfold flight, guarded, stop_begin.
  assert (Hd : starts_done [e] = 0%nat /\ stops_done [e] = 0%nat)
    by (by destruct e).
  destruct Hd as [-> ->].
  destruct (started s) eqn:E1, (isStarting s) eqn:E2, (isStopping s) eqn:E3,
    (stopping s) eqn:E4; simpl; rewrite ?E1, ?E2, ?E3, ?E4; simpl;
    repeat split; try done; try lia; try (intros; by auto).
Qed.


Lemma on_audio_command_flight s e c :
  guarded s ->
  match e with StartDone _ | StopDone => False | _ => True end ->
  flight s e (on_audio_command (meta := meta) h s c).
Proof.
  intros G He. unfold on_audio_command.
  destruct c; try (by apply quiet_flight);
    first [ destruct (audioTransferMode s); by apply quiet_flight
          | destruct (_mic s); by apply quiet_flight ].
Qed.

Lemma on_message_flight s e msg :
  guarded s ->
  match e with StartDone _ | StopDone => False | _ => True end ->
  flight s e (on_message decodeTypeMap h s msg).
Proof.
  intros G He. unfold on_message.
  destruct (webContents s) eqn:Hweb; cbn [negb]; [|by apply quiet_flight].
  assert (Gc : guarded (clearTimeouts s)) by exact G.
  destruct msg as [pt| |w ht d|a|payload|v|].
  - destruct (negb (started (clearTimeouts s))
              && negb (isStarting (clearTimeouts s))).
    + pose proof (start_begin_flight (clearTimeouts s) e Gc He) as Hf.
      destruct (start_begin h (clearTimeouts s)) as [s2 effs].
      exact Hf.
    + by apply quiet_flight.
  - destruct (negb (shuttingDown s) && negb (stopping s)).
    + pose proof (stop_begin_flight s e G He) as Hf.
      destruct (stop_begin s) as [s2 effs]. exact Hf.
    + by apply quiet_flight.
  - destruct (chunks_quiet s carplay_video_chunk d (512 * 1024) None)
      as [Ho Hc].
    by apply quiet_flight.
  - destruct (data a) as [d|].
    + destruct (chunks_quiet s carplay_audio_chunk (Some d) (64 * 1024)
                  (Some a)) as [Ho Hc].
      destruct (audioInfoSent s); [by apply quiet_flight|].
      destruct (decodeTypeMap (decodeType a)); [|by apply quiet_flight].
      apply quiet_flight; try done; cbn [snd].
      * by rewrite opens_app, Ho.
      * by rewrite closes_app, Hc.
    + destruct (command a) as [c|]; [|by apply quiet_flight].
      by apply on_audio_command_flight.
  - destruct payload; by apply quiet_flight.
  - by apply quiet_flight.
  - by apply quiet_flight.
Qed.

Lemma on_timer_flight s e handle :
  guarded s ->
  match e with StartDone _ | StopDone => False | _ => True end ->
  flight s e (on_timer (meta := meta) s handle).
Proof.
  intros G He. unfold on_timer.
  destruct (Timers.fire (timers s) handle) as [q cmds].
  apply quiet_flight; try done; cbn [snd]; apply count_none;
    intros x Hx; apply list_elem_of_fmap in Hx as (c & -> & _); done.
Qed.

Lemma step_flight s e :
  guarded s ->
  match e with
  | StartDone _ => isStarting s = true
  | StopDone => isStopping s = true
  | _ => True
  end ->
  flight s e (step decodeTypeMap h s e).
Proof.
  intros G He. destruct e as [msg| |ok| | |handle]; cbn [step].
  - by apply on_message_flight.
  - by apply start_begin_flight.
  - destruct G as (G1 & G2 & G3). unfold flight, guarded, start_finish.
    destruct ok; [destruct (Timers.set _ _ _ _) as [q hd]|];
      destruct (isStopping s) eqn:E3; cbn; rewrite ?He, ?E3, ?G3;
      try (rewrite G2 in G1 by done; by specialize (G1 He));
      repeat split; try done; intros; by auto.
  - by apply stop_begin_flight.
  - destruct G as (G1 & G2 & G3). unfold flight, guarded, stop_finish.
    destruct (isStarting s) eqn:E2.
    { rewrite G2 in G1 by done. by specialize (G1 eq_refl). }
    destruct (_mic s); cbn; rewrite ?He, ?E2; repeat split; try done.
  - by apply on_timer_flight.
Qed.

Lemma run_flight es : forall s,
  guarded s -> sequenced s es = true ->
  let r := run decodeTypeMap h s es in
  guarded r.1 /\
  (opens r.2 + b2n (isStarting s)
   = b2n (isStarting r.1) + starts_done es)%nat /\
  (closes r.2 + b2n (isStopping s)
   = b2n (isStopping r.1) + stops_done es)%nat.
Proof.
  induction es as [|e es IH]; intros s G Hs.
  - simpl. split; [done|]. unfold starts_done, stops_done. simpl. lia.
  - cbn [sequenced] in Hs. apply andb_true_iff in Hs as [He Hs].
    assert (He' : match e with
                  | StartDone _ => isStarting s = true
                  | StopDone => isStopping s = true
                  | _ => True
                  end) by (by destruct e).
    destruct (step_flight s e G He') as (G1 & Ho & Hc).
    cbn [run]. destruct (step decodeTypeMap h s e) as [s1 effs] eqn:Est.
    cbn [fst snd] in *.
    destruct (IH s1 G1 Hs) as (G2 & Ho2 & Hc2).
    destruct (run decodeTypeMap h s1 es) as [s2 effs2]. cbn [fst snd] in *.
    split; [done|]. rewrite opens_app, closes_app.
    change (e :: es) with ([e] ++ es).
    unfold starts_done, stops_done in *.
    rewrite !filter_app, !length_app. lia.
Qed.

(** X25.  A service that is idle at first opens the device once for every
    start that has come to its end, and once more exactly when a start is
    under way; it closes the driver once for every stop that has come to
    its end, and once more exactly when a stop is under way.  So no second
    start or stop begins while one is under way, whatever messages, calls
    and timers arrive in between; a start is only under way while the
    service is not started and no stop is, and a stop only while it is
    started. *)
Theorem one_start_at_a_time (s : service) (es : list event) :
  started s = false -> stopping s = false ->
  isStarting s = false -> isStopping s = false ->
  sequenced s es = true ->
  let r := run decodeTypeMap h s es in
  opens r.2 = (starts_done es + b2n (isStarting r.1))%nat /\
  closes r.2 = (stops_done es + b2n (isStopping r.1))%nat /\
  (isStarting r.1 = true -> started r.1 = false /\ isStopping r.1 = false) /\
  (isStopping r.1 = true -> started r.1 = true).
Proof.
  intros H1 H2 H3 H4 Hs r. subst r.
  assert (G : guarded s).
  { unfold guarded. rewrite H1, H2, H3, H4. by repeat split. }
  destruct (run_flight es s G Hs) as ((G1 & G2 & G3) & Ho & Hc).
  rewrite H3 in Ho. rewrite H4 in Hc. simpl in Ho, Hc.
  split; [lia|]. split; [lia|]. split; [|done].
  intros Hi. split; [by apply G1|].
  destruct (isStopping (run decodeTypeMap h s es).1) eqn:E; [|done].
  rewrite G2 in G1 by done. by specialize (G1 Hi).
Qed.

End Flight.

(** Two calls of start and a Plugged message while the device is being
    opened, then a stop called twice. *)
Definition busy_session : list event :=
  [StartCalled; StartCalled; Message_ (Plugged 3); StartDone true;
   StopCalled; Message_ Unplugged; StopCalled; StopDone; StartCalled].

Lemma one_start_at_a_time_witness :
  opens (run (meta := unit) (fun _ => None)
           {| os := Microphone.linux; userConfig := None;
              device_present := true |}
           (attachRenderer create) busy_session).2 = 2%nat /\
  closes (run (meta := unit) (fun _ => None)
            {| os := Microphone.linux; userConfig := None;
               device_present := true |}
            (attachRenderer create) busy_session).2 = 1%nat.
Proof.
  destruct (one_start_at_a_time (meta := unit) (fun _ => None)
              {| os := Microphone.linux; userConfig := None;
                 device_present := true |}
              (attachRenderer create) busy_session
              eq_refl eq_refl eq_refl eq_refl eq_refl)
    as (Ho & Hc & _).
  split; [rewrite Ho|rewrite Hc]; reflexivity.
Defined.

End SingleFlight.
